(** * Household bills: the ledger engine

    A shallow embedding of the pure ledger functions of the household-bills
    application (share calculation, contribution extraction, payment status,
    balance aggregation and settlement resolution), together with the
    properties that its specification states about them.

    Conventions of the embedding:
    - a JavaScript [number] holding a currency amount is an exact rational
      ([Q]); sums, products and quotients are the exact ones, comparisons are
      the boolean tests of [Q], and [Math.round(x * 100) / 100] is [round2];
    - a JavaScript object used as a dictionary ([Record<string, number>]) is a
      [gmap string _], its keys being ordinary ids (none is the name of a
      member of [Object.prototype]); the order in which its entries are
      visited does not change an exact sum; an optional field is an [option];
    - strings are compared as [String.compare] does, character code by
      character code;
    - a function that may raise a [TypeError] returns a [result]. *)

From Stdlib Require Import QArith Qround Qminmax Qabs Lqa Sorted.
From stdpp Require Import gmap strings list fin_maps.

Local Open Scope Q_scope.

(** ** Numbers *)

Module Num.

(** [x < y] and [x >= y] on numbers, as boolean tests. *)
Definition ltb (x y : Q) : bool :=
  match x ?= y with Lt => true | _ => false end.

Definition geb (x y : Q) : bool := negb (ltb x y).

(** [Math.round(x * 100) / 100]: [Math.round] is [floor (x + 1/2)]. The
    result is kept in lowest terms, so that equal amounts are equal terms. *)
Definition round2 (x : Q) : Q :=
  Qred (inject_Z (Qfloor (x * 100 + (1 # 2))) / 100).

(** [Object.values(m).reduce((sum, amt) => sum + amt, 0)]. *)
Definition sum_values (m : gmap string Q) : Q :=
  map_fold (λ _ amt sum, sum + amt) 0 m.

(** [Object.values(m).some(p)]. *)
Definition some_value (p : Q → bool) (m : gmap string Q) : bool :=
  map_fold (λ _ amt found, found || p amt) false m.

(** [m[k] || 0]: a missing entry, like a zero entry, reads as [0]. *)
Definition get0 (m : gmap string Q) (k : string) : Q := default 0 (m !! k).

(** Sum of a list of numbers. *)
Definition sum_list (l : list Q) : Q := foldr Qplus 0 l.

End Num.

Notation "x <? y" := (Num.ltb x y) : Q_scope.
Notation "x >=? y" := (Num.geb x y) : Q_scope.

(** ** Data model (types.ts) *)

Inductive BillCategory :=
| CatMortgage | CatUtility | CatInsurance | CatSubscription | CatGroceries
| CatInternet | CatTransportation | CatMedical | CatOther.

Inductive SplitType := Mortgage | Even | Custom | Percentage | Items.

Inductive BillStatus := Pending | Paid | Partial | Overdue.

Inductive RecordType := Forgiven | PaidOutside.

Record Person := {
  person_id : string;
  person_name : string;
  mortgageShare : Q;
}.

Record ReceiptItem := {
  item_id : string;
  item_name : string;
  item_amount : Q;
  assignedTo : list string;
}.

Record CoverageAllocation := {
  payerId : string;
  coveredId : string;
  cov_amount : Q;
}.

Record Bill := {
  bill_id : string;
  bill_name : string;
  amount : Q;
  dueDate : string;
  category : BillCategory;
  splitType : SplitType;
  paidBy : option string;
  paidContributions : option (gmap string Q);
  creditEarned : option (gmap string Q);
  coverageAllocations : option (list CoverageAllocation);
  isPaid : bool;
  customSplits : option (gmap string Q);
  items : option (list ReceiptItem);
}.

Record SettlementBreakdown := {
  billId : string;
  billName : string;
  sb_category : BillCategory;
  sb_dueDate : string;
  totalAmount : Q;
  theirShare : Q;
  creditorPaid : Q;
}.

Record SettlementWithBreakdown := {
  from : string;
  to : string;
  s_amount : Q;
  breakdown : list SettlementBreakdown;
  offsetBreakdown : option (list SettlementBreakdown);
  grossOwed : option Q;
  grossOffset : option Q;
  forgiven : option Q;
}.

Record SettlementRecord := {
  rec_id : string;
  fromId : string;
  toId : string;
  rec_amount : Q;
  rec_type : RecordType;
}.

(** The element type of the list returned by [calculateBalances]. [owes] is
    [None] when the JavaScript value is [NaN]. *)
Record BalanceLine := {
  personId : string;
  personName : string;
  owes : option Q;
}.

(** The element type of the list returned by [calculateSettlements]. *)
Record Settlement := {
  st_from : string;
  st_to : string;
  st_amount : Q;
}.

(** The default roster and the mortgage total of types.ts. *)
Definition HOUSEHOLD_MEMBERS : list Person :=
  [ {| person_id := "drew"; person_name := "Drew"; mortgageShare := 1300 |};
    {| person_id := "steve"; person_name := "Steve"; mortgageShare := 700 |};
    {| person_id := "mom"; person_name := "Mom"; mortgageShare := 500 |};
    {| person_id := "dad"; person_name := "Dad"; mortgageShare := 500 |};
    {| person_id := "rose"; person_name := "Rose"; mortgageShare := 500 |} ].

Definition MORTGAGE_TOTAL : Q := 3564.

(** ** Exceptions *)

Inductive JsError := TypeError.

Inductive result (A : Type) :=
| Ok (a : A)
| Throw (e : JsError).
Arguments Ok {A} a.
Arguments Throw {A} e.

#[global] Instance result_ret : MRet result := λ A a, Ok a.

#[global] Instance result_bind : MBind result := λ A B k r,
  match r with
  | Ok a => k a
  | Throw e => Throw e
  end.

#[global] Instance result_fmap : FMap result := λ A B f r,
  match r with
  | Ok a => Ok (f a)
  | Throw e => Throw e
  end.

(** [l.forEach(x => ...)] for a body that updates a state and may throw. *)
Fixpoint forEachM {A S} (f : A → S → result S) (l : list A) (s : S) : result S :=
  match l with
  | [] => Ok s
  | x :: l' => s' ← f x s; forEachM f l' s'
  end.

(** A string is truthy when it is not empty; [null] is falsy. *)
Definition truthy (o : option string) : bool :=
  match o with
  | Some s => negb (String.eqb s "")
  | None => false
  end.

(** ** Share calculator and contribution extractor (bill-utils.ts) *)

Definition calculateBillShares (bill : Bill) (members : list Person)
  : gmap string Q :=
  match splitType bill, customSplits bill, items bill with
  | Mortgage, _, _ =>
      foldl (λ shares member,
               <[person_id member := mortgageShare member]> shares) ∅ members
  | Even, _, _ =>
      (* with no member the quotient is never stored *)
      let evenShare := amount bill / inject_Z (Z.of_nat (length members)) in
      foldl (λ shares member, <[person_id member := evenShare]> shares)
            ∅ members
  | Percentage, Some splits, _ =>
      foldl (λ shares member,
               let percentage := Num.get0 splits (person_id member) in
               <[person_id member := (percentage / 100) * amount bill]> shares)
            ∅ members
  | Custom, Some splits, _ => splits
  | Items, _, Some its =>
      let zeroed :=
        foldl (λ shares member, <[person_id member := 0]> shares) ∅ members in
      foldl (λ shares item,
               match assignedTo item with
               | [] => shares
               | _ :: _ =>
                   let perPerson :=
                     item_amount item
                     / inject_Z (Z.of_nat (length (assignedTo item))) in
                   foldl (λ shares personId,
                            <[personId := Num.get0 shares personId + perPerson]>
                              shares)
                         shares (assignedTo item)
               end)
            zeroed its
  | _, _, _ => ∅
  end.

Definition getBillContributions (bill : Bill) : gmap string Q :=
  match paidContributions bill with
  | Some contributions => contributions
  | None =>
      match paidBy bill with
      | Some payer =>
          if String.eqb payer "" then ∅ else {[payer := amount bill]}
      | None => ∅
      end
  end.

Definition getTotalPaid (bill : Bill) : Q :=
  Num.sum_values (getBillContributions bill).

Definition isBillFullyPaid (bill : Bill) (tolerance : Q) : bool :=
  getTotalPaid bill >=? amount bill - tolerance.

(** ** Payment status (types.ts)

    [new Date(s)] and [new Date()] are not computed here: the status is a
    function of the clock reading [now] (milliseconds since the epoch) and of
    [parseDate], the instant that the [Date] constructor gives to a date
    string ([None] for an invalid date, which compares false with
    everything). *)

Section Status.

Variable parseDate : string → option Z.
Variable now : Z.

Definition getBillStatus (bill : Bill) : BillStatus :=
  if isPaid bill then Paid
  else
    let partial :=
      match paidContributions bill with
      | Some contributions =>
          let totalPaid := Num.sum_values contributions in
          (0 <? totalPaid) && (totalPaid <? amount bill)
      | None => false
      end in
    if partial then Partial
    else
      match parseDate (dueDate bill) with
      | Some due => if (due <? now)%Z then Overdue else Pending
      | None => Pending
      end.

End Status.

(** ** Balance aggregator (settlements.ts) *)

(** The filter shared by [calculateBalances] and
    [calculateSettlementsWithBreakdown]: paid and partially paid bills. An
    object, even an empty one, is truthy. *)
Definition isPaidOrPartial (bill : Bill) : bool :=
  (isPaid bill && (truthy (paidBy bill) || bool_decide (is_Some (paidContributions bill))))
  || match paidContributions bill with
     | Some contributions => Num.some_value (λ amt, 0 <? amt) contributions
     | None => false
     end.

(** The body of [paidBills.forEach] in [calculateBalances]. In [balances] a
    key is present exactly when the JavaScript entry is a number: [+=] and
    [-=] on a missing entry give [NaN], which stays [NaN] and is never a
    number again, so both [undefined] and [NaN] are the absence of the key. *)
Definition addBillToBalances (members : list Person) (bill : Bill)
    (balances : gmap string Q) : gmap string Q :=
  let shares := calculateBillShares bill members in
  let contributions := getBillContributions bill in
  let totalPaid := Num.sum_values contributions in
  let totalShares := Num.sum_values shares in
  if (totalPaid <? 0.01) || (totalShares <? 0.01) then balances
  else
    let paidRatio := Qmin (totalPaid / totalShares) 1 in
    let balances :=
      map_fold (λ personId share balances,
                  let paid := Num.get0 contributions personId in
                  let proportionalShare := share * paidRatio in
                  alter (λ b, b + (proportionalShare - paid)) personId balances)
               balances shares in
    map_fold (λ payerId amountPaid balances,
                if bool_decide (is_Some (shares !! payerId)) then balances
                else alter (λ b, b - amountPaid) payerId balances)
             balances contributions.

Definition calculateBalances (bills : list Bill) (members : list Person)
  : list BalanceLine :=
  let balances :=
    foldl (λ balances member, <[person_id member := 0]> balances) ∅ members in
  let paidBills := filter (λ bill, isPaidOrPartial bill = true) bills in
  let balances :=
    foldl (λ balances bill, addBillToBalances members bill balances)
          balances paidBills in
  map (λ member,
         {| personId := person_id member;
            personName := person_name member;
            owes := Num.round2 <$> balances !! person_id member |})
      members.

(** ** Settlement resolver (settlements.ts) *)

(** [billDebts]: debtor id, then creditor id, then the breakdown items. *)
Notation Debts := (gmap string (gmap string (list SettlementBreakdown))).

Definition initDebts (members : list Person) : Debts :=
  foldl (λ billDebts debtor,
           <[person_id debtor :=
               foldl (λ row creditor,
                        if bool_decide (person_id debtor ≠ person_id creditor)
                        then <[person_id creditor := []]> row
                        else row)
                     ∅ members]> billDebts)
        ∅ members.

(** [billDebts[debtor][creditor]]: reading a property of [undefined] throws;
    a missing creditor gives [undefined], on which the callers call [push] or
    [reduce], which throws as well. *)
Definition getDebts (billDebts : Debts) (debtor creditor : string)
  : result (list SettlementBreakdown) :=
  match billDebts !! debtor with
  | None => Throw TypeError
  | Some row =>
      match row !! creditor with
      | None => Throw TypeError
      | Some entries => Ok entries
      end
  end.

(** [billDebts[debtor][creditor].push(entry)]. *)
Definition pushDebt (debtor creditor : string) (entry : SettlementBreakdown)
    (billDebts : Debts) : result Debts :=
  entries ← getDebts billDebts debtor creditor;
  Ok (alter (λ row, <[creditor := entries ++ [entry]]> row) debtor billDebts).

Definition mkBreakdown (bill : Bill) (share paid : Q) : SettlementBreakdown :=
  {| billId := bill_id bill;
     billName := bill_name bill;
     sb_category := category bill;
     sb_dueDate := dueDate bill;
     totalAmount := amount bill;
     theirShare := share;
     creditorPaid := paid |}.

(** The explicit-coverage branch of the body of [paidBills.forEach]. *)
Definition attributeCoverage (bill : Bill) (shares : gmap string Q)
    (allocations : list CoverageAllocation) (billDebts : Debts) : result Debts :=
  forEachM (λ coverage billDebts,
              if 0.01 <? cov_amount coverage then
                pushDebt (coveredId coverage) (payerId coverage)
                  (mkBreakdown bill (Num.get0 shares (coveredId coverage))
                     (cov_amount coverage))
                  billDebts
              else Ok billDebts)
           allocations billDebts.

(** [nets] of the inference branch: share minus effective payment. *)
Definition billNets (bill : Bill) (members : list Person)
    (shares contributions : gmap string Q) : gmap string Q :=
  foldl (λ nets m,
           let share := Num.get0 shares (person_id m) in
           let paid := Num.get0 contributions (person_id m) in
           let creditTaken :=
             match creditEarned bill with
             | Some earned => Num.get0 earned (person_id m)
             | None => 0
             end in
           let effectivePaid := paid - creditTaken in
           <[person_id m := share - effectivePaid]> nets)
        ∅ members.

(** The proportional-inference branch of the body of [paidBills.forEach].
    [nets[m.id]] is read only for members, whose entries were all written, so
    the read is written with [get0]. *)
Definition attributeInferred (bill : Bill) (members : list Person)
    (shares : gmap string Q) (billDebts : Debts) : result Debts :=
  let contributions := getBillContributions bill in
  let totalPaid := Num.sum_values contributions in
  let totalShares := Num.sum_values shares in
  if (totalPaid <? 0.01) || (totalShares <? 0.01) then Ok billDebts
  else
    let isFullyPaid := totalPaid >=? totalShares * 0.99 in
    if negb isFullyPaid then Ok billDebts
    else
      let nets := billNets bill members shares contributions in
      let billDebtors :=
        filter (λ m, (0.01 <? Num.get0 nets (person_id m)) = true) members in
      let billCreditors :=
        filter (λ m, (Num.get0 nets (person_id m) <? -0.01) = true) members in
      let totalOwed :=
        foldl (λ sum c, sum + Qabs (Num.get0 nets (person_id c)))
              0 billCreditors in
      if totalOwed <? 0.01 then Ok billDebts
      else
        forEachM (λ debtor billDebts,
          let debtorOwes := Num.get0 nets (person_id debtor) in
          forEachM (λ creditor billDebts,
            let creditorOwed := Qabs (Num.get0 nets (person_id creditor)) in
            let proportion := creditorOwed / totalOwed in
            let amount := debtorOwes * proportion in
            if 0.01 <? amount then
              pushDebt (person_id debtor) (person_id creditor)
                (mkBreakdown bill (Num.get0 shares (person_id debtor)) amount)
                billDebts
            else Ok billDebts)
          billCreditors billDebts)
        billDebtors billDebts.

(** The body of [paidBills.forEach] in [calculateSettlementsWithBreakdown]. *)
Definition attributeBill (members : list Person) (bill : Bill)
    (billDebts : Debts) : result Debts :=
  let shares := calculateBillShares bill members in
  match coverageAllocations bill with
  | Some (coverage :: rest) =>
      attributeCoverage bill shares (coverage :: rest) billDebts
  | _ => attributeInferred bill members shares billDebts
  end.

(** The debt graph after [paidBills.forEach]. *)
Definition buildDebts (bills : list Bill) (members : list Person)
  : result Debts :=
  forEachM (attributeBill members)
           (filter (λ bill, isPaidOrPartial bill = true) bills)
           (initDebts members).

Definition getForgivenBetween (settlementRecords : option (list SettlementRecord))
    (fromId' toId' : string) : Q :=
  match settlementRecords with
  | None => 0
  | Some records =>
      foldl (λ sum r, sum + rec_amount r) 0
            (filter (λ r, fromId r = fromId' ∧ toId r = toId') records)
  end.

(** [Object.fromEntries(members.map(m => [m.id, m.name]))]: a later entry
    replaces an earlier one with the same key. *)
Definition mkMemberMap (members : list Person) : gmap string string :=
  foldl (λ memberMap m, <[person_id m := person_name m]> memberMap) ∅ members.

(** [`${a}-${b}`]. *)
Definition pairKey (a b : string) : string := a +:+ "-" +:+ b.

Definition totalOf (entries : list SettlementBreakdown) : Q :=
  foldl (λ sum b, sum + creditorPaid b) 0 entries.

Definition nonEmpty {A} (l : list A) : bool :=
  match l with [] => false | _ :: _ => true end.

(** The settlement pushed for a pair whose netting has been computed.
    [memberMap[id]] is read for members only, whose keys are all present; the
    read is written with a default. *)
Definition mkSettlement (memberMap : gmap string string)
    (debtor creditor : string) (netAmount : Q)
    (owed offset : list SettlementBreakdown) (totalOwed totalOffset forgiven' : Q)
  : SettlementWithBreakdown :=
  {| from := default "" (memberMap !! debtor);
     to := default "" (memberMap !! creditor);
     s_amount := Num.round2 netAmount;
     breakdown := owed;
     offsetBreakdown := if nonEmpty offset then Some offset else None;
     grossOwed := Some (Num.round2 totalOwed);
     grossOffset :=
       if nonEmpty offset then Some (Num.round2 totalOffset) else None;
     forgiven :=
       if 0.01 <? forgiven' then Some (Num.round2 forgiven') else None |}.

(** The body of the inner [members.forEach] of the netting loop, on the
    state made of [settlements] and [processed]. *)
Definition settlePair (billDebts : Debts)
    (settlementRecords : option (list SettlementRecord))
    (memberMap : gmap string string) (personA personB : Person)
    (st : list SettlementWithBreakdown * gset string)
  : result (list SettlementWithBreakdown * gset string) :=
  let '(settlements, processed) := st in
  if String.leb (person_id personB) (person_id personA) then Ok st
  else
    let key := pairKey (person_id personA) (person_id personB) in
    if bool_decide (key ∈ processed) then Ok st
    else
      let processed := {[key]} ∪ processed in
      aOwesB ← getDebts billDebts (person_id personA) (person_id personB);
      bOwesA ← getDebts billDebts (person_id personB) (person_id personA);
      let totalAOwesB := totalOf aOwesB in
      let totalBOwesA := totalOf bOwesA in
      let forgivenAToB :=
        getForgivenBetween settlementRecords (person_id personA) (person_id personB) in
      let forgivenBToA :=
        getForgivenBetween settlementRecords (person_id personB) (person_id personA) in
      let netAmount := totalAOwesB - forgivenAToB - (totalBOwesA - forgivenBToA) in
      if 0.01 <? Qabs netAmount then
        if 0 <? netAmount then
          Ok (settlements ++
                [mkSettlement memberMap (person_id personA) (person_id personB)
                   netAmount aOwesB bOwesA totalAOwesB totalBOwesA forgivenAToB],
              processed)
        else
          Ok (settlements ++
                [mkSettlement memberMap (person_id personB) (person_id personA)
                   (Qabs netAmount) bOwesA aOwesB totalBOwesA totalAOwesB
                   forgivenBToA],
              processed)
      else Ok (settlements, processed).

(** The netting loop: [members.forEach(personA => members.forEach(...))]. *)
Definition netDebts (members : list Person) (billDebts : Debts)
    (settlementRecords : option (list SettlementRecord))
  : result (list SettlementWithBreakdown) :=
  let memberMap := mkMemberMap members in
  st ← forEachM (λ personA,
                   forEachM (settlePair billDebts settlementRecords memberMap personA)
                            members)
                members ([], ∅);
  Ok st.1.

Definition calculateSettlementsWithBreakdown (bills : list Bill)
    (members : list Person) (settlementRecords : option (list SettlementRecord))
  : result (list SettlementWithBreakdown) :=
  billDebts ← buildDebts bills members;
  netDebts members billDebts settlementRecords.

Definition calculateSettlements (bills : list Bill) (members : list Person)
    (settlementRecords : option (list SettlementRecord))
  : result (list Settlement) :=
  settlements ← calculateSettlementsWithBreakdown bills members settlementRecords;
  Ok (map (λ s, {| st_from := from s; st_to := to s; st_amount := s_amount s |})
          settlements).

(** ** Closed forms used to state the properties *)

(** What one paid or partially paid bill adds to the balance of the member
    with id [k]: nothing when the bill is skipped, otherwise the proportional
    share (if [k] has one) minus what [k] paid. *)
Definition billDelta (members : list Person) (bill : Bill) (k : string) : Q :=
  let shares := calculateBillShares bill members in
  let contributions := getBillContributions bill in
  let totalPaid := Num.sum_values contributions in
  let totalShares := Num.sum_values shares in
  if (totalPaid <? 0.01) || (totalShares <? 0.01) then 0
  else
    let paidRatio := Qmin (totalPaid / totalShares) 1 in
    match shares !! k with
    | Some share => share * paidRatio - Num.get0 contributions k
    | None => - Num.get0 contributions k
    end.

(** The balance of the member with id [k] before rounding. *)
Definition rawBalance (bills : list Bill) (members : list Person) (k : string) : Q :=
  Num.sum_list
    (map (λ bill, billDelta members bill k)
         (filter (λ bill, isPaidOrPartial bill = true) bills)).

(** The sum of the balances that [calculateBalances] reports. *)
Definition sumOwes (lines : list BalanceLine) : Q :=
  Num.sum_list (map (λ line, default 0 (owes line)) lines).

(** The condition under which the balances are conserved: every bill that
    is taken into account has its share holders and its payers on the roster,
    and no more was paid on it than its shares add up to. *)
Definition settledWithinRoster (bills : list Bill) (members : list Person) : Prop :=
  ∀ bill, bill ∈ bills → isPaidOrPartial bill = true →
    let roster : gset string := list_to_set (map person_id members) in
    dom (calculateBillShares bill members) ⊆ roster
    ∧ dom (getBillContributions bill) ⊆ roster
    ∧ Num.sum_values (getBillContributions bill)
      <= Num.sum_values (calculateBillShares bill members).

(** The contribution extractor as the specification words it: the
    contributions map when it is present and not empty, otherwise the single
    payer (when [paidBy] is set) paying the whole amount, otherwise nothing. *)
Definition specContributions (bill : Bill) : gmap string Q :=
  let fallback :=
    match paidBy bill with
    | Some payer => if truthy (Some payer) then {[payer := amount bill]} else ∅
    | None => ∅
    end in
  match paidContributions bill with
  | Some contributions =>
      if bool_decide (contributions = ∅) then fallback else contributions
  | None => fallback
  end.

(** "Partial" as the specification words it: [0 < totalPaid < amount], both
    comparisons up to the tolerance of 0.01. *)
Definition specPartial (bill : Bill) : Prop :=
  0.01 < getTotalPaid bill ∧ getTotalPaid bill < amount bill - 0.01.

(** The projection that [calculateSettlements] applies to every settlement. *)
Definition simple (s : SettlementWithBreakdown) : Settlement :=
  {| st_from := from s; st_to := to s; st_amount := s_amount s |}.

(** ** The debt graph as a list of attributions *)

(** The breakdown items recorded from debtor [d] to creditor [c], if that
    slot of the graph exists. *)
Definition debtsAt (billDebts : Debts) (d c : string)
  : option (list SettlementBreakdown) :=
  billDebts !! d ≫= λ row, row !! c.

(** An attribution: debtor, creditor and the breakdown item to push. *)
Definition Attribution : Type := string * string * SettlementBreakdown.

Definition pushAll (attributions : list Attribution) (billDebts : Debts)
  : result Debts :=
  forEachM (λ '(d, c, entry), pushDebt d c entry) attributions billDebts.

(** The items attributed from [d] to [c], in order. *)
Definition entriesFor (d c : string) (attributions : list Attribution)
  : list SettlementBreakdown :=
  (filter (λ r : Attribution, r.1.1 = d ∧ r.1.2 = c) attributions).*2.

(** The attributions of a bill with explicit coverage: one per allocation
    above 0.01, from the covered member to the payer. *)
Definition coverageAttributions (bill : Bill) (shares : gmap string Q)
    (allocations : list CoverageAllocation) : list Attribution :=
  flat_map (λ coverage,
              if 0.01 <? cov_amount coverage then
                [(coveredId coverage, payerId coverage,
                  mkBreakdown bill (Num.get0 shares (coveredId coverage))
                              (cov_amount coverage))]
              else [])
           allocations.

(** The net position of the member with id [k] on a bill: share minus
    effective payment, where the effective payment is the contribution minus
    the credit earned. *)
Definition netPosition (bill : Bill) (members : list Person) (k : string) : Q :=
  Num.get0 (calculateBillShares bill members) k
  - (Num.get0 (getBillContributions bill) k
     - match creditEarned bill with
       | Some earned => Num.get0 earned k
       | None => 0
       end).

(** The total overpayment on a bill: the sum of [|net|] over the members
    whose net position is below -0.01. *)
Definition totalOverpaid (bill : Bill) (members : list Person) : Q :=
  foldl (λ sum c, sum + Qabs (netPosition bill members (person_id c))) 0
        (filter (λ m, (netPosition bill members (person_id m) <? -0.01) = true)
                members).

(** The conditions under which debts are inferred for a bill without
    coverage. *)
Definition inferenceApplies (bill : Bill) (members : list Person) : bool :=
  let totalPaid := Num.sum_values (getBillContributions bill) in
  let totalShares := Num.sum_values (calculateBillShares bill members) in
  negb ((totalPaid <? 0.01) || (totalShares <? 0.01))
  && (totalPaid >=? totalShares * 0.99)
  && negb (totalOverpaid bill members <? 0.01).

(** What debtor [d] is inferred to owe creditor [c] on a bill. *)
Definition inferredAmount (bill : Bill) (members : list Person) (d c : string) : Q :=
  netPosition bill members d
  * (Qabs (netPosition bill members c) / totalOverpaid bill members).

(** The attributions of a bill without coverage. *)
Definition inferredAttributions (bill : Bill) (members : list Person)
  : list Attribution :=
  if inferenceApplies bill members then
    flat_map (λ debtor,
      flat_map (λ creditor,
        if 0.01 <? inferredAmount bill members (person_id debtor) (person_id creditor)
        then [(person_id debtor, person_id creditor,
               mkBreakdown bill
                 (Num.get0 (calculateBillShares bill members) (person_id debtor))
                 (inferredAmount bill members (person_id debtor) (person_id creditor)))]
        else [])
        (filter (λ m, (netPosition bill members (person_id m) <? -0.01) = true)
                members))
      (filter (λ m, (0.01 <? netPosition bill members (person_id m)) = true)
              members)
  else [].

Definition billAttributions (members : list Person) (bill : Bill)
  : list Attribution :=
  match coverageAllocations bill with
  | Some (coverage :: rest) =>
      coverageAttributions bill (calculateBillShares bill members)
                           (coverage :: rest)
  | _ => inferredAttributions bill members
  end.

(** Every slot between two distinct roster members exists. *)
Definition wired (members : list Person) (billDebts : Debts) : Prop :=
  ∀ a b, a ∈ map person_id members → b ∈ map person_id members → a ≠ b →
         is_Some (debtsAt billDebts a b).

(** Every attribution is between two distinct roster members. *)
Definition withinRoster (members : list Person)
    (attributions : list Attribution) : Prop :=
  ∀ r : Attribution, r ∈ attributions →
    r.1.1 ∈ map person_id members ∧ r.1.2 ∈ map person_id members
    ∧ r.1.1 ≠ r.1.2.

(** ** The netting loop as a list of pairs *)

(** The settlements (none or one) that the netting step gives for the pair
    [(a, b)], from the items recorded in each direction. *)
Definition settleBetween (memberMap : gmap string string)
    (settlementRecords : option (list SettlementRecord))
    (a b : string) (aOwesB bOwesA : list SettlementBreakdown)
  : list SettlementWithBreakdown :=
  let forgivenAToB := getForgivenBetween settlementRecords a b in
  let forgivenBToA := getForgivenBetween settlementRecords b a in
  let netAmount :=
    totalOf aOwesB - forgivenAToB - (totalOf bOwesA - forgivenBToA) in
  if 0.01 <? Qabs netAmount then
    if 0 <? netAmount then
      [mkSettlement memberMap a b netAmount aOwesB bOwesA
                    (totalOf aOwesB) (totalOf bOwesA) forgivenAToB]
    else
      [mkSettlement memberMap b a (Qabs netAmount) bOwesA aOwesB
                    (totalOf bOwesA) (totalOf aOwesB) forgivenBToA]
  else [].

Definition pairSettlements (members : list Person) (billDebts : Debts)
    (settlementRecords : option (list SettlementRecord))
    (pair : Person * Person) : list SettlementWithBreakdown :=
  match debtsAt billDebts (person_id pair.1) (person_id pair.2),
        debtsAt billDebts (person_id pair.2) (person_id pair.1) with
  | Some aOwesB, Some bOwesA =>
      settleBetween (mkMemberMap members) settlementRecords
                    (person_id pair.1) (person_id pair.2) aOwesB bOwesA
  | _, _ => []
  end.

(** The pairs that the netting loop does not skip, in the order in which it
    meets them, starting from the set [processed] of keys. *)
Fixpoint scanPairs (pairs : list (Person * Person)) (processed : gset string)
  : list (Person * Person) :=
  match pairs with
  | [] => []
  | (a, b) :: rest =>
      if String.leb (person_id b) (person_id a) then scanPairs rest processed
      else if bool_decide (pairKey (person_id a) (person_id b) ∈ processed)
           then scanPairs rest processed
           else (a, b) :: scanPairs rest
                            ({[pairKey (person_id a) (person_id b)]} ∪ processed)
  end.

(** The pairs in the order of the two nested loops over the roster. *)
Definition allPairs (members : list Person) : list (Person * Person) :=
  flat_map (λ personA, map (pair personA) members) members.

Definition nettedPairs (members : list Person) : list (Person * Person) :=
  scanPairs (allPairs members) ∅.

(** The snapshot's records with one more record appended. *)
Definition addRecord (settlementRecords : option (list SettlementRecord))
    (r : SettlementRecord) : option (list SettlementRecord) :=
  Some (default [] settlementRecords ++ [r]).

(** No two pairs of roster ids share a key of the [processed] set. *)
Definition keysDistinct (members : list Person) : Prop :=
  ∀ a b a' b',
    a ∈ map person_id members → b ∈ map person_id members →
    a' ∈ map person_id members → b' ∈ map person_id members →
    pairKey a b = pairKey a' b' → a = a' ∧ b = b'.

(** The pairs [(a, b)] of the roster with [a.id < b.id]. *)
Definition orderedPairs (members : list Person) : list (Person * Person) :=
  filter (λ pair, String.leb (person_id pair.2) (person_id pair.1) = false)
         (allPairs members).

(** How many members of the roster have the id [k] (one, when the ids are
    distinct and [k] is on the roster). *)
Definition occurrences (k : string) (members : list Person) : nat :=
  length (filter (λ m, person_id m = k) members).

(** ** Concrete rosters and bills used in examples *)

Definition member (id name : string) : Person :=
  {| person_id := id; person_name := name; mortgageShare := 0 |}.

(** An unpaid bill split evenly, from which the examples are derived. *)
Definition evenBill (id : string) (total : Q) : Bill :=
  {| bill_id := id; bill_name := id; amount := total; dueDate := "2024-01-15";
     category := CatOther; splitType := Even; paidBy := None;
     paidContributions := None; creditEarned := None;
     coverageAllocations := None; isPaid := false; customSplits := None;
     items := None |}.

(** [bill] marked as paid in full by the single payer [payer]. *)
Definition paidInFullBy (payer : string) (bill : Bill) : Bill :=
  {| bill_id := bill_id bill; bill_name := bill_name bill; amount := amount bill;
     dueDate := dueDate bill; category := category bill;
     splitType := splitType bill; paidBy := Some payer;
     paidContributions := paidContributions bill;
     creditEarned := creditEarned bill;
     coverageAllocations := coverageAllocations bill; isPaid := true;
     customSplits := customSplits bill; items := items bill |}.

(** [bill] with the multi-payer map [contributions] recorded on it. *)
Definition withContributions (contributions : gmap string Q) (paid : bool)
    (bill : Bill) : Bill :=
  {| bill_id := bill_id bill; bill_name := bill_name bill; amount := amount bill;
     dueDate := dueDate bill; category := category bill;
     splitType := splitType bill; paidBy := paidBy bill;
     paidContributions := Some contributions;
     creditEarned := creditEarned bill;
     coverageAllocations := coverageAllocations bill; isPaid := paid;
     customSplits := customSplits bill; items := items bill |}.

(** [bill] with the explicit coverage list [allocations]. *)
Definition withCoverage (allocations : list CoverageAllocation) (bill : Bill)
  : Bill :=
  {| bill_id := bill_id bill; bill_name := bill_name bill; amount := amount bill;
     dueDate := dueDate bill; category := category bill;
     splitType := splitType bill; paidBy := paidBy bill;
     paidContributions := paidContributions bill;
     creditEarned := creditEarned bill;
     coverageAllocations := Some allocations; isPaid := isPaid bill;
     customSplits := customSplits bill; items := items bill |}.

Definition rosterAB : list Person := [member "a" "A"; member "b" "B"].

(** The monthly mortgage, paid in full by Drew. *)
Definition mortgageBill : Bill :=
  {| bill_id := "mortgage"; bill_name := "Mortgage"; amount := MORTGAGE_TOTAL;
     dueDate := "2024-01-01"; category := CatMortgage; splitType := Mortgage;
     paidBy := Some "drew"; paidContributions := None; creditEarned := None;
     coverageAllocations := None; isPaid := true; customSplits := None;
     items := None |}.

(** A bill of 100 on which 99.995 has been contributed, not marked paid. *)
Definition almostPaidBill : Bill :=
  withContributions {["a" := 99.995]} false (evenBill "x" 100).

(** A bill with a contributions map that is present but empty, and a
    single payer. *)
Definition emptyContributionsBill : Bill :=
  withContributions ∅ true (paidInFullBy "a" (evenBill "x" 100)).

(** Bills whose coverage allocation names someone who is not on the roster,
    as the covered member and as the payer. *)
Definition ghostCoveredBill : Bill :=
  withCoverage [ {| payerId := "a"; coveredId := "ghost"; cov_amount := 30 |} ]
               (paidInFullBy "a" (evenBill "x" 60)).

Definition ghostPayerBill : Bill :=
  withCoverage [ {| payerId := "ghost"; coveredId := "b"; cov_amount := 30 |} ]
               (paidInFullBy "a" (evenBill "x" 60)).

(** The coverage scenario: a bill of 60 split evenly between A and B, paid
    in full by A, who explicitly covers B's 30. *)
Definition coverageScenarioBill : Bill :=
  withCoverage [ {| payerId := "a"; coveredId := "b"; cov_amount := 30 |} ]
               (withContributions {["a" := 60]} true (evenBill "x" 60)).

(** The partial-payment scenario: a bill of 100 split evenly between A and
    B, on which A has paid 40; no coverage. *)
Definition partialScenarioBill : Bill :=
  withContributions {["a" := 40]} false (evenBill "x" 100).

(** A roster whose ids, derived from the names as the application does
    (lower case, spaces to hyphens), give the same key to two pairs:
    ["al" - "bo-cy"] and ["al-bo" - "cy"]. *)
Definition collidingRoster : list Person :=
  [ member "al" "Al"; member "bo-cy" "Bo Cy"; member "al-bo" "Al Bo";
    member "cy" "Cy" ].

(** The same roster without "Bo Cy". *)
Definition plainRoster : list Person :=
  [ member "al" "Al"; member "al-bo" "Al Bo"; member "cy" "Cy" ].

(** A bill of 50 paid by Cy, who covers 50 for Al Bo. *)
Definition alBoOwesCyBill : Bill :=
  withCoverage [ {| payerId := "cy"; coveredId := "al-bo"; cov_amount := 50 |} ]
               (paidInFullBy "cy" (evenBill "x" 50)).


Definition recordAB (id : string) (value : Q) (type : RecordType)
  : SettlementRecord :=
  {| rec_id := id; fromId := "a"; toId := "b"; rec_amount := value;
     rec_type := type |}.


(** The netting scenario: A owes B 50 on bill x and B owes A 20 on bill y,
    both by explicit coverage. *)
Definition coveredBy (id payer covered : string) (value : Q) : Bill :=
  withCoverage [ {| payerId := payer; coveredId := covered; cov_amount := value |} ]
               (paidInFullBy payer (evenBill id value)).

Definition nettingScenarioBills : list Bill :=
  [coveredBy "x" "b" "a" 50; coveredBy "y" "a" "b" 20].

(** A bill of 100 split by custom amounts between A and someone who is not
    on the roster, paid in full by A. *)
Definition outsiderShareBill : Bill :=
  {| bill_id := "x"; bill_name := "x"; amount := 100; dueDate := "2024-01-15";
     category := CatOther; splitType := Custom; paidBy := Some "a";
     paidContributions := None; creditEarned := None;
     coverageAllocations := None; isPaid := true;
     customSplits := Some {["a" := 50; "ghost" := 50]}; items := None |}.

Definition rosterOfSeven : list Person :=
  [ member "a" "A"; member "b" "B"; member "c" "C"; member "d" "D";
    member "e" "E"; member "f" "F"; member "g" "G" ].

(** A bill of 200 split 60 % / 40 % between A and B. *)
Definition percentageBill : Bill :=
  {| bill_id := "x"; bill_name := "x"; amount := 200; dueDate := "2024-01-15";
     category := CatUtility; splitType := Percentage; paidBy := None;
     paidContributions := None; creditEarned := None;
     coverageAllocations := None; isPaid := false;
     customSplits := Some {["a" := 60; "b" := 40]}; items := None |}.

(** A percentage bill whose percentages were never filled in, paid by A. *)
Definition percentageBillWithoutSplits : Bill :=
  {| bill_id := "x"; bill_name := "x"; amount := 200; dueDate := "2024-01-15";
     category := CatUtility; splitType := Percentage; paidBy := Some "a";
     paidContributions := None; creditEarned := None;
     coverageAllocations := None; isPaid := true;
     customSplits := None; items := None |}.

(** Three unpaid even bills over [rosterAB], due on dates of different
    lengths, and one paid bill. *)
Definition dueOn (date : string) (bill : Bill) : Bill :=
  {| bill_id := bill_id bill; bill_name := bill_name bill;
     amount := amount bill; dueDate := date; category := category bill;
     splitType := splitType bill; paidBy := paidBy bill;
     paidContributions := paidContributions bill;
     creditEarned := creditEarned bill;
     coverageAllocations := coverageAllocations bill; isPaid := isPaid bill;
     customSplits := customSplits bill; items := items bill |}.

Definition unpaidScenarioBills : list Bill :=
  [ dueOn "2024-03-01" (evenBill "water" 60);
    dueOn "2024-2-1" (evenBill "power" 40);
    dueOn "2024-03-15" (paidInFullBy "b" (evenBill "rent" 100));
    dueOn "2024-1" (evenBill "net" 20) ].

(** [dueDate.split('-').map(Number)] for the dates of the scenario. *)
Definition scenarioYearMonth (date : string) : option (Z * Z) :=
  if bool_decide (date = "2024-03-01") then Some (2024, 3)%Z
  else if bool_decide (date = "2024-03-15") then Some (2024, 3)%Z
  else if bool_decide (date = "2024-2-1") then Some (2024, 2)%Z
  else if bool_decide (date = "2024-1") then Some (2024, 1)%Z
  else None.

(** The coverage scenario with one more allocation, for someone who is no
    longer on the roster. *)
Definition mixedCoverageBill : Bill :=
  withCoverage [ {| payerId := "a"; coveredId := "b"; cov_amount := 30 |};
                 {| payerId := "a"; coveredId := "ghost"; cov_amount := 10 |} ]
               (withContributions {["a" := 60]} true (evenBill "x" 60)).

(** A bill of 4 of which D owes 0.03 and E owes 3.97, paid in full by four
    others who paid 1 each; no coverage. *)
Definition smallPortionBill : Bill :=
  {| bill_id := "x"; bill_name := "x"; amount := 4; dueDate := "2024-01-15";
     category := CatOther; splitType := Custom; paidBy := None;
     paidContributions :=
       Some {["c1" := 1; "c2" := 1; "c3" := 1; "c4" := 1]};
     creditEarned := None; coverageAllocations := None; isPaid := true;
     customSplits := Some {["d" := 0.03; "e" := 3.97]}; items := None |}.

Definition rosterOfSix : list Person :=
  [ member "c1" "C1"; member "c2" "C2"; member "c3" "C3"; member "c4" "C4";
    member "d" "D"; member "e" "E" ].

(** ** The rest of bill-utils.ts *)

(** [Math.max(0, bill.amount - getTotalPaid(bill))]. *)
Definition getRemainingAmount (bill : Bill) : Q :=
  Qmax 0 (amount bill - getTotalPaid bill).

Definition calculateNetPositions (bill : Bill) (members : list Person)
  : gmap string Q :=
  let shares := calculateBillShares bill members in
  let contributions := getBillContributions bill in
  foldl (λ nets m,
           let share := Num.get0 shares (person_id m) in
           let paid := Num.get0 contributions (person_id m) in
           <[person_id m := share - paid]> nets)
        ∅ members.

(** An element of the list returned by [getUnpaidBillsForMember]. *)
Record UnpaidBill := {
  ub_bill : Bill;
  ub_share : Q;
  ub_paid : Q;
  ub_remaining : Q;
}.

(** An element of [billBreakdown] in [MemberMonthlyBill]. *)
Record MonthlyLine := {
  ml_billId : string;
  ml_billName : string;
  ml_share : Q;
  ml_paid : Q;
  ml_remaining : Q;
  ml_dueDate : string;
  ml_isPaid : bool;
}.

Record MemberMonthlyBill := {
  memberId : string;
  memberName : string;
  totalShare : Q;
  amountPaid : Q;
  remaining : Q;
  billBreakdown : list MonthlyLine;
}.

(** [l.sort(compare)], where [le a b] stands for [compare(a, b) <= 0]: the
    sort is stable, so for a comparator that is an order its result is the
    one of this insertion sort, which puts every element before the first
    element to its right that is not smaller. *)
Fixpoint insertSorted {A} (le : A → A → bool) (x : A) (l : list A) : list A :=
  match l with
  | [] => [x]
  | y :: l' => if le x y then x :: y :: l' else y :: insertSorted le x l'
  end.

Definition sortWith {A} (le : A → A → bool) (l : list A) : list A :=
  foldr (insertSorted le) [] l.

Section DueDates.

(** [a.localeCompare(b)] on due dates, as a sign. *)
Variable localeCompare : string → string → Z.

(** The year and the month that [dueDate.split('-').map(Number)] gives,
    [None] when one of them is not a whole number. *)
Variable dueYearMonth : string → option (Z * Z).

Definition getUnpaidBillsForMember (bills : list Bill) (members : list Person)
    (memberId' : string) : list UnpaidBill :=
  let result :=
    foldl (λ result bill,
             let shares := calculateBillShares bill members in
             let contributions := getBillContributions bill in
             let share := Num.get0 shares memberId' in
             let paid := Num.get0 contributions memberId' in
             let remaining := Qmax 0 (share - paid) in
             if 0.01 <? remaining then
               result ++ [ {| ub_bill := bill; ub_share := share;
                              ub_paid := paid; ub_remaining := remaining |} ]
             else result)
          [] (filter (λ bill, isPaid bill = false) bills) in
  sortWith (λ a b, (localeCompare (dueDate (ub_bill a)) (dueDate (ub_bill b))
                    <=? 0)%Z)
           result.

(** The body of [monthBills.forEach] in [calculateMonthlyMemberBills], on
    the state made of [totalShare], [amountPaid] and [billBreakdown]. *)
Definition addMonthBill (members : list Person) (member' : Person) (bill : Bill)
    (st : Q * Q * list MonthlyLine) : Q * Q * list MonthlyLine :=
  let '(totalShare, amountPaid, billBreakdown) := st in
  let shares := calculateBillShares bill members in
  let contributions := getBillContributions bill in
  let memberShare := Num.get0 shares (person_id member') in
  let memberPaid := Num.get0 contributions (person_id member') in
  if 0.01 <? memberShare then
    (totalShare + memberShare, amountPaid + memberPaid,
     billBreakdown
       ++ [ {| ml_billId := bill_id bill;
               ml_billName := bill_name bill;
               ml_share := Num.round2 memberShare;
               ml_paid := Num.round2 memberPaid;
               ml_remaining := Num.round2 (Qmax 0 (memberShare - memberPaid));
               ml_dueDate := dueDate bill;
               ml_isPaid := isPaid bill |} ])
  else st.

(** [month] is 0 to 11 and [year] a whole number. *)
Definition calculateMonthlyMemberBills (bills : list Bill)
    (members : list Person) (month year : Z) : list MemberMonthlyBill :=
  let monthBills :=
    filter (λ bill,
              match dueYearMonth (dueDate bill) with
              | Some (billYear, billMonth) =>
                  (billMonth - 1 =? month)%Z && (billYear =? year)%Z
              | None => false
              end = true)
           bills in
  map (λ member',
         let '(totalShare, amountPaid, billBreakdown) :=
           foldl (λ st bill, addMonthBill members member' bill st)
                 (0, 0, []) monthBills in
         {| memberId := person_id member';
            memberName := person_name member';
            totalShare := Num.round2 totalShare;
            amountPaid := Num.round2 amountPaid;
            remaining := Num.round2 (Qmax 0 (totalShare - amountPaid));
            billBreakdown :=
              sortWith (λ a b, (localeCompare (ml_dueDate a) (ml_dueDate b)
                                <=? 0)%Z)
                       billBreakdown |})
      members.

End DueDates.

(** ** The rest of types.ts *)

Definition getBillPaidAmount (bill : Bill) : Q :=
  match paidContributions bill with
  | None => if isPaid bill then amount bill else 0
  | Some contributions => Num.sum_values contributions
  end.

Definition getBillRemainingAmount (bill : Bill) : Q :=
  amount bill - getBillPaidAmount bill.

(** ** The payment distribution of PayShareDialog.tsx *)

(** An element of [paymentDistribution]. *)
Record PaymentLine := {
  pl_billId : string;
  pl_billName : string;
  pl_share : Q;
  paying : Q;
}.

(** The [for ... of] loop, from the amount [left] that is still to be
    distributed: it stops at the first bill met with at most 0.01 left. *)
Fixpoint distribute (left : Q) (unpaidBills : list UnpaidBill)
  : list PaymentLine :=
  match unpaidBills with
  | [] => []
  | entry :: rest =>
      if 0.01 <? left then
        let payingThisBill := Qmin left (ub_remaining entry) in
        {| pl_billId := bill_id (ub_bill entry);
           pl_billName := bill_name (ub_bill entry);
           pl_share := ub_remaining entry;
           paying := Num.round2 payingThisBill |}
        :: distribute (left - payingThisBill) rest
      else []
  end.

(** [amount] is the number read from the input field, [0] when it does not
    parse. *)
Definition paymentDistribution (amount' totalRemaining : Q)
    (unpaidBills : list UnpaidBill) : list PaymentLine :=
  let isValid := (0 <? amount') && negb (totalRemaining + 0.01 <? amount') in
  if isValid then distribute amount' unpaidBills else [].

(** ** Conditions used to state further properties *)

(** Every coverage allocation above 0.01 of a bill that is taken into
    account is between two distinct members of the roster. *)
Definition coverageWithinRoster (bills : list Bill) (members : list Person)
  : Prop :=
  ∀ bill coverage,
    bill ∈ bills → isPaidOrPartial bill = true →
    coverage ∈ default [] (coverageAllocations bill) →
    0.01 < cov_amount coverage →
    coveredId coverage ∈ map person_id members
    ∧ payerId coverage ∈ map person_id members
    ∧ coveredId coverage ≠ payerId coverage.

(** ** Closed forms for the unpaid bills and the monthly summary *)

(** [shares[memberId] || 0] and [contributions[memberId] || 0] for a bill. *)
Definition shareOf (members : list Person) (memberId' : string) (bill : Bill)
  : Q :=
  Num.get0 (calculateBillShares bill members) memberId'.

Definition paidOf (memberId' : string) (bill : Bill) : Q :=
  Num.get0 (getBillContributions bill) memberId'.

(** The entry of [getUnpaidBillsForMember] for a bill. *)
Definition unpaidEntry (members : list Person) (memberId' : string)
    (bill : Bill) : UnpaidBill :=
  {| ub_bill := bill;
     ub_share := shareOf members memberId' bill;
     ub_paid := paidOf memberId' bill;
     ub_remaining :=
       Qmax 0 (shareOf members memberId' bill - paidOf memberId' bill) |}.

(** The bill is due in the month [month] (0 to 11) of the year [year]. *)
Definition dueIn (dueYearMonth : string → option (Z * Z)) (month year : Z)
    (bill : Bill) : bool :=
  match dueYearMonth (dueDate bill) with
  | Some (billYear, billMonth) =>
      (billMonth - 1 =? month)%Z && (billYear =? year)%Z
  | None => false
  end.

(** The bills of the month in which the member has a share above 0.01. *)
Definition billsCounted (dueYearMonth : string → option (Z * Z))
    (members : list Person) (memberId' : string) (month year : Z)
    (bills : list Bill) : list Bill :=
  filter (λ bill, (0.01 <? shareOf members memberId' bill) = true)
         (filter (λ bill, dueIn dueYearMonth month year bill = true) bills).

(** The line of [billBreakdown] for a bill. *)
Definition monthLine (members : list Person) (memberId' : string)
    (bill : Bill) : MonthlyLine :=
  {| ml_billId := bill_id bill;
     ml_billName := bill_name bill;
     ml_share := Num.round2 (shareOf members memberId' bill);
     ml_paid := Num.round2 (paidOf memberId' bill);
     ml_remaining :=
       Num.round2 (Qmax 0 (shareOf members memberId' bill
                           - paidOf memberId' bill));
     ml_dueDate := dueDate bill;
     ml_isPaid := isPaid bill |}.

(** A comparator that is a total preorder: the case in which the result of
    [sort] is determined. *)
Definition consistentComparator (compare : string → string → Z) : Prop :=
  (∀ a b, (compare a b <= 0)%Z ∨ (compare b a <= 0)%Z)
  ∧ (∀ a b c, (compare a b <= 0)%Z → (compare b c <= 0)%Z →
              (compare a c <= 0)%Z).

(** Comparing strings by their length only, a consistent comparator. *)
Definition compareLength (a b : string) : Z :=
  (Z.of_nat (String.length a) - Z.of_nat (String.length b))%Z.

(** The entry of [calculateMonthlyMemberBills] for a member, with the sums
    of the loop written as sums over the bills counted. *)
Definition monthlySummary (localeCompare : string → string → Z)
    (dueYearMonth : string → option (Z * Z)) (bills : list Bill)
    (members : list Person) (month year : Z) (member' : Person)
  : MemberMonthlyBill :=
  let counted :=
    billsCounted dueYearMonth members (person_id member') month year bills in
  let shares := Num.sum_list (map (shareOf members (person_id member')) counted) in
  let paid := Num.sum_list (map (paidOf (person_id member')) counted) in
  {| memberId := person_id member';
     memberName := person_name member';
     totalShare := Num.round2 shares;
     amountPaid := Num.round2 paid;
     remaining := Num.round2 (Qmax 0 (shares - paid));
     billBreakdown :=
       sortWith (λ a b, (localeCompare (ml_dueDate a) (ml_dueDate b) <=? 0)%Z)
                (map (monthLine members (person_id member')) counted) |}.

(** * Properties *)

(** ** Numbers *)

Lemma ltb_lt (x y : Q) : (x <? y) = true ↔ x < y.
Proof.
  unfold Num.ltb. rewrite Qlt_alt. destruct (x ?= y); split; congruence.
Qed.

Lemma ltb_ge (x y : Q) : (x <? y) = false ↔ y <= x.
Proof.
  rewrite <- not_true_iff_false, ltb_lt. split; [apply Qnot_lt_le | apply Qle_not_lt].
Qed.

Lemma geb_ge (x y : Q) : (x >=? y) = true ↔ y <= x.
Proof. unfold Num.geb. rewrite negb_true_iff. apply ltb_ge. Qed.

#[global] Instance ltb_proper : Proper (Qeq ==> Qeq ==> eq) Num.ltb.
Proof. intros x x' Hx y y' Hy. unfold Num.ltb. by rewrite Hx, Hy. Qed.


Lemma round2_proper (x y : Q) : x == y → Num.round2 x = Num.round2 y.
Proof.
  intros H. unfold Num.round2.
  assert (Qfloor (x * 100 + (1 # 2)) = Qfloor (y * 100 + (1 # 2))) as ->; [|done].
  apply Qfloor_comp. by rewrite H.
Qed.

Lemma round2_eq (x : Q) : Num.round2 x == inject_Z (Qfloor (x * 100 + (1 # 2))) / 100.
Proof. unfold Num.round2. apply Qred_correct. Qed.

(** Rounding to cents moves an amount by at most half a cent. *)
Lemma round2_close (x : Q) : Qabs (Num.round2 x - x) <= 5 # 1000.
Proof.
  rewrite round2_eq.
  pose proof (Qfloor_le (x * 100 + (1 # 2))) as Hlo.
  pose proof (Qlt_floor (x * 100 + (1 # 2))) as Hhi.
  rewrite inject_Z_plus in Hhi.
  set (f := inject_Z (Qfloor (x * 100 + (1 # 2)))) in *.
  change (inject_Z 1) with 1 in Hhi.
  clearbody f.
  apply Qabs_case; intros _; unfold Qdiv; change (/ 100) with (1 # 100); lra.
Qed.


(** ** Maps and sums *)

Lemma sum_list_nil : Num.sum_list [] = 0.
Proof. reflexivity. Qed.

Lemma sum_list_cons (x : Q) (l : list Q) :
  Num.sum_list (x :: l) = x + Num.sum_list l.
Proof. reflexivity. Qed.

Lemma sum_list_app (l1 l2 : list Q) :
  Num.sum_list (l1 ++ l2) == Num.sum_list l1 + Num.sum_list l2.
Proof.
  induction l1 as [|x l1 IH].
  - change ([] ++ l2) with l2. rewrite sum_list_nil. lra.
  - change ((x :: l1) ++ l2) with (x :: (l1 ++ l2)).
    rewrite !sum_list_cons, IH. lra.
Qed.

Lemma foldl_plus_sum {A} (f : A → Q) (l : list A) (a : Q) :
  foldl (λ sum x, sum + f x) a l == a + Num.sum_list (map f l).
Proof.
  revert a. induction l as [|x l IH]; intros a.
  - cbn [foldl map]. rewrite sum_list_nil. lra.
  - cbn [foldl map]. rewrite IH, sum_list_cons. lra.
Qed.

(** A fold that touches, for each entry of [m], only the key of that entry. *)
Lemma map_fold_pointwise {A} (f : string → A → gmap string Q → gmap string Q)
    (u : string → A → Q → Q) (m : gmap string A) (bal : gmap string Q) :
  (∀ i x b k, f i x b !! k = if decide (i = k) then u i x <$> b !! k else b !! k) →
  ∀ k, map_fold f bal m !! k
       = match m !! k with Some x => u k x <$> bal !! k | None => bal !! k end.
Proof.
  intros Hf.
  apply (map_fold_weak_ind
           (λ r m, ∀ k, r !! k = match m !! k with
                                 | Some x => u k x <$> bal !! k
                                 | None => bal !! k
                                 end)).
  - intros k. by rewrite lookup_empty.
  - intros i x m' r Hi IH k. rewrite Hf, lookup_insert.
    destruct (decide (i = k)) as [->|Hne].
    + by rewrite IH, Hi.
    + apply IH.
Qed.

Lemma foldl_insert_lookup {A} (key : Person → string) (val : Person → A)
    (members : list Person) (m0 : gmap string A) (p : Person) :
  p ∈ members →
  (∀ q, q ∈ members → key q = key p → val q = val p) →
  foldl (λ m q, <[key q := val q]> m) m0 members !! key p = Some (val p).
Proof.
  revert m0. induction members as [|q members IH] using rev_ind; intros m0 Hin Hval.
  - by apply elem_of_nil in Hin.
  - rewrite foldl_app. simpl.
    destruct (decide (key q = key p)) as [Heq|Hne].
    + rewrite Heq, lookup_insert_eq. f_equal. apply Hval; [|done].
      apply elem_of_app. right. by apply list_elem_of_singleton.
    + rewrite lookup_insert_ne by done.
      apply IH.
      * apply elem_of_app in Hin as [Hin|Hin]; [done|].
        apply list_elem_of_singleton in Hin. by subst.
      * intros q' Hq'. apply Hval. apply elem_of_app. by left.
Qed.

Lemma foldl_insert_lookup_None {A} (key : Person → string) (val : Person → A)
    (members : list Person) (m0 : gmap string A) (k : string) :
  (∀ q, q ∈ members → key q ≠ k) →
  foldl (λ m q, <[key q := val q]> m) m0 members !! k = m0 !! k.
Proof.
  revert m0. induction members as [|q members IH]; intros m0 Hk; [done|].
  simpl. rewrite IH.
  - apply lookup_insert_ne, Hk. by left.
  - intros q' Hq'. apply Hk. by right.
Qed.

(** ** Balance aggregator *)

Lemma addBillToBalances_lookup (members : list Person) (bill : Bill)
    (balances : gmap string Q) (k : string) :
  match balances !! k with
  | Some x => ∃ y, addBillToBalances members bill balances !! k = Some y
                   ∧ y == x + billDelta members bill k
  | None => addBillToBalances members bill balances !! k = None
  end.
Proof.
  unfold addBillToBalances, billDelta.
  set (shares := calculateBillShares bill members).
  set (contributions := getBillContributions bill).
  destruct ((Num.sum_values contributions <? 0.01)
            || (Num.sum_values shares <? 0.01)).
  { destruct (balances !! k) as [x|]; [|done]. exists x. split; [done|lra]. }
  set (paidRatio := Qmin (Num.sum_values contributions / Num.sum_values shares) 1).
  rewrite (map_fold_pointwise _
             (λ payerId amountPaid b,
                if bool_decide (is_Some (shares !! payerId)) then b
                else b - amountPaid)).
  2:{ intros i x b k'. case_bool_decide.
      - case_decide; [|done]. by destruct (b !! k').
      - rewrite lookup_alter. case_decide; by subst. }
  rewrite (map_fold_pointwise _
             (λ personId share b,
                b + (share * paidRatio - Num.get0 contributions personId))).
  2:{ intros i x b k'. rewrite lookup_alter. case_decide; by subst. }
  unfold Num.get0.
  destruct (balances !! k) as [x|].
  - destruct (shares !! k) as [share|] eqn:Hs, (contributions !! k) as [paid|] eqn:Hc;
      simpl; try case_bool_decide; simpl; try (exfalso; naive_solver).
      all: eexists; (split; [done|lra]).
  - by destruct (shares !! k), (contributions !! k).
Qed.

Lemma balances_after_bills (members : list Person) (paidBills : list Bill)
    (balances : gmap string Q) (k : string) (x : Q) :
  balances !! k = Some x →
  ∃ y, foldl (λ balances bill, addBillToBalances members bill balances)
             balances paidBills !! k = Some y
       ∧ y == x + Num.sum_list (map (λ bill, billDelta members bill k) paidBills).
Proof.
  revert balances x. induction paidBills as [|bill paidBills IH]; intros balances x Hx.
  - exists x. split; [done|]. cbn [map]. rewrite sum_list_nil. lra.
  - cbn [foldl map]. pose proof (addBillToBalances_lookup members bill balances k) as H.
    rewrite Hx in H. destruct H as (y & Hy & Hyx).
    destruct (IH _ _ Hy) as (z & Hz & Hzy).
    exists z. split; [done|]. rewrite sum_list_cons. lra.
Qed.

(** The balance aggregator in closed form: every member is reported with the
    rounded sum of what each paid or partially paid bill adds for them. *)
Lemma calculateBalances_closed (bills : list Bill) (members : list Person) :
  calculateBalances bills members
  = map (λ member,
           {| personId := person_id member;
              personName := person_name member;
              owes := Some (Num.round2 (rawBalance bills members (person_id member))) |})
        members.
Proof.
  unfold calculateBalances. apply map_ext_in. intros member Hin.
  apply list_elem_of_In in Hin. f_equal.
  pose proof (foldl_insert_lookup person_id (λ _, 0) members ∅ member Hin) as H0.
  destruct (balances_after_bills members
              (filter (λ bill, isPaidOrPartial bill = true) bills) _
              (person_id member) 0 (H0 ltac:(done))) as (y & -> & Hy).
  simpl. f_equal. apply round2_proper. unfold rawBalance. lra.
Qed.

(** ** Conservation of balances *)

Lemma sum_values_empty : Num.sum_values ∅ = 0.
Proof. apply map_fold_empty. Qed.

Lemma sum_values_insert (m : gmap string Q) (i : string) (x : Q) :
  m !! i = None → Num.sum_values (<[i:=x]> m) == Num.sum_values m + x.
Proof.
  intros Hi. unfold Num.sum_values.
  apply (map_fold_insert Qeq (λ _ amt sum, sum + amt)); [|intros; lra|done].
  intros j z a b Hab. by rewrite Hab.
Qed.

Lemma sum_values_singleton (i : string) (x : Q) :
  Num.sum_values {[i := x]} == x.
Proof.
  rewrite <- insert_empty, sum_values_insert, sum_values_empty by apply lookup_empty.
  lra.
Qed.

Lemma sum_list_ext {A} (f g : A → Q) (l : list A) :
  (∀ x, x ∈ l → f x == g x) → Num.sum_list (map f l) == Num.sum_list (map g l).
Proof.
  induction l as [|x l IH]; intros H; cbn [map]; [reflexivity|].
  rewrite !sum_list_cons, IH, (H x) by (try left; intros; apply H; by right).
  reflexivity.
Qed.

Lemma sum_list_plus {A} (f g : A → Q) (l : list A) :
  Num.sum_list (map (λ x, f x + g x) l)
  == Num.sum_list (map f l) + Num.sum_list (map g l).
Proof.
  induction l as [|x l IH]; cbn [map];
    rewrite ?sum_list_nil, ?sum_list_cons, ?IH; lra.
Qed.

Lemma sum_list_scale_minus {A} (a : Q) (f g : A → Q) (l : list A) :
  Num.sum_list (map (λ x, a * f x - g x) l)
  == a * Num.sum_list (map f l) - Num.sum_list (map g l).
Proof.
  induction l as [|x l IH]; cbn [map];
    rewrite ?sum_list_nil, ?sum_list_cons, ?IH; lra.
Qed.

Lemma sum_list_zero {A} (f : A → Q) (l : list A) :
  (∀ x, x ∈ l → f x == 0) → Num.sum_list (map f l) == 0.
Proof.
  intros H. rewrite (sum_list_ext f (λ _, 0) l H). clear H.
  induction l as [|x l IH]; cbn [map]; rewrite ?sum_list_nil, ?sum_list_cons, ?IH; lra.
Qed.

(** Changing a function at one key of a duplicate-free list changes the sum
    by the change at that key. *)
Lemma sum_list_update (f f' : string → Q) (ks : list string) (i : string) (x : Q) :
  NoDup ks → i ∈ ks → f' i == f i + x → (∀ k, k ≠ i → f' k == f k) →
  Num.sum_list (map f' ks) == Num.sum_list (map f ks) + x.
Proof.
  intros Hnd Hi Hfi Hne. induction Hnd as [|k ks Hk Hnd IH]; [by apply elem_of_nil in Hi|].
  cbn [map]. rewrite !sum_list_cons.
  apply elem_of_cons in Hi as [<-|Hi].
  - rewrite Hfi, (sum_list_ext f' f ks); [lra|].
    intros k Hin. apply Hne. by intros ->.
  - rewrite IH, Hne by (try done; by intros ->). lra.
Qed.

(** Reading a map at every key of a duplicate-free list that covers its
    domain adds up to the sum of its values. *)
Lemma sum_get0_keys (m : gmap string Q) (ks : list string) :
  NoDup ks → (∀ k, is_Some (m !! k) → k ∈ ks) →
  Num.sum_list (map (Num.get0 m) ks) == Num.sum_values m.
Proof.
  intros Hnd. induction m as [|i x m Hi IH] using map_ind; intros Hdom.
  - rewrite sum_values_empty. apply sum_list_zero. intros k _.
    unfold Num.get0. by rewrite lookup_empty.
  - rewrite sum_values_insert by done. rewrite <- IH.
    + apply sum_list_update with (i := i); [done| | |].
      * apply Hdom. rewrite lookup_insert_eq. by eexists.
      * unfold Num.get0. rewrite lookup_insert_eq, Hi. simpl. lra.
      * intros k Hne. unfold Num.get0. by rewrite lookup_insert_ne.
    + intros k [y Hy]. apply Hdom. destruct (decide (i = k)) as [->|Hne].
      * rewrite lookup_insert_eq. by eexists.
      * rewrite lookup_insert_ne by done. by eexists.
Qed.

Lemma billDelta_linear (members : list Person) (bill : Bill) (k : string) :
  let shares := calculateBillShares bill members in
  let contributions := getBillContributions bill in
  let totalPaid := Num.sum_values contributions in
  let totalShares := Num.sum_values shares in
  billDelta members bill k
  == if (totalPaid <? 0.01) || (totalShares <? 0.01) then 0
     else Qmin (totalPaid / totalShares) 1 * Num.get0 shares k
          - Num.get0 contributions k.
Proof.
  intros shares contributions totalPaid totalShares. unfold billDelta.
  fold shares contributions totalPaid totalShares.
  destruct ((totalPaid <? 0.01) || (totalShares <? 0.01)); [reflexivity|].
  unfold Num.get0. destruct (shares !! k); simpl; lra.
Qed.

(** A bill whose payments do not exceed its shares, and whose share holders
    and payers are all on the roster, moves money between members only. *)
Lemma billDelta_sum_zero (members : list Person) (bill : Bill) :
  let shares := calculateBillShares bill members in
  let contributions := getBillContributions bill in
  let roster : gset string := list_to_set (map person_id members) in
  NoDup (map person_id members) →
  dom shares ⊆ roster →
  dom contributions ⊆ roster →
  Num.sum_values contributions <= Num.sum_values shares →
  Num.sum_list (map (billDelta members bill) (map person_id members)) == 0.
Proof.
  intros shares contributions roster Hnd Hs Hc Hle.
  assert (∀ m : gmap string Q, dom m ⊆ roster →
            ∀ k, is_Some (m !! k) → k ∈ map person_id members) as Hdom.
  { intros m Hm k Hk. apply elem_of_dom in Hk. apply Hm in Hk.
    by apply elem_of_list_to_set in Hk. }
  pose proof (sum_get0_keys shares _ Hnd (Hdom _ Hs)) as Hsum_s.
  pose proof (sum_get0_keys contributions _ Hnd (Hdom _ Hc)) as Hsum_c.
  destruct ((Num.sum_values contributions <? 0.01)
            || (Num.sum_values shares <? 0.01)) eqn:Hskip.
  - apply sum_list_zero. intros k _. rewrite billDelta_linear.
    fold shares contributions. by rewrite Hskip.
  - rewrite (sum_list_ext _
               (λ k, Qmin (Num.sum_values contributions / Num.sum_values shares) 1
                     * Num.get0 shares k - Num.get0 contributions k)).
    2:{ intros k _. rewrite billDelta_linear. fold shares contributions.
        by rewrite Hskip. }
    rewrite sum_list_scale_minus, Hsum_s, Hsum_c.
    apply orb_false_iff in Hskip as [_ Hts]. apply ltb_ge in Hts.
    assert (Num.sum_values contributions / Num.sum_values shares <= 1) as Hratio.
    { apply Qle_shift_div_r; lra. }
    rewrite (Q.min_l _ _ Hratio). field. lra.
Qed.

Lemma rawBalance_sum_zero (bills : list Bill) (members : list Person) :
  NoDup (map person_id members) →
  settledWithinRoster bills members →
  Num.sum_list (map (rawBalance bills members) (map person_id members)) == 0.
Proof.
  intros Hnd Hbills. unfold rawBalance.
  assert (∀ bill, bill ∈ filter (λ bill, isPaidOrPartial bill = true) bills →
            Num.sum_list (map (billDelta members bill) (map person_id members)) == 0)
    as Hzero.
  { intros bill [Hq Hin]%list_elem_of_filter.
    destruct (Hbills bill Hin Hq) as (Hs & Hc & Hle). by apply billDelta_sum_zero. }
  clear Hbills.
  induction (filter (λ bill, isPaidOrPartial bill = true) bills) as [|bill paid IH].
  - apply sum_list_zero. intros; cbn [map]. by rewrite sum_list_nil.
  - cbn [map].
    rewrite (sum_list_ext _
               (λ k, billDelta members bill k
                     + Num.sum_list (map (λ bill, billDelta members bill k) paid))).
    2:{ intros k _. by rewrite sum_list_cons. }
    rewrite sum_list_plus, IH, Hzero; [lra|by left|].
    intros b Hb. apply Hzero. by right.
Qed.

Lemma sum_round2_close (l : list Q) :
  Qabs (Num.sum_list (map Num.round2 l) - Num.sum_list l)
  <= (5 # 1000) * inject_Z (Z.of_nat (length l)).
Proof.
  induction l as [|x l IH].
  - cbn [map length]. rewrite sum_list_nil. vm_compute. discriminate.
  - cbn [map]. rewrite !sum_list_cons.
    replace (Z.of_nat (length (x :: l))) with (Z.of_nat (length l) + 1)%Z
      by (cbn [length]; lia).
    rewrite inject_Z_plus. change (inject_Z 1) with 1.
    pose proof (round2_close x) as Hx.
    revert IH Hx.
    generalize (inject_Z (Z.of_nat (length l))) (Num.sum_list (map Num.round2 l))
               (Num.sum_list l) (Num.round2 x).
    intros n sr s rx.
    do 3 (apply Qabs_case; intros ?); intros; lra.
Qed.

Lemma sumOwes_closed (bills : list Bill) (members : list Person) :
  sumOwes (calculateBalances bills members)
  = Num.sum_list
      (map Num.round2 (map (rawBalance bills members) (map person_id members))).
Proof.
  rewrite calculateBalances_closed. unfold sumOwes.
  by rewrite !map_map.
Qed.

Lemma some_value_true (p : Q → bool) (m : gmap string Q) :
  Num.some_value p m = true ↔ ∃ k v, m !! k = Some v ∧ p v = true.
Proof.
  unfold Num.some_value.
  apply (map_fold_weak_ind
           (λ r m, r = true ↔ ∃ k v, m !! k = Some v ∧ p v = true)).
  - split; [done|]. intros (k & v & Hk & _). by rewrite lookup_empty in Hk.
  - intros i x m' r Hi IH. rewrite orb_true_iff, IH. split.
    + intros [(k & v & Hk & Hp)|Hp].
      * exists k, v. split; [|done]. rewrite lookup_insert_ne; [done|].
        intros ->. congruence.
      * exists i, x. by rewrite lookup_insert_eq.
    + intros (k & v & Hk & Hp). destruct (decide (i = k)) as [->|Hne].
      * rewrite lookup_insert_eq in Hk. right. congruence.
      * rewrite lookup_insert_ne in Hk by done. left. eauto.
Qed.

Lemma isPaidOrPartial_spec (bill : Bill) :
  isPaidOrPartial bill = true
  ↔ (isPaid bill = true
     ∧ (truthy (paidBy bill) = true ∨ is_Some (paidContributions bill)))
    ∨ (∃ contributions k amt,
         paidContributions bill = Some contributions
         ∧ contributions !! k = Some amt ∧ 0 < amt).
Proof.
  unfold isPaidOrPartial.
  rewrite orb_true_iff, andb_true_iff, orb_true_iff, bool_decide_eq_true.
  apply or_iff_compat_l.
  destruct (paidContributions bill) as [c|].
  - rewrite some_value_true. split.
    + intros (k & v & Hk & Hp%ltb_lt). by exists c, k, v.
    + intros (c' & k & v & [= <-] & Hk & Hp). exists k, v. by rewrite ltb_lt.
  - split; [done|]. by intros (c' & k & v & [=] & _).
Qed.

Lemma billDelta_cases (members : list Person) (bill : Bill) (k : string) :
  let shares := calculateBillShares bill members in
  let contributions := getBillContributions bill in
  let totalPaid := Num.sum_values contributions in
  let totalShares := Num.sum_values shares in
  let paidRatio := Qmin (totalPaid / totalShares) 1 in
  (totalPaid < 0.01 ∨ totalShares < 0.01 → billDelta members bill k = 0)
  ∧ (0.01 <= totalPaid → 0.01 <= totalShares →
     (∀ share, shares !! k = Some share →
        billDelta members bill k = share * paidRatio - Num.get0 contributions k)
     ∧ (∀ paid, shares !! k = None → contributions !! k = Some paid →
          billDelta members bill k = - paid)
     ∧ (shares !! k = None → contributions !! k = None →
          billDelta members bill k == 0)).
Proof.
  intros shares contributions totalPaid totalShares paidRatio.
  unfold billDelta. fold shares contributions totalPaid totalShares paidRatio.
  split.
  - intros H. rewrite <- !ltb_lt, <- orb_true_iff in H. by rewrite H.
  - intros H1%ltb_ge H2%ltb_ge. rewrite H1, H2. cbn [orb].
    unfold Num.get0. split_and!.
    + by intros share ->.
    + by intros paid -> ->.
    + intros -> ->. reflexivity.
Qed.

(** C4. [calculateBalances] takes into account exactly the bills that are
    marked paid with a payer ([paidBy] or [paidContributions]) or that have a
    strictly positive entry in [paidContributions]. A bill whose total paid
    or total shares is below 0.01 adds nothing; any other bill adds
    [share * paidRatio - contribution] to every share holder, with
    [paidRatio = min (totalPaid / totalShares) 1], and subtracts the full
    payment of a payer who has no share. Every member is reported with the
    total rounded to two decimals. *)
Theorem calculateBalances_spec (bills : list Bill) (members : list Person) :
  calculateBalances bills members
  = map (λ m,
           {| personId := person_id m;
              personName := person_name m;
              owes :=
                Some (Num.round2
                        (Num.sum_list
                           (map (λ bill, billDelta members bill (person_id m))
                                (filter (λ bill, isPaidOrPartial bill = true)
                                        bills)))) |})
        members
  ∧ (∀ bill,
       isPaidOrPartial bill = true
       ↔ (isPaid bill = true
          ∧ (truthy (paidBy bill) = true ∨ is_Some (paidContributions bill)))
         ∨ (∃ contributions k amt,
              paidContributions bill = Some contributions
              ∧ contributions !! k = Some amt ∧ 0 < amt))
  ∧ (∀ bill k,
       let shares := calculateBillShares bill members in
       let contributions := getBillContributions bill in
       let totalPaid := Num.sum_values contributions in
       let totalShares := Num.sum_values shares in
       let paidRatio := Qmin (totalPaid / totalShares) 1 in
       (totalPaid < 0.01 ∨ totalShares < 0.01 → billDelta members bill k = 0)
       ∧ (0.01 <= totalPaid → 0.01 <= totalShares →
          (∀ share, shares !! k = Some share →
             billDelta members bill k
             = share * paidRatio - Num.get0 contributions k)
          ∧ (∀ paid, shares !! k = None → contributions !! k = Some paid →
               billDelta members bill k = - paid)
          ∧ (shares !! k = None → contributions !! k = None →
               billDelta members bill k == 0))).
Proof.
  split_and!.
  - apply calculateBalances_closed.
  - apply isPaidOrPartial_spec.
  - intros bill k. apply billDelta_cases.
Qed.

(** C7, as corrected. When the member ids are distinct and every bill taken
    into account has its share holders and payers on the roster and payments
    that do not exceed the sum of its shares, the balances before rounding
    add up to exactly zero, every member is reported with the rounded
    balance, and the reported balances add up to at most half a cent per
    member in absolute value. *)
Theorem balances_conserved (bills : list Bill) (members : list Person) :
  NoDup (map person_id members) →
  settledWithinRoster bills members →
  Num.sum_list (map (rawBalance bills members) (map person_id members)) == 0
  ∧ map owes (calculateBalances bills members)
    = map (λ k, Some (Num.round2 (rawBalance bills members k)))
          (map person_id members)
  ∧ Qabs (sumOwes (calculateBalances bills members))
    <= (5 # 1000) * inject_Z (Z.of_nat (length members)).
Proof.
  intros Hnd Hbills.
  pose proof (rawBalance_sum_zero bills members Hnd Hbills) as Hzero.
  split_and!; [done| |].
  - rewrite calculateBalances_closed. by rewrite !map_map.
  - rewrite sumOwes_closed.
    pose proof (sum_round2_close
                  (map (rawBalance bills members) (map person_id members))) as H.
    rewrite Hzero, !length_map in H.
    eapply Qle_trans; [|exact H].
    apply Qle_lteq. right. apply Qabs_wd. lra.
Qed.

Lemma balances_conserved_witness :
  Num.sum_list
    (map (rawBalance [paidInFullBy "a" (evenBill "x" 100)] rosterAB)
         (map person_id rosterAB)) == 0
  ∧ map owes (calculateBalances [paidInFullBy "a" (evenBill "x" 100)] rosterAB)
    = map (λ k, Some (Num.round2
                        (rawBalance [paidInFullBy "a" (evenBill "x" 100)]
                                    rosterAB k)))
          (map person_id rosterAB)
  ∧ Qabs (sumOwes (calculateBalances [paidInFullBy "a" (evenBill "x" 100)]
                                     rosterAB))
    <= (5 # 1000) * inject_Z (Z.of_nat (length rosterAB)).
Proof.
  apply (balances_conserved [paidInFullBy "a" (evenBill "x" 100)] rosterAB).
  - compute_done.
  - intros bill Hin _. apply list_elem_of_singleton in Hin as ->.
    split_and!.
    + compute_done.
    + compute_done.
    + vm_compute. discriminate.
Defined.

(** C7 as stated fails: the mortgage is paid in full by a member of the
    default roster, yet the reported balances add up to -64, because the
    mortgage shares of the roster add up to 3500 and not to the 3564 paid. *)
Lemma balances_not_conserved_mortgage :
  isPaid mortgageBill = true
  ∧ isBillFullyPaid mortgageBill 0.01 = true
  ∧ dom (getBillContributions mortgageBill)
    ⊆ list_to_set (map person_id HOUSEHOLD_MEMBERS)
  ∧ sumOwes (calculateBalances [mortgageBill] HOUSEHOLD_MEMBERS) == -64
  ∧ ¬ Qabs (sumOwes (calculateBalances [mortgageBill] HOUSEHOLD_MEMBERS)) <= 0.01.
Proof.
  split_and!.
  - reflexivity.
  - vm_compute. reflexivity.
  - compute_done.
  - vm_compute. reflexivity.
  - vm_compute. intros H. by apply H.
Qed.

(** The two other conditions of the corrected C7 are needed as well. A share
    holder who is not on the roster takes part of the bill out of the
    reported balances; and seven members sharing 100 evenly are reported
    with balances that add up to 0.03, each balance being rounded on its
    own. *)
Lemma balances_not_conserved_outsider_share :
  isBillFullyPaid outsiderShareBill 0.01 = true
  ∧ Num.sum_values (getBillContributions outsiderShareBill)
    == Num.sum_values (calculateBillShares outsiderShareBill rosterAB)
  ∧ sumOwes (calculateBalances [outsiderShareBill] rosterAB) == -50.
Proof. split_and!; vm_compute; reflexivity. Qed.

Lemma balances_rounding_drift :
  Num.sum_list
    (map (rawBalance [paidInFullBy "a" (evenBill "x" 100)] rosterOfSeven)
         (map person_id rosterOfSeven)) == 0
  ∧ sumOwes (calculateBalances [paidInFullBy "a" (evenBill "x" 100)]
                               rosterOfSeven) == 0.03.
Proof. split; vm_compute; reflexivity. Qed.

(** ** Contribution extractor *)

(** C6, as corrected. A contributions map that is present is returned as it
    is, even when it is empty; without one, a non-empty [paidBy] gives the
    single entry mapping the payer to the bill amount; otherwise the result
    is empty. The extractor agrees with the specification's wording on every
    bill whose contributions map is not present-and-empty. *)
Theorem getBillContributions_spec (bill : Bill) :
  (∀ contributions, paidContributions bill = Some contributions →
     getBillContributions bill = contributions)
  ∧ (∀ payer, paidContributions bill = None → paidBy bill = Some payer →
       payer ≠ "" → getBillContributions bill = {[payer := amount bill]})
  ∧ (paidContributions bill = None → truthy (paidBy bill) = false →
       getBillContributions bill = ∅)
  ∧ (paidContributions bill ≠ Some ∅ →
       getBillContributions bill = specContributions bill).
Proof.
  unfold getBillContributions, specContributions, truthy. split_and!.
  - by intros c ->.
  - intros payer -> -> Hne. apply String.eqb_neq in Hne. by rewrite Hne.
  - intros ->. destruct (paidBy bill) as [payer|]; [|done].
    rewrite negb_false_iff. by intros ->.
  - intros Hne. destruct (paidContributions bill) as [c|].
    + case_bool_decide; [|done]. by subst.
    + destruct (paidBy bill) as [payer|]; [|done]. by destruct (String.eqb payer "").
Qed.

(** C6 as stated fails: a bill whose contributions map is present but empty
    and whose [paidBy] is set yields the empty map; it does not fall through
    to the [paidBy] rule. *)
Lemma getBillContributions_empty_map_no_fallthrough :
  paidContributions emptyContributionsBill = Some ∅
  ∧ paidBy emptyContributionsBill = Some "a"
  ∧ getBillContributions emptyContributionsBill = ∅
  ∧ specContributions emptyContributionsBill = {["a" := 100]}
  ∧ getBillContributions emptyContributionsBill
    ≠ specContributions emptyContributionsBill.
Proof.
  split_and!; try reflexivity.
  intros H. apply (f_equal (λ m : gmap string Q, m !! "a")) in H.
  vm_compute in H. discriminate.
Qed.

(** ** Payment status *)

Lemma getBillStatus_partial_iff (parseDate : string → option Z) (now : Z)
    (bill : Bill) :
  isPaid bill = false →
  getBillStatus parseDate now bill = Partial
  ↔ ∃ contributions,
      paidContributions bill = Some contributions
      ∧ 0 < Num.sum_values contributions
      ∧ Num.sum_values contributions < amount bill.
Proof.
  intros Hunpaid. unfold getBillStatus. rewrite Hunpaid.
  destruct (paidContributions bill) as [c|].
  - destruct ((0 <? Num.sum_values c) && (Num.sum_values c <? amount bill)) eqn:Hp.
    + apply andb_true_iff in Hp as [H1%ltb_lt H2%ltb_lt]. split; [|done].
      intros _. by exists c.
    + split.
      * destruct (parseDate (dueDate bill)) as [due|]; [|done].
        by destruct (due <? now)%Z.
      * intros (c' & [= <-] & H1%ltb_lt & H2%ltb_lt). by rewrite H1, H2 in Hp.
  - split.
    + destruct (parseDate (dueDate bill)) as [due|]; [|done].
      by destruct (due <? now)%Z.
    + by intros (c' & [=] & _).
Qed.

(** What the code does with the due date: a bill that is neither paid nor
    partial is [Overdue] exactly when its due date parses to an instant
    before the clock reading. *)
Lemma getBillStatus_overdue_iff (parseDate : string → option Z) (now : Z)
    (bill : Bill) :
  isPaid bill = false →
  getBillStatus parseDate now bill ≠ Partial →
  getBillStatus parseDate now bill = Overdue
  ↔ ∃ due, parseDate (dueDate bill) = Some due ∧ (due < now)%Z.
Proof.
  intros Hunpaid. unfold getBillStatus. rewrite Hunpaid.
  destruct (match paidContributions bill with Some _ => _ | None => _ end);
    [done|].
  intros _. destruct (parseDate (dueDate bill)) as [due|].
  - destruct (due <? now)%Z eqn:Hlt.
    + apply Z.ltb_lt in Hlt. split; [|done]. intros _. by exists due.
    + apply Z.ltb_ge in Hlt. split; [done|]. intros (due' & [= <-] & ?). lia.
  - split; [done|]. by intros (due' & [=] & _).
Qed.

(** C8, as corrected. The status is [Paid] exactly when [isPaid] is true;
    for a bill that is not paid it is [Partial] exactly when a contributions
    map is present and [0 < totalPaid < amount], both compared exactly, with
    no tolerance; otherwise it is [Overdue] or [Pending]. *)
Theorem getBillStatus_spec (parseDate : string → option Z) (now : Z)
    (bill : Bill) :
  (getBillStatus parseDate now bill = Paid ↔ isPaid bill = true)
  ∧ (isPaid bill = false →
     (getBillStatus parseDate now bill = Partial
      ↔ ∃ contributions,
          paidContributions bill = Some contributions
          ∧ 0 < Num.sum_values contributions
          ∧ Num.sum_values contributions < amount bill))
  ∧ (isPaid bill = false →
     getBillStatus parseDate now bill ≠ Partial →
     getBillStatus parseDate now bill = Overdue
     ∨ getBillStatus parseDate now bill = Pending).
Proof.
  split_and!.
  - unfold getBillStatus. destruct (isPaid bill); [done|].
    split; [|done].
    destruct (match paidContributions bill with Some _ => _ | None => _ end);
      [done|].
    destruct (parseDate (dueDate bill)) as [due|]; [|done].
    by destruct (due <? now)%Z.
  - apply getBillStatus_partial_iff.
  - intros Hunpaid. unfold getBillStatus. rewrite Hunpaid.
    destruct (match paidContributions bill with Some _ => _ | None => _ end);
      [done|].
    intros _. destruct (parseDate (dueDate bill)) as [due|]; [|by right].
    destruct (due <? now)%Z; [by left|by right].
Qed.

(** C8 as stated fails: with 99.995 contributed on a bill of 100, which is
    fully paid up to the tolerance of 0.01, the status is [Partial] whatever
    the date is. *)
Lemma getBillStatus_ignores_tolerance :
  isPaid almostPaidBill = false
  ∧ isBillFullyPaid almostPaidBill 0.01 = true
  ∧ ¬ specPartial almostPaidBill
  ∧ ∀ parseDate now, getBillStatus parseDate now almostPaidBill = Partial.
Proof.
  split_and!.
  - reflexivity.
  - vm_compute. reflexivity.
  - intros [_ H]. vm_compute in H. discriminate.
  - intros parseDate now. reflexivity.
Qed.

(** ** Exceptions in the settlement resolver *)

(** C9 fails on the code: a coverage allocation whose covered member or
    whose payer is not on the roster makes the settlement resolver throw a
    [TypeError], where the claim has it complete and count the allocation
    as zero. *)
Theorem calculateSettlements_throws_on_unknown_coverage_id :
  isPaidOrPartial ghostCoveredBill = true
  ∧ calculateSettlementsWithBreakdown [ghostCoveredBill] rosterAB None
    = Throw TypeError
  ∧ isPaidOrPartial ghostPayerBill = true
  ∧ calculateSettlementsWithBreakdown [ghostPayerBill] rosterAB None
    = Throw TypeError.
Proof. split_and!; vm_compute; reflexivity. Qed.

(** ** The simple settlement list *)

(** C10. [calculateSettlements] returns the settlements of
    [calculateSettlementsWithBreakdown] on the same arguments, each reduced
    to its [from], [to] and [amount], in the same order and number; it throws
    exactly when the latter throws. *)
Theorem calculateSettlements_projects (bills : list Bill)
    (members : list Person) (settlementRecords : option (list SettlementRecord)) :
  match calculateSettlementsWithBreakdown bills members settlementRecords with
  | Ok settlements =>
      ∃ simples,
        calculateSettlements bills members settlementRecords = Ok simples
        ∧ simples = map simple settlements
        ∧ length simples = length settlements
        ∧ ∀ i, simples !! i = simple <$> settlements !! i
  | Throw e => calculateSettlements bills members settlementRecords = Throw e
  end.
Proof.
  unfold calculateSettlements.
  destruct (calculateSettlementsWithBreakdown bills members settlementRecords)
    as [settlements|e]; [|done].
  exists (map simple settlements). split_and!; [done..| |].
  - apply length_map.
  - intros i. apply list_lookup_fmap.
Qed.

(** ** The debt graph *)

Lemma forEachM_app {A S} (f : A → S → result S) (l1 l2 : list A) (s : S) :
  forEachM f (l1 ++ l2) s = s' ← forEachM f l1 s; forEachM f l2 s'.
Proof.
  revert s. induction l1 as [|x l1 IH]; intros s; [done|].
  cbn [app forEachM]. destruct (f x s) as [s'|e]; [|done]. apply IH.
Qed.

Lemma forEachM_ext {A S} (f g : A → S → result S) (l : list A) (s : S) :
  (∀ x s, x ∈ l → f x s = g x s) → forEachM f l s = forEachM g l s.
Proof.
  revert s. induction l as [|x l IH]; intros s H; [done|].
  cbn [forEachM]. rewrite H by left. destruct (g x s) as [s'|e]; [|done].
  apply IH. intros y s'' Hy. apply H. by right.
Qed.

(** A loop whose body is itself a loop over a list computed from the
    element is one loop over the concatenation of those lists. *)
Lemma forEachM_flat_map {A B S} (g : B → S → result S) (h : A → list B)
    (l : list A) (s : S) :
  forEachM (λ x, forEachM g (h x)) l s = forEachM g (flat_map h l) s.
Proof.
  revert s. induction l as [|x l IH]; intros s; [done|].
  cbn [forEachM flat_map]. rewrite forEachM_app.
  destruct (forEachM g (h x) s) as [s'|e]; [|done]. apply IH.
Qed.

Lemma filter_ext_in {A} (P1 P2 : A → Prop) `{!∀ x, Decision (P1 x)}
    `{!∀ x, Decision (P2 x)} (l : list A) :
  (∀ x, x ∈ l → P1 x ↔ P2 x) → filter P1 l = filter P2 l.
Proof.
  induction l as [|x l IH]; intros Hiff; [done|].
  rewrite !filter_cons, IH by (intros y Hy; apply Hiff; by right).
  pose proof (Hiff x ltac:(by left)) as Hx.
  repeat case_decide; [done|exfalso; tauto|exfalso; tauto|done].
Qed.

Lemma foldl_ext_in {A B} (f g : B → A → B) (l : list A) (b : B) :
  (∀ b x, x ∈ l → f b x = g b x) → foldl f b l = foldl g b l.
Proof.
  revert b. induction l as [|x l IH]; intros b Hfg; [done|].
  cbn [foldl]. rewrite Hfg by left. apply IH. intros b' y Hy. apply Hfg. by right.
Qed.

Lemma elem_of_flat_map {A B} (f : A → list B) (l : list A) (x : B) :
  x ∈ flat_map f l ↔ ∃ y, y ∈ l ∧ x ∈ f y.
Proof.
  rewrite list_elem_of_In, in_flat_map. by setoid_rewrite list_elem_of_In.
Qed.

Lemma getDebts_debtsAt (billDebts : Debts) (d c : string) :
  getDebts billDebts d c
  = match debtsAt billDebts d c with
    | Some entries => Ok entries
    | None => Throw TypeError
    end.
Proof.
  unfold getDebts, debtsAt. destruct (billDebts !! d) as [row|]; [|done].
  simpl. by destruct (row !! c).
Qed.

Lemma pushDebt_Some (billDebts : Debts) (d c : string)
    (entry : SettlementBreakdown) (entries : list SettlementBreakdown) :
  debtsAt billDebts d c = Some entries →
  ∃ billDebts',
    pushDebt d c entry billDebts = Ok billDebts'
    ∧ ∀ d' c', debtsAt billDebts' d' c'
               = if bool_decide (d' = d ∧ c' = c) then Some (entries ++ [entry])
                 else debtsAt billDebts d' c'.
Proof.
  intros Hat. unfold pushDebt. rewrite getDebts_debtsAt, Hat. cbn.
  eexists. split; [done|]. intros d' c'. unfold debtsAt in *.
  rewrite lookup_alter.
  destruct (decide (d = d')) as [<-|Hd].
  - destruct (billDebts !! d) as [row|]; [|done]. cbn in *.
    rewrite lookup_insert. destruct (decide (c = c')) as [<-|Hc].
    + by rewrite bool_decide_eq_true_2.
    + rewrite bool_decide_eq_false_2; [done|]. by intros [_ ->].
  - rewrite bool_decide_eq_false_2; [done|]. by intros [-> _].
Qed.

Lemma pushDebt_None (billDebts : Debts) (d c : string)
    (entry : SettlementBreakdown) :
  debtsAt billDebts d c = None → pushDebt d c entry billDebts = Throw TypeError.
Proof. intros Hat. unfold pushDebt. by rewrite getDebts_debtsAt, Hat. Qed.

Lemma entriesFor_cons (d c : string) (r : Attribution)
    (attributions : list Attribution) :
  entriesFor d c (r :: attributions)
  = (if bool_decide (r.1.1 = d ∧ r.1.2 = c) then [r.2] else [])
    ++ entriesFor d c attributions.
Proof.
  unfold entriesFor. rewrite filter_cons.
  case_decide; [by rewrite bool_decide_eq_true_2|by rewrite bool_decide_eq_false_2].
Qed.

Lemma entriesFor_app (d c : string) (l1 l2 : list Attribution) :
  entriesFor d c (l1 ++ l2) = entriesFor d c l1 ++ entriesFor d c l2.
Proof. unfold entriesFor. by rewrite filter_app, fmap_app. Qed.

Lemma elem_of_entriesFor (d c : string) (entry : SettlementBreakdown)
    (attributions : list Attribution) :
  entry ∈ entriesFor d c attributions ↔ (d, c, entry) ∈ attributions.
Proof.
  unfold entriesFor. rewrite list_elem_of_fmap. split.
  - intros ([[d' c'] e] & -> & [[Hd Hc] Hin]%list_elem_of_filter).
    cbn in *. by subst.
  - intros Hin. exists (d, c, entry). split; [done|].
    apply list_elem_of_filter. by split.
Qed.

(** Pushing a list of attributions whose slots all exist succeeds, and
    appends to every slot the items attributed to it, in order. *)
Lemma pushAll_Ok (attributions : list Attribution) (billDebts : Debts) :
  (∀ r : Attribution, r ∈ attributions → is_Some (debtsAt billDebts r.1.1 r.1.2)) →
  ∃ billDebts',
    pushAll attributions billDebts = Ok billDebts'
    ∧ ∀ d c, debtsAt billDebts' d c
             = (λ old, old ++ entriesFor d c attributions) <$> debtsAt billDebts d c.
Proof.
  revert billDebts.
  induction attributions as [|[[d c] entry] attributions IH]; intros billDebts Hok.
  - exists billDebts. split; [done|]. intros d c.
    destruct (debtsAt billDebts d c); [|done]. cbn. by rewrite app_nil_r.
  - destruct (Hok (d, c, entry)) as [entries Hentries]; [by left|]. cbn in Hentries.
    destruct (pushDebt_Some _ _ _ entry _ Hentries) as (g1 & Hpush & Hg1).
    destruct (IH g1) as (g2 & Hall & Hg2).
    { intros r Hr. rewrite Hg1. case_bool_decide; [done|].
      apply Hok. by right. }
    exists g2. split.
    + unfold pushAll in *. cbn [forEachM]. by rewrite Hpush.
    + intros d' c'. rewrite Hg2, Hg1, entriesFor_cons. cbn.
      case_bool_decide as Hdc.
      * destruct Hdc as [-> ->]. rewrite bool_decide_eq_true_2 by done.
        rewrite Hentries. cbn. by rewrite <- app_assoc.
      * rewrite bool_decide_eq_false_2 by (intros [-> ->]; by apply Hdc).
        by destruct (debtsAt billDebts d' c').
Qed.

Lemma pushAll_app (l1 l2 : list Attribution) (billDebts : Debts) :
  pushAll (l1 ++ l2) billDebts = g ← pushAll l1 billDebts; pushAll l2 g.
Proof. apply forEachM_app. Qed.

Lemma withinRoster_wired (members : list Person)
    (attributions : list Attribution) (billDebts : Debts) :
  wired members billDebts → withinRoster members attributions →
  ∀ r : Attribution, r ∈ attributions → is_Some (debtsAt billDebts r.1.1 r.1.2).
Proof. intros Hw Hwr r Hr. destruct (Hwr r Hr) as (? & ? & ?). by apply Hw. Qed.

Lemma pushAll_wired (members : list Person) (attributions : list Attribution)
    (billDebts billDebts' : Debts) :
  wired members billDebts →
  (∀ d c, debtsAt billDebts' d c
          = (λ old, old ++ entriesFor d c attributions) <$> debtsAt billDebts d c) →
  wired members billDebts'.
Proof.
  intros Hw Heq a b Ha Hb Hab. rewrite Heq. apply fmap_is_Some. by apply Hw.
Qed.

(** The two branches of the loop body push exactly the attributions of the
    bill. *)
Lemma attributeCoverage_pushAll (bill : Bill) (shares : gmap string Q)
    (allocations : list CoverageAllocation) (billDebts : Debts) :
  attributeCoverage bill shares allocations billDebts
  = pushAll (coverageAttributions bill shares allocations) billDebts.
Proof.
  unfold attributeCoverage, pushAll, coverageAttributions.
  rewrite <- forEachM_flat_map. apply forEachM_ext. intros coverage g _.
  destruct (0.01 <? cov_amount coverage); [|done]. cbn.
  by destruct (pushDebt _ _ _ g).
Qed.

Lemma billNets_lookup (bill : Bill) (members : list Person) (m : Person) :
  m ∈ members →
  Num.get0 (billNets bill members (calculateBillShares bill members)
                     (getBillContributions bill))
           (person_id m)
  = netPosition bill members (person_id m).
Proof.
  intros Hin. unfold billNets, Num.get0 at 1.
  rewrite (foldl_insert_lookup person_id
             (λ m, netPosition bill members (person_id m))); [done..|].
  intros q _ Heq. by rewrite Heq.
Qed.

Lemma attributeInferred_pushAll (bill : Bill) (members : list Person)
    (billDebts : Debts) :
  attributeInferred bill members (calculateBillShares bill members) billDebts
  = pushAll (inferredAttributions bill members) billDebts.
Proof.
  unfold attributeInferred, inferredAttributions, inferenceApplies.
  set (shares := calculateBillShares bill members).
  set (contributions := getBillContributions bill).
  destruct ((Num.sum_values contributions <? 0.01)
            || (Num.sum_values shares <? 0.01)); [done|].
  destruct (Num.sum_values contributions >=? Num.sum_values shares * 0.99); [|done].
  cbn [negb andb].
  set (nets := billNets bill members shares contributions).
  assert (∀ m, m ∈ members →
            Num.get0 nets (person_id m) = netPosition bill members (person_id m))
    as Hnet by apply billNets_lookup.
  assert (∀ f : Q → bool,
            filter (λ m, f (Num.get0 nets (person_id m)) = true) members
            = filter (λ m, f (netPosition bill members (person_id m)) = true) members)
    as Hfilter.
  { intros f. apply filter_ext_in. intros m Hm. by rewrite Hnet. }
  rewrite (Hfilter (λ x, 0.01 <? x)), (Hfilter (λ x, x <? -0.01)).
  set (debtors :=
         filter (λ m, (0.01 <? netPosition bill members (person_id m)) = true)
                members).
  set (creditors :=
         filter (λ m, (netPosition bill members (person_id m) <? -0.01) = true)
                members).
  assert (∀ m, m ∈ creditors → m ∈ members) as Hcred
    by (intros m Hm; by apply list_elem_of_filter in Hm as [_ ?]).
  assert (∀ m, m ∈ debtors → m ∈ members) as Hdebt
    by (intros m Hm; by apply list_elem_of_filter in Hm as [_ ?]).
  assert (foldl (λ sum c, sum + Qabs (Num.get0 nets (person_id c))) 0 creditors
          = totalOverpaid bill members) as ->.
  { unfold totalOverpaid. fold creditors. apply foldl_ext_in.
    intros sum c Hc. by rewrite Hnet by auto. }
  destruct (totalOverpaid bill members <? 0.01); [done|]. cbn [negb].
  unfold pushAll. rewrite <- forEachM_flat_map.
  apply forEachM_ext. intros debtor g Hd.
  rewrite <- forEachM_flat_map. apply forEachM_ext. intros creditor g' Hc.
  rewrite !Hnet by auto. fold shares. unfold inferredAmount.
  destruct (0.01 <? _); [|done]. cbn. by destruct (pushDebt _ _ _ g').
Qed.

Lemma attributeBill_pushAll (members : list Person) (bill : Bill)
    (billDebts : Debts) :
  attributeBill members bill billDebts
  = pushAll (billAttributions members bill) billDebts.
Proof.
  unfold attributeBill, billAttributions.
  destruct (coverageAllocations bill) as [[|coverage rest]|];
    auto using attributeCoverage_pushAll, attributeInferred_pushAll.
Qed.

Lemma buildDebts_pushAll (bills : list Bill) (members : list Person) :
  buildDebts bills members
  = pushAll (flat_map (billAttributions members)
                      (filter (λ bill, isPaidOrPartial bill = true) bills))
            (initDebts members).
Proof.
  unfold buildDebts, pushAll. rewrite <- forEachM_flat_map.
  apply forEachM_ext. intros bill g _. apply attributeBill_pushAll.
Qed.

(** ** The initial graph *)

Lemma initRow_lookup (d : string) (members : list Person)
    (row : gmap string (list SettlementBreakdown)) (c : string) :
  foldl (λ row creditor,
           if bool_decide (d ≠ person_id creditor)
           then <[person_id creditor := []]> row else row)
        row members !! c
  = if bool_decide (c ∈ map person_id members ∧ d ≠ c) then Some []
    else row !! c.
Proof.
  revert row. induction members as [|m members IH]; intros row.
  - cbn [foldl map]. rewrite bool_decide_eq_false_2; [done|].
    intros [H _]. by apply elem_of_nil in H.
  - cbn [foldl map]. rewrite IH.
    destruct (decide (c ∈ map person_id members ∧ d ≠ c)) as [H|H].
    + rewrite !bool_decide_eq_true_2; [done| |done].
      destruct H. split; [by right|done].
    + rewrite (bool_decide_eq_false_2 _ H).
      destruct (decide (d = person_id m)) as [->|Hd].
      * rewrite (bool_decide_eq_false_2 (person_id m ≠ person_id m)) by auto.
        rewrite bool_decide_eq_false_2; [done|].
        intros [[->|Hin]%elem_of_cons Hdc]; [done|]. by apply H.
      * rewrite (bool_decide_eq_true_2 (d ≠ person_id m)) by done.
        rewrite lookup_insert. destruct (decide (person_id m = c)) as [Hc|Hc].
        -- subst c. rewrite bool_decide_eq_true_2; [done|]. split; [by left|done].
        -- rewrite bool_decide_eq_false_2; [done|].
           intros [[->|Hin]%elem_of_cons Hdc]; [done|]. by apply H.
Qed.

Lemma initDebts_debtsAt (members : list Person) (a b : string) :
  debtsAt (initDebts members) a b
  = if bool_decide (a ∈ map person_id members ∧ b ∈ map person_id members ∧ a ≠ b)
    then Some [] else None.
Proof.
  unfold debtsAt, initDebts.
  destruct (decide (a ∈ map person_id members)) as [Ha|Ha].
  - apply list_elem_of_fmap in Ha as (p & -> & Hp).
    rewrite (foldl_insert_lookup person_id
               (λ debtor,
                  foldl (λ row creditor,
                           if bool_decide (person_id debtor ≠ person_id creditor)
                           then <[person_id creditor := []]> row else row)
                        ∅ members) members ∅ p Hp).
    2:{ intros q _ Heq. by rewrite Heq. }
    cbn. rewrite initRow_lookup, lookup_empty.
    case_bool_decide as H1; case_bool_decide as H2; try done.
    + exfalso. apply H2. destruct H1. split_and!; try done.
      apply list_elem_of_fmap. eauto.
    + exfalso. apply H1. by destruct H2 as (_ & ? & ?).
  - rewrite foldl_insert_lookup_None.
    + rewrite lookup_empty. cbn. rewrite bool_decide_eq_false_2; [done|].
      by intros [? _].
    + intros q Hq <-. apply Ha. apply list_elem_of_fmap. eauto.
Qed.

Lemma initDebts_wired (members : list Person) : wired members (initDebts members).
Proof.
  intros a b Ha Hb Hab. rewrite initDebts_debtsAt, bool_decide_eq_true_2; [|done].
  by eexists.
Qed.

(** The graph that the attribution phase builds, in closed form: when every
    attribution is between two distinct roster members, the phase succeeds
    and the slot from [a] to [b] holds the items attributed from [a] to [b]
    by all bills, in order. *)
Lemma buildDebts_closed (bills : list Bill) (members : list Person) :
  let attributions :=
    flat_map (billAttributions members)
             (filter (λ bill, isPaidOrPartial bill = true) bills) in
  withinRoster members attributions →
  ∃ billDebts,
    buildDebts bills members = Ok billDebts
    ∧ wired members billDebts
    ∧ ∀ a b, debtsAt billDebts a b
             = if bool_decide (a ∈ map person_id members
                               ∧ b ∈ map person_id members ∧ a ≠ b)
               then Some (entriesFor a b attributions) else None.
Proof.
  intros attributions Hwr. rewrite buildDebts_pushAll. fold attributions.
  destruct (pushAll_Ok attributions (initDebts members)) as (g & Hg & Hat).
  { apply (withinRoster_wired members); [apply initDebts_wired|done]. }
  exists g. split_and!; [done| |].
  - eapply pushAll_wired; [apply initDebts_wired|done].
  - intros a b. rewrite Hat, initDebts_debtsAt. by case_bool_decide.
Qed.

(** ** The netting loop *)

Lemma forEachM_map {A B S} (g : B → S → result S) (h : A → B) (l : list A) (s : S) :
  forEachM g (map h l) s = forEachM (λ x, g (h x)) l s.
Proof.
  revert s. induction l as [|x l IH]; intros s; [done|].
  cbn [map forEachM]. destruct (g (h x) s); [|done]. apply IH.
Qed.

Lemma bind_Ok {A B} (a : A) (k : A → result B) : (Ok a ≫= k) = k a.
Proof. reflexivity. Qed.

Lemma leb_false_ne (a b : string) : String.leb b a = false → a ≠ b.
Proof.
  intros Hleb ->. destruct (String.leb_total b b); congruence.
Qed.

Lemma settlePair_closed (members : list Person) (billDebts : Debts)
    (settlementRecords : option (list SettlementRecord)) (a b : Person)
    (settlements : list SettlementWithBreakdown) (processed : gset string) :
  wired members billDebts → a ∈ members → b ∈ members →
  ∃ processed',
    settlePair billDebts settlementRecords (mkMemberMap members) a b
               (settlements, processed)
    = Ok (settlements
            ++ flat_map (pairSettlements members billDebts settlementRecords)
                        (scanPairs [(a, b)] processed),
          processed')
    ∧ ∀ rest, scanPairs ((a, b) :: rest) processed
              = scanPairs [(a, b)] processed ++ scanPairs rest processed'.
Proof.
  intros Hw Ha Hb. unfold settlePair. cbn [scanPairs].
  destruct (String.leb (person_id b) (person_id a)) eqn:Hleb.
  { exists processed. by rewrite app_nil_r. }
  case_bool_decide as Hkey.
  { exists processed. by rewrite app_nil_r. }
  apply leb_false_ne in Hleb.
  assert (person_id a ∈ map person_id members) as Ha'
    by (apply list_elem_of_fmap; eauto).
  assert (person_id b ∈ map person_id members) as Hb'
    by (apply list_elem_of_fmap; eauto).
  destruct (Hw _ _ Ha' Hb' Hleb) as [ab Hab].
  destruct (Hw _ _ Hb' Ha' (not_eq_sym Hleb)) as [ba Hba].
  rewrite !getDebts_debtsAt, Hab, Hba, !bind_Ok.
  exists ({[pairKey (person_id a) (person_id b)]} ∪ processed). split; [|done].
  unfold pairSettlements. cbn [flat_map fst snd]. rewrite Hab, Hba, app_nil_r.
  unfold settleBetween.
  destruct (0.01 <? Qabs _); [|by rewrite app_nil_r].
  by destruct (0 <? _).
Qed.

Lemma netting_loop_closed (members : list Person) (billDebts : Debts)
    (settlementRecords : option (list SettlementRecord))
    (pairs : list (Person * Person))
    (settlements : list SettlementWithBreakdown) (processed : gset string) :
  wired members billDebts →
  (∀ pair, pair ∈ pairs → pair.1 ∈ members ∧ pair.2 ∈ members) →
  ∃ processed',
    forEachM (λ '(a, b),
                settlePair billDebts settlementRecords (mkMemberMap members) a b)
             pairs (settlements, processed)
    = Ok (settlements
            ++ flat_map (pairSettlements members billDebts settlementRecords)
                        (scanPairs pairs processed),
          processed').
Proof.
  intros Hw. revert settlements processed.
  induction pairs as [|[a b] pairs IH]; intros settlements processed Hin.
  - exists processed. cbn. by rewrite app_nil_r.
  - destruct (Hin (a, b)) as [Ha Hb]; [by left|].
    destruct (settlePair_closed members billDebts settlementRecords a b
                settlements processed Hw Ha Hb) as (p1 & Hstep & Hscan).
    destruct (IH (settlements
                    ++ flat_map (pairSettlements members billDebts settlementRecords)
                                (scanPairs [(a, b)] processed)) p1)
      as (p2 & Hrest).
    { intros pair Hp. apply Hin. by right. }
    exists p2. cbn [forEachM]. rewrite Hstep, bind_Ok, Hrest.
    by rewrite (Hscan pairs), flat_map_app, app_assoc.
Qed.

(** The netting loop in closed form: the settlements of the pairs that are
    not skipped, in order. *)
Lemma netDebts_closed (members : list Person) (billDebts : Debts)
    (settlementRecords : option (list SettlementRecord)) :
  wired members billDebts →
  netDebts members billDebts settlementRecords
  = Ok (flat_map (pairSettlements members billDebts settlementRecords)
                 (nettedPairs members)).
Proof.
  intros Hw. unfold netDebts, nettedPairs.
  rewrite (forEachM_ext _
             (λ personA,
                forEachM (λ '(a, b),
                            settlePair billDebts settlementRecords
                                       (mkMemberMap members) a b)
                         (map (pair personA) members))).
  2:{ intros personA st _. by rewrite forEachM_map. }
  rewrite (forEachM_flat_map
             (λ '(a, b), settlePair billDebts settlementRecords
                                    (mkMemberMap members) a b)
             (λ personA, map (pair personA) members)).
  destruct (netting_loop_closed members billDebts settlementRecords
              (flat_map (λ personA, map (pair personA) members) members) [] ∅ Hw)
    as (p & Hloop).
  { intros [a b] (x & Hx & Hp)%list_elem_of_In%in_flat_map.
    apply in_map_iff in Hp as (y & [= <- <-] & Hy).
    split; by apply list_elem_of_In. }
  unfold allPairs. rewrite Hloop, bind_Ok. reflexivity.
Qed.

(** ** Coverage allocations *)

(** C2 fails on the code. The coverage scenario (bill of 60, shares 30 and
    30, A paid 60, A covers B for 30) gives "B owes A 30"; but when the same
    bill carries one more allocation, for someone who is not on the roster,
    or when another bill of the snapshot carries such an allocation, the
    resolver throws a [TypeError] and the debt of B to A, which the claim
    has attributed, is attributed to nobody. The balance aggregator
    completes on the same bill. *)
Theorem coverage_lost_on_unknown_allocation :
  isPaidOrPartial mixedCoverageBill = true
  ∧ coverageAllocations mixedCoverageBill
    = Some [ {| payerId := "a"; coveredId := "b"; cov_amount := 30 |};
             {| payerId := "a"; coveredId := "ghost"; cov_amount := 10 |} ]
  ∧ calculateSettlementsWithBreakdown [mixedCoverageBill] rosterAB None
    = Throw TypeError
  ∧ calculateSettlements [mixedCoverageBill] rosterAB None = Throw TypeError
  ∧ calculateSettlementsWithBreakdown [coverageScenarioBill; ghostCoveredBill]
                                      rosterAB None
    = Throw TypeError
  ∧ calculateBalances [mixedCoverageBill] rosterAB
    = [ {| personId := "a"; personName := "A"; owes := Some (-30) |};
        {| personId := "b"; personName := "B"; owes := Some 30 |} ]
  ∧ calculateBillShares coverageScenarioBill rosterAB !! "b" = Some (60 / 2)
  ∧ calculateSettlementsWithBreakdown [coverageScenarioBill] rosterAB None
    = Ok [ {| from := "B"; to := "A"; s_amount := 30;
              breakdown := [mkBreakdown coverageScenarioBill (60 / 2) 30];
              offsetBreakdown := None; grossOwed := Some 30;
              grossOffset := None; forgiven := None |} ].
Proof. split_and!; vm_compute; reflexivity. Qed.

Lemma elem_of_inferredAttributions (bill : Bill) (members : list Person)
    (d c : string) (entry : SettlementBreakdown) :
  (d, c, entry) ∈ inferredAttributions bill members
  ↔ inferenceApplies bill members = true
    ∧ d ∈ map person_id members ∧ c ∈ map person_id members
    ∧ 0.01 < netPosition bill members d
    ∧ netPosition bill members c < -0.01
    ∧ 0.01 < inferredAmount bill members d c
    ∧ entry = mkBreakdown bill (Num.get0 (calculateBillShares bill members) d)
                          (inferredAmount bill members d c).
Proof.
  unfold inferredAttributions.
  destruct (inferenceApplies bill members); [|split; [by intros ?%elem_of_nil|by intros [? _]]].
  split.
  - intros (debtor & [Hd Hdm]%list_elem_of_filter & Hin)%elem_of_flat_map.
    apply elem_of_flat_map in Hin
        as (creditor & [Hc Hcm]%list_elem_of_filter & Hin).
    destruct (0.01 <? inferredAmount _ _ _ _) eqn:Ha; [|by apply elem_of_nil in Hin].
    apply list_elem_of_singleton in Hin as [= -> -> ->].
    apply ltb_lt in Hd, Hc, Ha.
    split_and!; try done; apply list_elem_of_fmap; eauto.
  - intros (_ & (debtor & -> & Hdm)%list_elem_of_fmap
              & (creditor & -> & Hcm)%list_elem_of_fmap & Hd & Hc & Ha & ->).
    apply ltb_lt in Hd, Hc, Ha.
    apply elem_of_flat_map. exists debtor. split.
    { apply list_elem_of_filter. by split. }
    apply elem_of_flat_map. exists creditor. split.
    { apply list_elem_of_filter. by split. }
    rewrite Ha. by apply list_elem_of_singleton.
Qed.

Lemma inferenceApplies_spec (bill : Bill) (members : list Person) :
  inferenceApplies bill members = true
  ↔ 0.01 <= Num.sum_values (getBillContributions bill)
    ∧ 0.01 <= Num.sum_values (calculateBillShares bill members)
    ∧ Num.sum_values (calculateBillShares bill members) * 0.99
      <= Num.sum_values (getBillContributions bill)
    ∧ 0.01 <= totalOverpaid bill members.
Proof.
  unfold inferenceApplies.
  rewrite !andb_true_iff, !negb_true_iff, orb_false_iff, !ltb_ge, geb_ge.
  tauto.
Qed.

Lemma inference_definitions (bill : Bill) (members : list Person) (d c : string) :
  netPosition bill members d
  = Num.get0 (calculateBillShares bill members) d
    - (Num.get0 (getBillContributions bill) d
       - match creditEarned bill with
         | Some earned => Num.get0 earned d
         | None => 0
         end)
  ∧ inferredAmount bill members d c
    = netPosition bill members d
      * (Qabs (netPosition bill members c) / totalOverpaid bill members)
  ∧ totalOverpaid bill members
    == Num.sum_list
         (map (λ m, Qabs (netPosition bill members (person_id m)))
              (filter (λ m, (netPosition bill members (person_id m) <? -0.01) = true)
                      members)).
Proof.
  split_and!; [done..|].
  unfold totalOverpaid. rewrite foldl_plus_sum. lra.
Qed.

Lemma partial_scenario :
  coverageAllocations partialScenarioBill = None
  ∧ isPaidOrPartial partialScenarioBill = true
  ∧ getTotalPaid partialScenarioBill = 40
  ∧ calculateSettlementsWithBreakdown [partialScenarioBill] rosterAB None = Ok []
  ∧ calculateBalances [partialScenarioBill] rosterAB
    = [ {| personId := "a"; personName := "A"; owes := Some (-20) |};
        {| personId := "b"; personName := "B"; owes := Some 20 |} ].
Proof. split_and!; vm_compute; reflexivity. Qed.

(** ** Netting *)

(** C1 fails on the code for rosters in which two pairs of ids have the same
    concatenated key. With the ids "al", "bo-cy", "al-bo" and "cy", the pair
    (al-bo, cy) has the key of the pair (al, bo-cy), which is met first; so
    although Al Bo owes Cy 50 and nothing offsets it, no settlement is
    emitted. Without "Bo Cy" on the roster the same bill gives "Al Bo owes Cy
    50". *)
Theorem pair_key_collision_drops_settlement :
  NoDup (map person_id collidingRoster)
  ∧ pairKey "al" "bo-cy" = pairKey "al-bo" "cy"
  ∧ (∃ billDebts,
       buildDebts [alBoOwesCyBill] collidingRoster = Ok billDebts
       ∧ (totalOf <$> debtsAt billDebts "al-bo" "cy") = Some (0 + 50)
       ∧ (totalOf <$> debtsAt billDebts "cy" "al-bo") = Some 0)
  ∧ calculateSettlementsWithBreakdown [alBoOwesCyBill] collidingRoster None
    = Ok []
  ∧ calculateSettlements [alBoOwesCyBill] plainRoster None
    = Ok [ {| st_from := "Al Bo"; st_to := "Cy"; st_amount := 50 |} ].
Proof.
  split_and!.
  - compute_done.
  - reflexivity.
  - eexists. split; [vm_compute; reflexivity|]. split; vm_compute; reflexivity.
  - vm_compute. reflexivity.
  - vm_compute. reflexivity.
Qed.

(** *** Forgiveness *)

Lemma getForgivenBetween_addRecord
    (settlementRecords : option (list SettlementRecord)) (r : SettlementRecord)
    (x y : string) :
  getForgivenBetween (addRecord settlementRecords r) x y
  = if bool_decide (fromId r = x ∧ toId r = y)
    then getForgivenBetween settlementRecords x y + rec_amount r
    else getForgivenBetween settlementRecords x y.
Proof.
  unfold getForgivenBetween, addRecord.
  rewrite filter_app, foldl_app, filter_cons, filter_nil.
  assert (foldl (λ sum r0, sum + rec_amount r0) 0
                (filter (λ r0, fromId r0 = x ∧ toId r0 = y)
                        (default [] settlementRecords))
          = match settlementRecords with
            | Some records =>
                foldl (λ sum r0, sum + rec_amount r0) 0
                      (filter (λ r0, fromId r0 = x ∧ toId r0 = y) records)
            | None => 0
            end) as -> by (by destruct settlementRecords).
  case_decide; [by rewrite bool_decide_eq_true_2|by rewrite bool_decide_eq_false_2].
Qed.

Lemma NoDup_fmap_eq {A B} (f : A → B) (l : list A) (x y : A) :
  NoDup (map f l) → x ∈ l → y ∈ l → f x = f y → x = y.
Proof.
  induction l as [|z l IH]; intros Hnd Hx Hy Hxy; [by apply elem_of_nil in Hx|].
  cbn [map] in Hnd. apply NoDup_cons in Hnd as [Hz Hnd].
  apply elem_of_cons in Hx as [->|Hx]; apply elem_of_cons in Hy as [->|Hy].
  - done.
  - exfalso. apply Hz. rewrite Hxy. apply list_elem_of_fmap. eauto.
  - exfalso. apply Hz. rewrite <- Hxy. apply list_elem_of_fmap. eauto.
  - by apply IH.
Qed.


Lemma pushAll_is_Some (attributions : list Attribution)
    (billDebts billDebts' : Debts) :
  pushAll attributions billDebts = Ok billDebts' →
  ∀ d c, is_Some (debtsAt billDebts d c) → is_Some (debtsAt billDebts' d c).
Proof.
  revert billDebts.
  induction attributions as [|[[d c] entry] attributions IH]; intros billDebts Hpush.
  - by injection Hpush as <-.
  - unfold pushAll in Hpush. cbn [forEachM] in Hpush.
    destruct (debtsAt billDebts d c) as [entries|] eqn:Hat.
    + destruct (pushDebt_Some _ _ _ entry _ Hat) as (g1 & Hg1 & Hat1).
      rewrite Hg1, bind_Ok in Hpush. intros d' c' Hsome.
      apply (IH g1 Hpush). rewrite Hat1. by case_bool_decide.
    + by rewrite (pushDebt_None _ _ _ entry Hat) in Hpush.
Qed.

Lemma buildDebts_wired (bills : list Bill) (members : list Person)
    (billDebts : Debts) :
  buildDebts bills members = Ok billDebts → wired members billDebts.
Proof.
  rewrite buildDebts_pushAll. intros Hpush a b Ha Hb Hab.
  eapply pushAll_is_Some; [done|]. by apply initDebts_wired.
Qed.

Lemma scanPairs_elem (pairs : list (Person * Person)) (processed : gset string)
    (pair : Person * Person) :
  pair ∈ scanPairs pairs processed →
  pair ∈ pairs ∧ String.leb (person_id pair.2) (person_id pair.1) = false.
Proof.
  revert processed. induction pairs as [|[a b] pairs IH]; intros processed Hin.
  - by apply elem_of_nil in Hin.
  - cbn [scanPairs] in Hin.
    destruct (String.leb (person_id b) (person_id a)) eqn:Hleb.
    { destruct (IH _ Hin). split; [by right|done]. }
    case_bool_decide.
    { destruct (IH _ Hin). split; [by right|done]. }
    apply elem_of_cons in Hin as [->|Hin]; [split; [by left|done]|].
    destruct (IH _ Hin). split; [by right|done].
Qed.

Lemma allPairs_elem (members : list Person) (pair : Person * Person) :
  pair ∈ allPairs members → pair.1 ∈ members ∧ pair.2 ∈ members.
Proof.
  intros (a & Ha & (b & -> & Hb)%list_elem_of_fmap)%elem_of_flat_map. done.
Qed.

(** The resolver in closed form, whenever the attribution phase succeeds. *)
Lemma calculateSettlements_closed (bills : list Bill) (members : list Person)
    (settlementRecords : option (list SettlementRecord)) (billDebts : Debts) :
  buildDebts bills members = Ok billDebts →
  calculateSettlementsWithBreakdown bills members settlementRecords
  = Ok (flat_map (pairSettlements members billDebts settlementRecords)
                 (nettedPairs members)).
Proof.
  intros Hg. unfold calculateSettlementsWithBreakdown. rewrite Hg, bind_Ok.
  apply netDebts_closed. by eapply buildDebts_wired.
Qed.












(** *** Netting when no two pairs share a key *)

Lemma allPairs_NoDup (members : list Person) :
  NoDup members → NoDup (allPairs members).
Proof.
  intros Hnd. unfold allPairs.
  assert (∀ l1 : list Person,
            NoDup l1 → NoDup (flat_map (λ a, map (pair a) members) l1)) as H.
  { induction 1 as [|a l1 Ha Hl1 IH]; [constructor|].
    cbn [flat_map]. apply NoDup_app. split_and!; [|  |done].
    - apply (NoDup_fmap_2 _). done.
    - intros [x y] (b & [= -> ->] & Hb)%list_elem_of_fmap
                   (a' & Ha' & (b' & [= <- _] & _)%list_elem_of_fmap)%elem_of_flat_map.
      done. }
  by apply H.
Qed.

Lemma scanPairs_no_collision (pairs : list (Person * Person))
    (processed : gset string) :
  let lt := λ pair : Person * Person,
              String.leb (person_id pair.2) (person_id pair.1) = false in
  let key := λ pair : Person * Person,
               pairKey (person_id pair.1) (person_id pair.2) in
  NoDup (map key (filter lt pairs)) →
  (∀ pair, pair ∈ filter lt pairs → key pair ∉ processed) →
  scanPairs pairs processed = filter lt pairs.
Proof.
  intros lt key. revert processed.
  induction pairs as [|[a b] pairs IH]; intros processed Hnd Hfresh; [done|].
  cbn [scanPairs]. destruct (decide (lt (a, b))) as [Hlt|Hlt].
  - rewrite (filter_cons_True lt) in Hnd, Hfresh |- * by done.
    unfold lt in Hlt. cbn [fst snd] in Hlt. rewrite Hlt.
    cbn [map] in Hnd. apply NoDup_cons in Hnd as [Hhead Hnd].
    rewrite bool_decide_eq_false_2 by (apply (Hfresh (a, b)); by left).
    f_equal. apply IH; [done|].
    intros pair Hpair [Heq%elem_of_singleton|Hin]%elem_of_union.
    + apply Hhead.
      change (key (a, b)) with (pairKey (person_id a) (person_id b)).
      rewrite <- Heq. apply list_elem_of_fmap. eauto.
    + apply (Hfresh pair); [by right|done].
  - rewrite (filter_cons_False lt) in Hnd, Hfresh |- * by done.
    unfold lt in Hlt. cbn [fst snd] in Hlt.
    apply not_false_iff_true in Hlt. rewrite Hlt. by apply IH.
Qed.

Lemma nettedPairs_no_collision (members : list Person) :
  NoDup (map person_id members) → keysDistinct members →
  nettedPairs members = orderedPairs members.
Proof.
  intros Hids Hkeys. unfold nettedPairs, orderedPairs.
  apply scanPairs_no_collision; [|set_solver].
  apply NoDup_fmap_2_strong.
  - intros [a b] [a' b'] [_ [Ha Hb]%allPairs_elem]%list_elem_of_filter
           [_ [Ha' Hb']%allPairs_elem]%list_elem_of_filter Hkey.
    cbn [fst snd] in *.
    destruct (Hkeys (person_id a) (person_id b) (person_id a') (person_id b'))
      as [Haa Hbb]; try (apply list_elem_of_fmap; eauto); [done|].
    f_equal; by eapply (NoDup_fmap_eq person_id members).
  - apply NoDup_filter, allPairs_NoDup. by eapply NoDup_fmap_1.
Qed.

(** Every two members with distinct ids form exactly one ordered pair. *)
Lemma orderedPairs_once (members : list Person) (a b : Person) :
  NoDup (map person_id members) →
  a ∈ members → b ∈ members → person_id a ≠ person_id b →
  NoDup (orderedPairs members)
  ∧ ((a, b) ∈ orderedPairs members ∧ (b, a) ∉ orderedPairs members
     ∨ (b, a) ∈ orderedPairs members ∧ (a, b) ∉ orderedPairs members).
Proof.
  intros Hids Ha Hb Hab. split.
  { apply NoDup_filter, allPairs_NoDup. by eapply NoDup_fmap_1. }
  assert (∀ x y, x ∈ members → y ∈ members → (x, y) ∈ allPairs members) as Hall.
  { intros x y Hx Hy. apply elem_of_flat_map. exists x. split; [done|].
    apply list_elem_of_fmap. eauto. }
  unfold orderedPairs. rewrite !list_elem_of_filter. cbn [fst snd].
  destruct (String.leb (person_id b) (person_id a)) eqn:Hba;
    destruct (String.leb (person_id a) (person_id b)) eqn:Hab'.
  - exfalso. apply Hab. by apply String.leb_antisym.
  - right. split; [by auto|]. by intros [? _].
  - left. split; [by auto|]. by intros [? _].
  - exfalso. destruct (String.leb_total (person_id a) (person_id b)); congruence.
Qed.

Lemma settleBetween_spec (memberMap : gmap string string)
    (settlementRecords : option (list SettlementRecord))
    (a b : string) (aOwesB bOwesA : list SettlementBreakdown) :
  let forgivenAToB := getForgivenBetween settlementRecords a b in
  let forgivenBToA := getForgivenBetween settlementRecords b a in
  let net := totalOf aOwesB - forgivenAToB - (totalOf bOwesA - forgivenBToA) in
  (Qabs net <= 0.01 →
   settleBetween memberMap settlementRecords a b aOwesB bOwesA = [])
  ∧ (0.01 < net →
     settleBetween memberMap settlementRecords a b aOwesB bOwesA
     = [ {| from := default "" (memberMap !! a);
            to := default "" (memberMap !! b);
            s_amount := Num.round2 net;
            breakdown := aOwesB;
            offsetBreakdown := if nonEmpty bOwesA then Some bOwesA else None;
            grossOwed := Some (Num.round2 (totalOf aOwesB));
            grossOffset :=
              if nonEmpty bOwesA then Some (Num.round2 (totalOf bOwesA))
              else None;
            forgiven :=
              if 0.01 <? forgivenAToB then Some (Num.round2 forgivenAToB)
              else None |} ])
  ∧ (net < -0.01 →
     settleBetween memberMap settlementRecords a b aOwesB bOwesA
     = [ {| from := default "" (memberMap !! b);
            to := default "" (memberMap !! a);
            s_amount := Num.round2 (Qabs net);
            breakdown := bOwesA;
            offsetBreakdown := if nonEmpty aOwesB then Some aOwesB else None;
            grossOwed := Some (Num.round2 (totalOf bOwesA));
            grossOffset :=
              if nonEmpty aOwesB then Some (Num.round2 (totalOf aOwesB))
              else None;
            forgiven :=
              if 0.01 <? forgivenBToA then Some (Num.round2 forgivenBToA)
              else None |} ]).
Proof.
  intros fab fba net. unfold settleBetween. fold fab fba net. split_and!.
  - intros Hsmall%ltb_ge. by rewrite Hsmall.
  - intros Hpos.
    assert ((0.01 <? Qabs net) = true) as ->
      by (apply ltb_lt; apply Qabs_case; intros; lra).
    assert ((0 <? net) = true) as -> by (apply ltb_lt; lra). done.
  - intros Hneg.
    assert ((0.01 <? Qabs net) = true) as ->
      by (apply ltb_lt; apply Qabs_case; intros; lra).
    assert ((0 <? net) = false) as -> by (apply ltb_ge; lra). done.
Qed.

(** The resolver on a roster with distinct ids and distinct pair keys, when
    every attribution is between two distinct roster members: it succeeds,
    and its result is, for the pairs [(a, b)] with [a.id < b.id] in loop
    order, the netting of the items attributed from [a] to [b] against the
    items attributed from [b] to [a]. *)
Lemma calculateSettlements_netting (bills : list Bill) (members : list Person)
    (settlementRecords : option (list SettlementRecord)) :
  let attributions :=
    flat_map (billAttributions members)
             (filter (λ bill, isPaidOrPartial bill = true) bills) in
  NoDup (map person_id members) → keysDistinct members →
  withinRoster members attributions →
  calculateSettlementsWithBreakdown bills members settlementRecords
  = Ok (flat_map
          (λ pair,
             settleBetween (mkMemberMap members) settlementRecords
               (person_id pair.1) (person_id pair.2)
               (entriesFor (person_id pair.1) (person_id pair.2) attributions)
               (entriesFor (person_id pair.2) (person_id pair.1) attributions))
          (orderedPairs members)).
Proof.
  intros attributions Hids Hkeys Hwr.
  destruct (buildDebts_closed bills members Hwr) as (g & Hg & _ & Hat).
  rewrite (calculateSettlements_closed _ _ _ _ Hg), nettedPairs_no_collision by done.
  assert (∀ pair, pair ∈ orderedPairs members →
            pairSettlements members g settlementRecords pair
            = settleBetween (mkMemberMap members) settlementRecords
                (person_id pair.1) (person_id pair.2)
                (entriesFor (person_id pair.1) (person_id pair.2) attributions)
                (entriesFor (person_id pair.2) (person_id pair.1) attributions))
    as Hpair.
  { intros [a b] [Hlt [Ha Hb]%allPairs_elem]%list_elem_of_filter.
    cbn [fst snd] in *. apply leb_false_ne in Hlt.
    unfold pairSettlements. cbn [fst snd]. fold attributions in Hat.
    rewrite !Hat, !bool_decide_eq_true_2; [done| |].
    - split_and!; [apply list_elem_of_fmap; eauto..|done].
    - split_and!; [apply list_elem_of_fmap; eauto..|done]. }
  f_equal. induction (orderedPairs members) as [|pair pairs IH]; [done|].
  cbn [flat_map]. rewrite Hpair by left. f_equal. apply IH.
  intros p Hp. apply Hpair. by right.
Qed.

(** The netting scenario: A owes B 50 on one bill and B owes A 20 on
    another, both by coverage; the resolver returns the single settlement "A
    owes B 30", with the gross amounts 50 and 20. *)
Lemma netting_scenario :
  calculateSettlementsWithBreakdown nettingScenarioBills rosterAB None
  = Ok [ {| from := "A"; to := "B"; s_amount := 30;
            breakdown := [mkBreakdown (coveredBy "x" "b" "a" 50) (50 / 2) 50];
            offsetBreakdown :=
              Some [mkBreakdown (coveredBy "y" "a" "b" 20) (20 / 2) 20];
            grossOwed := Some 50; grossOffset := Some 20; forgiven := None |} ].
Proof. vm_compute. reflexivity. Qed.

(** The boundary is strict: a net amount of exactly 0.01 gives no
    settlement, a net amount of 0.011 gives one. *)
Lemma netting_boundary :
  calculateSettlements [coveredBy "x" "b" "a" 50.01] rosterAB
                       (Some [recordAB "r" 50 Forgiven])
  = Ok []
  ∧ calculateSettlements [coveredBy "x" "b" "a" 50.011] rosterAB
                         (Some [recordAB "r" 50 Forgiven])
    = Ok [ {| st_from := "A"; st_to := "B"; st_amount := 0.01 |} ].
Proof. split; vm_compute; reflexivity. Qed.

(** ** Attributions and the roster *)

Lemma flat_map_nil {A B} (f : A → list B) (l : list A) :
  (∀ x, x ∈ l → f x = []) → flat_map f l = [].
Proof.
  induction l as [|x l IH]; intros Hnil; [done|].
  cbn [flat_map]. rewrite Hnil by left. cbn [app]. apply IH.
  intros y Hy. apply Hnil. by right.
Qed.

Lemma flat_map_ext_elem {A B} (f g : A → list B) (l : list A) :
  (∀ x, x ∈ l → f x = g x) → flat_map f l = flat_map g l.
Proof.
  induction l as [|x l IH]; intros Hext; [done|].
  cbn [flat_map]. rewrite Hext by left. f_equal.
  apply IH. intros y Hy. apply Hext. by right.
Qed.

Lemma inferredAttributions_withinRoster (bill : Bill) (members : list Person) :
  withinRoster members (inferredAttributions bill members).
Proof.
  intros [[d c] e] (_ & Hd & Hc & Hnd & Hnc & _)%elem_of_inferredAttributions.
  cbn [fst snd]. split_and!; [done..|]. intros ->. lra.
Qed.

Lemma elem_of_coverageAttributions (bill : Bill) (shares : gmap string Q)
    (allocations : list CoverageAllocation) (r : Attribution) :
  r ∈ coverageAttributions bill shares allocations
  ↔ ∃ coverage, coverage ∈ allocations ∧ 0.01 < cov_amount coverage
                ∧ r = (coveredId coverage, payerId coverage,
                       mkBreakdown bill (Num.get0 shares (coveredId coverage))
                                   (cov_amount coverage)).
Proof.
  unfold coverageAttributions. rewrite elem_of_flat_map. split.
  - intros (coverage & Hin & Hr). exists coverage.
    destruct (0.01 <? cov_amount coverage) eqn:Hamount; [|by apply elem_of_nil in Hr].
    apply ltb_lt in Hamount. by apply list_elem_of_singleton in Hr.
  - intros (coverage & Hin & Hamount%ltb_lt & ->). exists coverage.
    rewrite Hamount. split; [done|]. by apply list_elem_of_singleton.
Qed.

Lemma withinRoster_iff (bills : list Bill) (members : list Person) :
  withinRoster members
    (flat_map (billAttributions members)
              (filter (λ bill, isPaidOrPartial bill = true) bills))
  ↔ coverageWithinRoster bills members.
Proof.
  split.
  - intros Hwr bill coverage Hbill Hq Hcov Hamount.
    apply (Hwr (coveredId coverage, payerId coverage,
                mkBreakdown bill
                  (Num.get0 (calculateBillShares bill members) (coveredId coverage))
                  (cov_amount coverage))).
    apply elem_of_flat_map. exists bill. split; [by apply list_elem_of_filter|].
    unfold billAttributions.
    destruct (coverageAllocations bill) as [[|c rest]|];
      [by apply elem_of_nil in Hcov| |by apply elem_of_nil in Hcov].
    apply elem_of_coverageAttributions. by exists coverage.
  - intros Hcov r (bill & [Hq Hbill]%list_elem_of_filter & Hr)%elem_of_flat_map.
    unfold billAttributions in Hr.
    destruct (coverageAllocations bill) as [[|c rest]|] eqn:Hallocs;
      [by apply (inferredAttributions_withinRoster bill members)| |
       by apply (inferredAttributions_withinRoster bill members)].
    apply elem_of_coverageAttributions in Hr as (coverage & Hin & Hamount & ->).
    cbn [fst snd]. apply (Hcov bill coverage); try done. by rewrite Hallocs.
Qed.

(** ** Inferred debts, on the whole resolver *)

Lemma entriesFor_flat_map {A} (d c : string) (f : A → list Attribution)
    (l : list A) :
  entriesFor d c (flat_map f l) = flat_map (λ x, entriesFor d c (f x)) l.
Proof.
  induction l as [|x l IH]; [done|].
  cbn [flat_map]. by rewrite entriesFor_app, IH.
Qed.

Lemma occurrences_cons (k : string) (m : Person) (members : list Person) :
  occurrences k (m :: members)
  = ((if bool_decide (person_id m = k) then 1 else 0)
     + occurrences k members)%nat.
Proof.
  unfold occurrences. rewrite filter_cons.
  case_decide; [by rewrite bool_decide_eq_true_2|by rewrite bool_decide_eq_false_2].
Qed.

(** Filtering the roster on a test of the id keeps all the members with the
    id [k], or none of them. *)
Lemma occurrences_filter (test : string → bool) (k : string)
    (members : list Person) :
  occurrences k (filter (λ m, test (person_id m) = true) members)
  = if test k then occurrences k members else 0%nat.
Proof.
  induction members as [|m members IH].
  - by destruct (test k).
  - rewrite filter_cons. case_decide as Htest.
    + rewrite !occurrences_cons, IH. destruct (test k) eqn:Hk; [done|].
      rewrite bool_decide_eq_false_2; [done|].
      intros Heq. rewrite Heq in Htest. congruence.
    + rewrite occurrences_cons, IH. destruct (test k) eqn:Hk; [|done].
      rewrite bool_decide_eq_false_2; [done|].
      intros Heq. rewrite Heq in Htest. congruence.
Qed.

Lemma flat_map_occurrences {B} (k : string) (items : list B)
    (members : list Person) :
  flat_map (λ m, if bool_decide (person_id m = k) then items else []) members
  = mjoin (replicate (occurrences k members) items).
Proof.
  induction members as [|m members IH]; [done|].
  cbn [flat_map]. rewrite occurrences_cons, IH.
  case_bool_decide; [done|]. done.
Qed.

Lemma join_replicate_replicate {B} (n k : nat) (x : B) :
  mjoin (replicate n (replicate k x)) = replicate (n * k) x.
Proof.
  induction n as [|n IH]; [done|].
  change (S n * k)%nat with (k + n * k)%nat.
  rewrite replicate_add, <- IH. done.
Qed.

Lemma join_replicate_singleton {B} (n : nat) (x : B) :
  mjoin (replicate n [x]) = replicate n x.
Proof.
  change [x] with (replicate 1 x).
  rewrite (join_replicate_replicate n 1 x). f_equal. lia.
Qed.

(** The items that a bill without coverage attributes from [d] to [c]: one
    for every member with the id [d] and every member with the id [c], when
    the bill passes the tests and the portion exceeds 0.01, and none
    otherwise. *)
Lemma entriesFor_inferred (bill : Bill) (members : list Person) (d c : string) :
  entriesFor d c (inferredAttributions bill members)
  = if inferenceApplies bill members
       && (0.01 <? netPosition bill members d)
       && (netPosition bill members c <? -0.01)
       && (0.01 <? inferredAmount bill members d c)
    then replicate (occurrences d members * occurrences c members)
                   (mkBreakdown bill
                      (Num.get0 (calculateBillShares bill members) d)
                      (inferredAmount bill members d c))
    else [].
Proof.
  unfold inferredAttributions.
  destruct (inferenceApplies bill members); [|done]. cbn [andb].
  set (entry := mkBreakdown bill _ (inferredAmount bill members d c)).
  set (creditors := filter _ members). set (debtors := filter _ members).
  rewrite entriesFor_flat_map.
  rewrite (flat_map_ext_elem _
             (λ debtor,
                if bool_decide (person_id debtor = d)
                then (if 0.01 <? inferredAmount bill members d c
                      then replicate (occurrences c creditors) entry else [])
                else [])).
  2:{ intros debtor _. rewrite entriesFor_flat_map.
      case_bool_decide as Hd.
      - rewrite Hd. fold entry.
        rewrite (flat_map_ext_elem _
                   (λ creditor,
                      if bool_decide (person_id creditor = c)
                      then (if 0.01 <? inferredAmount bill members d c
                            then [entry] else [])
                      else [])).
        2:{ intros creditor _. case_bool_decide as Hc.
            - rewrite Hc. destruct (0.01 <? inferredAmount bill members d c);
                [|done].
              rewrite entriesFor_cons. cbn [fst snd].
              by rewrite bool_decide_eq_true_2.
            - destruct (0.01 <? inferredAmount bill members d (person_id creditor));
                [|done].
              rewrite entriesFor_cons. cbn [fst snd].
              rewrite bool_decide_eq_false_2 by (intros [_ ?]; done). done. }
        rewrite flat_map_occurrences.
        destruct (0.01 <? inferredAmount bill members d c).
        + apply join_replicate_singleton.
        + by induction (occurrences c creditors).
      - apply flat_map_nil. intros creditor _.
        destruct (0.01 <? inferredAmount bill members (person_id debtor)
                          (person_id creditor)); [|done].
        rewrite entriesFor_cons. cbn [fst snd].
        rewrite bool_decide_eq_false_2 by (intros [? _]; done). done. }
  rewrite flat_map_occurrences. unfold debtors, creditors.
  rewrite (occurrences_filter (λ k, 0.01 <? netPosition bill members k)).
  rewrite (occurrences_filter (λ k, netPosition bill members k <? -0.01)).
  destruct (0.01 <? netPosition bill members d); [|done].
  destruct (netPosition bill members c <? -0.01); cbn [andb].
  - destruct (0.01 <? inferredAmount bill members d c).
    + apply join_replicate_replicate.
    + by induction (occurrences d members).
  - destruct (0.01 <? inferredAmount bill members d c).
    + rewrite join_replicate_replicate. by rewrite Nat.mul_0_r.
    + by induction (occurrences d members).
Qed.

Lemma inferred_test_spec (bill : Bill) (members : list Person) (d c : string) :
  inferenceApplies bill members
  && (0.01 <? netPosition bill members d)
  && (netPosition bill members c <? -0.01)
  && (0.01 <? inferredAmount bill members d c) = true
  ↔ (0.01 <= Num.sum_values (getBillContributions bill)
     ∧ 0.01 <= Num.sum_values (calculateBillShares bill members)
     ∧ Num.sum_values (calculateBillShares bill members) * 0.99
       <= Num.sum_values (getBillContributions bill))
    ∧ 0.01 <= totalOverpaid bill members
    ∧ 0.01 < netPosition bill members d
    ∧ netPosition bill members c < -0.01
    ∧ 0.01 < inferredAmount bill members d c.
Proof.
  rewrite !andb_true_iff, inferenceApplies_spec, !ltb_lt. tauto.
Qed.

(** C3, as corrected. On a snapshot whose coverage allocations above 0.01
    all join two distinct roster members, the resolver returns, and what it
    returns is the netting of the debt graph described here. The graph has,
    between two distinct roster members [d] and [c], the items of the paid
    or partially paid bills, bill after bill. A bill without coverage
    allocations gives items from [d] to [c] only when its totals are at
    least 0.01, [totalPaid >= totalShares * 0.99], the total overpayment is
    at least 0.01, the net position of [d] (share minus
    contribution-minus-credit-earned) is above 0.01, that of [c] is below
    -0.01, and the portion (the net position of [d] times the overpayment of
    [c] over the total overpayment) exceeds 0.01: then it gives one item of
    that portion for every member with the id [d] and every member with the
    id [c] (one item, when the ids are distinct), carrying the share of [d];
    otherwise it gives none, in particular when it fails the 0.99 test. In
    the scenario (bill of 100, 40 paid, no coverage) the resolver returns
    nothing while the balances are -20 and 20. *)
Theorem inference_only_when_fully_paid (bills : list Bill)
    (members : list Person) (settlementRecords : option (list SettlementRecord)) :
  coverageWithinRoster bills members →
  (∃ (billDebts : Debts)
     (entries : Bill → string → string → list SettlementBreakdown),
     buildDebts bills members = Ok billDebts
     ∧ calculateSettlementsWithBreakdown bills members settlementRecords
       = Ok (flat_map (pairSettlements members billDebts settlementRecords)
                      (nettedPairs members))
     ∧ (∀ d c,
          d ∈ map person_id members → c ∈ map person_id members → d ≠ c →
          debtsAt billDebts d c
          = Some (flat_map (λ bill, entries bill d c)
                           (filter (λ bill, isPaidOrPartial bill = true) bills)))
     ∧ (∀ bill d c,
          coverageAllocations bill = None ∨ coverageAllocations bill = Some [] →
          let shares := calculateBillShares bill members in
          let totalPaid := Num.sum_values (getBillContributions bill) in
          let totalShares := Num.sum_values shares in
          let fullyPaid :=
            0.01 <= totalPaid ∧ 0.01 <= totalShares
            ∧ totalShares * 0.99 <= totalPaid in
          let attributed :=
            fullyPaid
            ∧ 0.01 <= totalOverpaid bill members
            ∧ 0.01 < netPosition bill members d
            ∧ netPosition bill members c < -0.01
            ∧ 0.01 < inferredAmount bill members d c in
          (attributed →
           entries bill d c
           = replicate (occurrences d members * occurrences c members)
                       (mkBreakdown bill (Num.get0 shares d)
                                    (inferredAmount bill members d c)))
          ∧ (¬ attributed → entries bill d c = [])
          ∧ (totalPaid < totalShares * 0.99 → entries bill d c = [])))
  ∧ (∀ bill roster d c,
       netPosition bill roster d
       = Num.get0 (calculateBillShares bill roster) d
         - (Num.get0 (getBillContributions bill) d
            - match creditEarned bill with
              | Some earned => Num.get0 earned d
              | None => 0
              end)
       ∧ inferredAmount bill roster d c
         = netPosition bill roster d
           * (Qabs (netPosition bill roster c) / totalOverpaid bill roster)
       ∧ totalOverpaid bill roster
         == Num.sum_list
              (map (λ m, Qabs (netPosition bill roster (person_id m)))
                   (filter (λ m, (netPosition bill roster (person_id m) <? -0.01)
                                 = true)
                           roster)))
  ∧ coverageAllocations partialScenarioBill = None
  ∧ isPaidOrPartial partialScenarioBill = true
  ∧ getTotalPaid partialScenarioBill = 40
  ∧ calculateSettlementsWithBreakdown [partialScenarioBill] rosterAB None = Ok []
  ∧ calculateBalances [partialScenarioBill] rosterAB
    = [ {| personId := "a"; personName := "A"; owes := Some (-20) |};
        {| personId := "b"; personName := "B"; owes := Some 20 |} ].
Proof.
  intros Hcov.
  split; [|split; [apply inference_definitions|apply partial_scenario]].
  apply withinRoster_iff in Hcov.
  destruct (buildDebts_closed bills members Hcov) as (g & Hg & _ & Hat).
  exists g, (λ bill d c, entriesFor d c (billAttributions members bill)).
  split_and!; [done|by apply calculateSettlements_closed| |].
  - intros d c Hd Hc Hdc. rewrite Hat, bool_decide_eq_true_2 by done.
    by rewrite entriesFor_flat_map.
  - intros bill d c Hnone. cbn zeta.
    assert (billAttributions members bill = inferredAttributions bill members)
      as -> by (unfold billAttributions; by destruct Hnone as [-> | ->]).
    rewrite entriesFor_inferred.
    pose proof (inferred_test_spec bill members d c) as Htest.
    destruct (inferenceApplies bill members && _ && _ && _).
    + split_and!; [done| |].
      * intros Hnot. destruct Hnot. by apply Htest.
      * intros Hpartial. apply proj1 in Htest.
        destruct (Htest eq_refl) as ((_ & _ & Hfull) & _). lra.
    + split_and!; [|done..].
      intros Hyes. apply Htest in Hyes. discriminate.
Qed.

Lemma inference_only_when_fully_paid_witness :
  ∃ billDebts,
    buildDebts [paidInFullBy "a" (evenBill "x" 100)] rosterAB = Ok billDebts
    ∧ calculateSettlementsWithBreakdown [paidInFullBy "a" (evenBill "x" 100)]
                                        rosterAB None
      = Ok (flat_map (pairSettlements rosterAB billDebts None)
                     (nettedPairs rosterAB))
    ∧ debtsAt billDebts "b" "a"
      = Some [mkBreakdown (paidInFullBy "a" (evenBill "x" 100))
                (Num.get0 (calculateBillShares
                             (paidInFullBy "a" (evenBill "x" 100)) rosterAB) "b")
                (inferredAmount (paidInFullBy "a" (evenBill "x" 100))
                                rosterAB "b" "a")].
Proof.
  destruct (inference_only_when_fully_paid
              [paidInFullBy "a" (evenBill "x" 100)] rosterAB None)
    as [(billDebts & entries & Hbuild & Hrun & Hgraph & Hentries) _].
  - intros bill coverage ->%list_elem_of_singleton _ Hin.
    by apply elem_of_nil in Hin.
  - exists billDebts. split_and!; [done..|].
    rewrite Hgraph; [|compute_done..].
    destruct (Hentries (paidInFullBy "a" (evenBill "x" 100)) "b" "a")
      as (Hyes & _); [by left|].
    cbn zeta in Hyes.
    rewrite filter_cons, decide_True by reflexivity.
    rewrite filter_nil. cbn [flat_map]. rewrite app_nil_r, Hyes; [done|].
    split_and!; vm_compute; (reflexivity || discriminate).
Defined.

(** C3 as stated fails where a portion is small: on a bill of 4
    paid in full by four members who paid 1 each, D's net position is 0.03,
    the resolver attributes debts for the bill (E owes each of the four
    0.99), and yet nothing of D's 0.03 is attributed to anybody: each of
    D's four portions is 0.0075, which the test [amount > 0.01] drops. *)
Lemma inference_drops_small_portions :
  isPaidOrPartial smallPortionBill = true
  ∧ coverageAllocations smallPortionBill = None
  ∧ Num.sum_values (getBillContributions smallPortionBill) == 4
  ∧ Num.sum_values (calculateBillShares smallPortionBill rosterOfSix) == 4
  ∧ netPosition smallPortionBill rosterOfSix "d" == 0.03
  ∧ Forall (λ c, netPosition smallPortionBill rosterOfSix c == -1
                 ∧ inferredAmount smallPortionBill rosterOfSix "d" c == 0.0075)
           ["c1"; "c2"; "c3"; "c4"]
  ∧ (∃ billDebts,
       buildDebts [smallPortionBill] rosterOfSix = Ok billDebts
       ∧ Forall (λ c, debtsAt billDebts "d" c = Some [])
                ["c1"; "c2"; "c3"; "c4"; "e"])
  ∧ calculateSettlements [smallPortionBill] rosterOfSix None
    = Ok [ {| st_from := "E"; st_to := "C1"; st_amount := 0.99 |};
           {| st_from := "E"; st_to := "C2"; st_amount := 0.99 |};
           {| st_from := "E"; st_to := "C3"; st_amount := 0.99 |};
           {| st_from := "E"; st_to := "C4"; st_amount := 0.99 |} ]
  ∧ calculateBalances [smallPortionBill] rosterOfSix
    = [ {| personId := "c1"; personName := "C1"; owes := Some (-1) |};
        {| personId := "c2"; personName := "C2"; owes := Some (-1) |};
        {| personId := "c3"; personName := "C3"; owes := Some (-1) |};
        {| personId := "c4"; personName := "C4"; owes := Some (-1) |};
        {| personId := "d"; personName := "D"; owes := Some 0.03 |};
        {| personId := "e"; personName := "E"; owes := Some 3.97 |} ].
Proof.
  split_and!; try (vm_compute; reflexivity).
  - repeat constructor; vm_compute; reflexivity.
  - eexists. split; [vm_compute; reflexivity|].
    repeat constructor; vm_compute; reflexivity.
Qed.

(** ** Share calculator *)

Lemma sum_values_delete (m : gmap string Q) (k : string) :
  Num.sum_values m == Num.sum_values (delete k m) + Num.get0 m k.
Proof.
  unfold Num.get0. destruct (m !! k) as [v|] eqn:Hk.
  - rewrite <- (insert_delete_id m k v Hk) at 1.
    rewrite sum_values_insert by apply lookup_delete_eq. reflexivity.
  - rewrite delete_id by done. cbn. lra.
Qed.

(** Writing a key changes the sum of the values by the difference between
    the new and the old value. *)
Lemma sum_values_insert_any (m : gmap string Q) (k : string) (v : Q) :
  Num.sum_values (<[k:=v]> m) == Num.sum_values m - Num.get0 m k + v.
Proof.
  rewrite <- insert_delete_eq, sum_values_insert by apply lookup_delete_eq.
  rewrite (sum_values_delete m k). lra.
Qed.

Lemma sum_values_foldl_insert (key : Person → string) (val : Person → Q)
    (members : list Person) (m0 : gmap string Q) :
  NoDup (map key members) →
  (∀ p, p ∈ members → m0 !! key p = None) →
  Num.sum_values (foldl (λ m p, <[key p := val p]> m) m0 members)
  == Num.sum_values m0 + Num.sum_list (map val members).
Proof.
  revert m0. induction members as [|p members IH]; intros m0 Hnd Hfresh.
  - cbn [foldl map]. rewrite sum_list_nil. lra.
  - cbn [foldl map] in *. apply NoDup_cons in Hnd as [Hp Hnd].
    rewrite IH, sum_values_insert, sum_list_cons; [lra|apply Hfresh; by left|done|].
    intros q Hq. rewrite lookup_insert_ne; [apply Hfresh; by right|].
    intros Heq. apply Hp. rewrite Heq. apply list_elem_of_fmap. eauto.
Qed.

Lemma dom_foldl_insert {A} (key : Person → string) (val : Person → A)
    (members : list Person) (m0 : gmap string A) :
  dom (foldl (λ m p, <[key p := val p]> m) m0 members)
  = dom m0 ∪ list_to_set (map key members).
Proof.
  revert m0. induction members as [|p members IH]; intros m0.
  - cbn. set_solver.
  - cbn [foldl map list_to_set]. rewrite IH, dom_insert_L. set_solver.
Qed.

Lemma sum_list_const {A} (c : Q) (l : list A) :
  Num.sum_list (map (λ _, c) l) == c * inject_Z (Z.of_nat (length l)).
Proof.
  induction l as [|x l IH].
  - cbn [map length]. rewrite sum_list_nil. change (inject_Z (Z.of_nat 0)) with 0. lra.
  - cbn [map]. rewrite sum_list_cons, IH.
    replace (Z.of_nat (length (x :: l))) with (Z.of_nat (length l) + 1)%Z
      by (cbn [length]; lia).
    rewrite inject_Z_plus. change (inject_Z 1) with 1. lra.
Qed.

Lemma even_shares_lookup (bill : Bill) (members : list Person) (m : Person) :
  splitType bill = Even → m ∈ members →
  calculateBillShares bill members !! person_id m
  = Some (amount bill / inject_Z (Z.of_nat (length members))).
Proof.
  intros Heven Hm. unfold calculateBillShares. rewrite Heven. cbn zeta.
  by apply (foldl_insert_lookup person_id
              (λ _, amount bill / inject_Z (Z.of_nat (length members)))).
Qed.

Lemma even_shares_sum (bill : Bill) (members : list Person) :
  splitType bill = Even → members ≠ [] → NoDup (map person_id members) →
  Num.sum_values (calculateBillShares bill members) == amount bill.
Proof.
  intros Heven Hne Hnd. unfold calculateBillShares. rewrite Heven. cbn zeta.
  set (evenShare := amount bill / inject_Z (Z.of_nat (length members))).
  rewrite (sum_values_foldl_insert person_id (λ _, evenShare)) by done.
  rewrite sum_values_empty, sum_list_const. unfold evenShare.
  assert (¬ inject_Z (Z.of_nat (length members)) == 0) as Hn.
  { destruct members; [done|]. cbn [length]. unfold Qeq. cbn. lia. }
  field. exact Hn.
Qed.

(** X1. An even split over a non-empty roster with distinct ids gives every
    member, and nobody else, the amount divided by the number of members,
    and the shares add up to the amount. *)
Theorem even_shares_conserve (bill : Bill) (members : list Person) :
  splitType bill = Even →
  members ≠ [] →
  NoDup (map person_id members) →
  let shares := calculateBillShares bill members in
  (∀ m, m ∈ members →
     shares !! person_id m
     = Some (amount bill / inject_Z (Z.of_nat (length members))))
  ∧ dom shares = list_to_set (map person_id members)
  ∧ Num.sum_values shares == amount bill.
Proof.
  intros Heven Hne Hnd. cbn zeta. split_and!.
  - intros m Hm. by apply even_shares_lookup.
  - unfold calculateBillShares. rewrite Heven. cbn zeta.
    rewrite dom_foldl_insert. set_solver.
  - by apply even_shares_sum.
Qed.

Lemma even_shares_conserve_witness :
  Num.sum_values (calculateBillShares (evenBill "x" 100) rosterOfSeven) == 100.
Proof.
  apply (even_shares_conserve (evenBill "x" 100) rosterOfSeven).
  - reflexivity.
  - discriminate.
  - compute_done.
Defined.

(** The inner loop of an item: every assignee's share grows by the same
    amount, so the sum grows by that amount times the number of assignees. *)
Lemma assign_item_sum (perPerson : Q) (assignees : list string)
    (shares : gmap string Q) :
  Num.sum_values
    (foldl (λ shares personId,
              <[personId := Num.get0 shares personId + perPerson]> shares)
           shares assignees)
  == Num.sum_values shares
     + perPerson * inject_Z (Z.of_nat (length assignees)).
Proof.
  revert shares. induction assignees as [|p assignees IH]; intros shares.
  - cbn [foldl length]. change (inject_Z (Z.of_nat 0)) with 0. lra.
  - cbn [foldl]. rewrite IH, sum_values_insert_any.
    replace (Z.of_nat (length (p :: assignees)))
      with (Z.of_nat (length assignees) + 1)%Z by (cbn [length]; lia).
    rewrite inject_Z_plus. change (inject_Z 1) with 1. lra.
Qed.

Lemma zeroed_shares_sum (members : list Person) (m0 : gmap string Q) :
  Num.sum_values m0 == 0 → (∀ k, Num.get0 m0 k == 0) →
  Num.sum_values (foldl (λ shares member, <[person_id member := 0]> shares)
                        m0 members) == 0.
Proof.
  revert m0. induction members as [|p members IH]; intros m0 Hsum Hzero; [done|].
  cbn [foldl]. apply IH.
  - rewrite sum_values_insert_any, Hsum, Hzero. lra.
  - intros k. unfold Num.get0. rewrite lookup_insert. case_decide; [reflexivity|].
    apply Hzero.
Qed.

(** X2. An items split shares out exactly the items that have at least one
    assignee: the shares add up to the sum of the amounts of those items,
    whoever the assignees are (on the roster or not, repeated or not). *)
Theorem items_shares_conserve (bill : Bill) (members : list Person)
    (its : list ReceiptItem) :
  splitType bill = Items →
  items bill = Some its →
  Num.sum_values (calculateBillShares bill members)
  == Num.sum_list
       (map item_amount (filter (λ item, assignedTo item ≠ []) its)).
Proof.
  intros Hitems Hits. unfold calculateBillShares. rewrite Hitems, Hits.
  clear Hits.
  assert (∀ shares0 : gmap string Q,
            Num.sum_values
              (foldl (λ shares item,
                        match assignedTo item with
                        | [] => shares
                        | _ :: _ =>
                            foldl (λ shares personId,
                                     <[personId :=
                                         Num.get0 shares personId
                                         + item_amount item
                                           / inject_Z (Z.of_nat
                                                         (length (assignedTo item)))]>
                                       shares)
                                  shares (assignedTo item)
                        end)
                     shares0 its)
            == Num.sum_values shares0
               + Num.sum_list
                   (map item_amount (filter (λ item, assignedTo item ≠ []) its)))
    as Hloop.
  { induction its as [|item its' IH]; intros shares0.
    - cbn [foldl filter map]. rewrite filter_nil. cbn [map]. rewrite sum_list_nil. lra.
    - cbn [foldl]. rewrite IH, filter_cons.
      destruct (assignedTo item) as [|p ps] eqn:Hassigned.
      + rewrite decide_False by auto. lra.
      + rewrite decide_True by done. cbn [map]. rewrite sum_list_cons.
        rewrite assign_item_sum.
        assert (¬ inject_Z (Z.of_nat (length (p :: ps))) == 0) as Hn
          by (cbn [length]; unfold Qeq; cbn; lia).
        set (n := inject_Z (Z.of_nat (length (p :: ps)))) in *.
        assert (item_amount item / n * n == item_amount item) as Hdiv
          by (field; exact Hn).
        lra. }
  rewrite Hloop, zeroed_shares_sum; [lra|by rewrite sum_values_empty|].
  intros k. unfold Num.get0. by rewrite lookup_empty.
Qed.

Lemma items_shares_conserve_witness :
  Num.sum_values
    (calculateBillShares
       {| bill_id := "x"; bill_name := "x"; amount := 50;
          dueDate := "2024-01-15"; category := CatGroceries;
          splitType := Items; paidBy := None; paidContributions := None;
          creditEarned := None; coverageAllocations := None; isPaid := false;
          customSplits := None;
          items := Some [ {| item_id := "1"; item_name := "milk";
                             item_amount := 30; assignedTo := ["a"; "b"] |};
                          {| item_id := "2"; item_name := "tea";
                             item_amount := 20; assignedTo := ["a"] |};
                          {| item_id := "3"; item_name := "gum";
                             item_amount := 5; assignedTo := [] |} ] |}
       rosterAB)
  == 50.
Proof.
  rewrite (items_shares_conserve _ rosterAB
             [ {| item_id := "1"; item_name := "milk";
                  item_amount := 30; assignedTo := ["a"; "b"] |};
               {| item_id := "2"; item_name := "tea";
                  item_amount := 20; assignedTo := ["a"] |};
               {| item_id := "3"; item_name := "gum";
                  item_amount := 5; assignedTo := [] |} ]).
  - vm_compute. reflexivity.
  - reflexivity.
  - reflexivity.
Defined.

(** X3. A mortgage split gives every member of a roster with distinct ids
    their own [mortgageShare], whatever the amount of the bill is; the
    shares add up to the sum of the members' mortgage shares. *)
Theorem mortgage_shares_ignore_amount (bill : Bill) (members : list Person) :
  splitType bill = Mortgage →
  NoDup (map person_id members) →
  let shares := calculateBillShares bill members in
  (∀ m, m ∈ members → shares !! person_id m = Some (mortgageShare m))
  ∧ dom shares = list_to_set (map person_id members)
  ∧ Num.sum_values shares == Num.sum_list (map mortgageShare members).
Proof.
  intros Hm Hnd. unfold calculateBillShares. rewrite Hm. cbn zeta. split_and!.
  - intros m Hin. apply (foldl_insert_lookup person_id mortgageShare); [done|].
    intros q Hq Heq. by rewrite (NoDup_fmap_eq person_id members q m).
  - rewrite dom_foldl_insert. set_solver.
  - rewrite (sum_values_foldl_insert person_id mortgageShare) by done.
    rewrite sum_values_empty. lra.
Qed.

Lemma mortgage_shares_ignore_amount_witness :
  Num.sum_values (calculateBillShares mortgageBill HOUSEHOLD_MEMBERS)
  == Num.sum_list (map mortgageShare HOUSEHOLD_MEMBERS).
Proof.
  apply (mortgage_shares_ignore_amount mortgageBill HOUSEHOLD_MEMBERS).
  - reflexivity.
  - compute_done.
Defined.

(** X4. A percentage split gives every member of the roster the bill
    amount times their percentage over 100, a missing percentage counting as
    zero; on a roster with distinct ids the shares add up to the amount
    times the sum of the members' percentages over 100, hence to the amount
    when those percentages add up to 100. *)
Theorem percentage_shares (bill : Bill) (members : list Person)
    (splits : gmap string Q) :
  splitType bill = Percentage →
  customSplits bill = Some splits →
  NoDup (map person_id members) →
  let shares := calculateBillShares bill members in
  let percentages :=
    Num.sum_list (map (λ m, Num.get0 splits (person_id m)) members) in
  (∀ m, m ∈ members →
     shares !! person_id m
     = Some (Num.get0 splits (person_id m) / 100 * amount bill))
  ∧ dom shares = list_to_set (map person_id members)
  ∧ Num.sum_values shares == percentages / 100 * amount bill
  ∧ (percentages == 100 → Num.sum_values shares == amount bill).
Proof.
  intros Hp Hs Hnd. unfold calculateBillShares. rewrite Hp, Hs. cbn zeta.
  assert (Num.sum_values
            (foldl (λ shares member,
                      <[person_id member :=
                          Num.get0 splits (person_id member) / 100 * amount bill]>
                        shares) ∅ members)
          == Num.sum_list (map (λ m, Num.get0 splits (person_id m)) members)
             / 100 * amount bill) as Hsum.
  { rewrite (sum_values_foldl_insert person_id
               (λ m, Num.get0 splits (person_id m) / 100 * amount bill)) by done.
    rewrite sum_values_empty. clear.
    induction members as [|m members IH]; cbn [map].
    - rewrite sum_list_nil. unfold Qdiv. lra.
    - rewrite !sum_list_cons. unfold Qdiv in *.
      change (/ 100) with (1 # 100) in *. lra. }
  split_and!.
  - intros m Hin.
    apply (foldl_insert_lookup person_id
             (λ m, Num.get0 splits (person_id m) / 100 * amount bill)); [done|].
    intros q Hq Heq. by rewrite Heq.
  - rewrite dom_foldl_insert. set_solver.
  - exact Hsum.
  - intros H100. rewrite Hsum, H100. unfold Qdiv. change (/ 100) with (1 # 100). lra.
Qed.

Lemma percentage_shares_witness :
  Num.sum_values (calculateBillShares percentageBill rosterAB) == 200.
Proof.
  apply (percentage_shares percentageBill rosterAB {["a" := 60; "b" := 40]}).
  - reflexivity.
  - reflexivity.
  - compute_done.
  - vm_compute. reflexivity.
Defined.

Lemma calculateBalances_ignores (bill : Bill) (bills : list Bill)
    (members : list Person) :
  (∀ k, billDelta members bill k == 0) →
  calculateBalances (bill :: bills) members = calculateBalances bills members.
Proof.
  intros Hzero. rewrite !calculateBalances_closed. apply map_ext. intros m.
  f_equal. f_equal. apply round2_proper. unfold rawBalance.
  rewrite filter_cons. case_decide; [|reflexivity].
  cbn [map]. rewrite sum_list_cons, Hzero. lra.
Qed.

(** X5. A percentage or custom bill without [customSplits], or an items
    bill without [items], has no shares at all. Such a bill, whoever paid
    it, leaves every reported balance as it is, and when it carries no
    coverage allocation it adds nothing to the debt graph. *)
Theorem missing_split_data_is_ignored (bill : Bill) (members : list Person) :
  (splitType bill = Percentage ∧ customSplits bill = None)
  ∨ (splitType bill = Custom ∧ customSplits bill = None)
  ∨ (splitType bill = Items ∧ items bill = None) →
  calculateBillShares bill members = ∅
  ∧ (∀ bills, calculateBalances (bill :: bills) members
              = calculateBalances bills members)
  ∧ (coverageAllocations bill = None ∨ coverageAllocations bill = Some [] →
     ∀ billDebts, attributeBill members bill billDebts = Ok billDebts).
Proof.
  intros Hmissing.
  assert (calculateBillShares bill members = ∅) as Hempty.
  { unfold calculateBillShares.
    by destruct Hmissing as [[-> ->]|[[-> ->]|[-> ->]]]. }
  split_and!; [done| |].
  - intros bills. apply calculateBalances_ignores. intros k.
    unfold billDelta. rewrite Hempty, sum_values_empty.
    change (0 <? 0.01) with true. by rewrite orb_true_r.
  - intros Hcov billDebts. unfold attributeBill, attributeInferred.
    rewrite Hempty, sum_values_empty.
    change (0 <? 0.01) with true. rewrite orb_true_r.
    by destruct Hcov as [-> | ->].
Qed.

Lemma missing_split_data_is_ignored_witness :
  calculateBalances [percentageBillWithoutSplits] rosterAB
  = calculateBalances [] rosterAB.
Proof.
  apply (missing_split_data_is_ignored percentageBillWithoutSplits rosterAB).
  left. split; reflexivity.
Defined.

(** ** Paid and remaining amounts *)

(** X6. The remaining amount of a bill is never negative; it is the amount
    minus the total paid while the total paid does not exceed the amount,
    and zero from then on. A bill is fully paid within a non-negative
    tolerance exactly when its remaining amount is at most the tolerance. *)
Theorem getRemainingAmount_spec (bill : Bill) (tolerance : Q) :
  0 <= tolerance →
  0 <= getRemainingAmount bill
  ∧ (getTotalPaid bill <= amount bill →
     getRemainingAmount bill == amount bill - getTotalPaid bill)
  ∧ (amount bill <= getTotalPaid bill → getRemainingAmount bill == 0)
  ∧ (isBillFullyPaid bill tolerance = true
     ↔ getRemainingAmount bill <= tolerance).
Proof.
  intros Htol. unfold getRemainingAmount, isBillFullyPaid. rewrite geb_ge.
  destruct (Q.max_spec 0 (amount bill - getTotalPaid bill)) as [[Hlt ->]|[Hle ->]];
    split_and!; try lra; split; lra.
Qed.

Lemma getRemainingAmount_spec_witness :
  getRemainingAmount partialScenarioBill == 60
  ∧ isBillFullyPaid partialScenarioBill 0.01 = false.
Proof.
  destruct (getRemainingAmount_spec partialScenarioBill 0.01) as (_ & H & _ & Hfull).
  - vm_compute. discriminate.
  - split.
    + rewrite H; vm_compute; [reflexivity|discriminate].
    + apply not_true_iff_false. rewrite Hfull. vm_compute. by intros H'.
Defined.

(** X8. With a contributions map the paid amount of types.ts is the total
    paid of bill-utils.ts. Without one the two agree exactly when the bill
    is marked paid and has a payer, or is not marked paid and has none (or
    its amount is zero): the first looks at [isPaid], the second at
    [paidBy]. A bill whose status is [Partial] has a positive paid amount
    and a remaining amount strictly between zero and the bill amount. *)
Theorem getBillPaidAmount_spec (parseDate : string → option Z) (now : Z)
    (bill : Bill) :
  (is_Some (paidContributions bill) →
   getBillPaidAmount bill = getTotalPaid bill)
  ∧ (paidContributions bill = None →
     (getBillPaidAmount bill == getTotalPaid bill
      ↔ isPaid bill = truthy (paidBy bill) ∨ amount bill == 0))
  ∧ (getBillStatus parseDate now bill = Partial →
     0 < getBillPaidAmount bill
     ∧ 0 < getBillRemainingAmount bill
     ∧ getBillRemainingAmount bill < amount bill).
Proof.
  split_and!.
  - intros [c Hc]. unfold getBillPaidAmount, getTotalPaid, getBillContributions.
    by rewrite Hc.
  - intros Hnone.
    unfold getBillPaidAmount, getTotalPaid, getBillContributions, truthy.
    rewrite Hnone.
    destruct (paidBy bill) as [payer|]; [destruct (String.eqb payer "")|];
      cbn [negb]; rewrite ?sum_values_singleton, ?sum_values_empty;
      destruct (isPaid bill); split; try (intros [?|?]); try done; intros;
      try (by left); try (right; lra); try lra.
  - intros Hpartial.
    assert (isPaid bill = false) as Hunpaid.
    { unfold getBillStatus in Hpartial. by destruct (isPaid bill). }
    apply getBillStatus_partial_iff in Hpartial as (c & Hc & H0 & Hlt); [|done].
    unfold getBillRemainingAmount, getBillPaidAmount. rewrite Hc. lra.
Qed.

(** ** Net positions *)

Lemma get0_Some (m : gmap string Q) (k : string) (v : Q) :
  m !! k = Some v → Num.get0 m k = v.
Proof. unfold Num.get0. by intros ->. Qed.



(** X7. On a roster with distinct ids, [calculateNetPositions] gives every
    member, and nobody else, their share minus what they paid (a missing
    share or payment counting as zero). When all share holders and payers
    of the bill are on the roster, the net positions add up to the total of
    the shares minus the total paid; and without [creditEarned] they are the
    net positions that the settlement resolver works with. *)
Theorem calculateNetPositions_spec (bill : Bill) (members : list Person) :
  NoDup (map person_id members) →
  let shares := calculateBillShares bill members in
  let contributions := getBillContributions bill in
  let nets := calculateNetPositions bill members in
  let roster : gset string := list_to_set (map person_id members) in
  (∀ m, m ∈ members →
     nets !! person_id m
     = Some (Num.get0 shares (person_id m) - Num.get0 contributions (person_id m)))
  ∧ dom nets = roster
  ∧ (dom shares ⊆ roster → dom contributions ⊆ roster →
     Num.sum_values nets == Num.sum_values shares - Num.sum_values contributions)
  ∧ (creditEarned bill = None →
     ∀ k, k ∈ roster → Num.get0 nets k == netPosition bill members k).
Proof.
  intros Hnd shares contributions nets roster.
  assert (∀ m, m ∈ members →
            nets !! person_id m
            = Some (Num.get0 shares (person_id m)
                    - Num.get0 contributions (person_id m))) as Hlookup.
  { intros m Hm. unfold nets, calculateNetPositions.
    apply (foldl_insert_lookup person_id
             (λ m, Num.get0 shares (person_id m)
                   - Num.get0 contributions (person_id m))); [done|].
    intros q _ Heq. by rewrite Heq. }
  split_and!; [done| | |].
  - unfold nets, calculateNetPositions. rewrite dom_foldl_insert. set_solver.
  - intros Hs Hc. unfold nets, calculateNetPositions. cbn zeta.
    fold shares contributions.
    rewrite (sum_values_foldl_insert person_id
               (λ m, Num.get0 shares (person_id m)
                     - Num.get0 contributions (person_id m))) by done.
    rewrite sum_values_empty.
    assert (∀ m : gmap string Q, dom m ⊆ roster →
              ∀ k, is_Some (m !! k) → k ∈ map person_id members) as Hdom.
    { intros m Hm k Hk. apply elem_of_dom in Hk. apply Hm in Hk.
      by apply elem_of_list_to_set in Hk. }
    rewrite <- (sum_get0_keys shares _ Hnd (Hdom _ Hs)).
    rewrite <- (sum_get0_keys contributions _ Hnd (Hdom _ Hc)).
    rewrite !map_map.
    rewrite (sum_list_ext _ (λ m, 1 * Num.get0 shares (person_id m)
                                  - Num.get0 contributions (person_id m)))
      by (intros; lra).
    rewrite sum_list_scale_minus. lra.
  - intros Hcredit k (m & -> & Hm)%elem_of_list_to_set%list_elem_of_fmap.
    rewrite (get0_Some _ _ _ (Hlookup m Hm)).
    unfold netPosition. rewrite Hcredit. fold shares contributions. lra.
Qed.

Lemma calculateNetPositions_spec_witness :
  Num.sum_values (calculateNetPositions (paidInFullBy "a" (evenBill "x" 100))
                                        rosterAB)
  == Num.sum_values (calculateBillShares (paidInFullBy "a" (evenBill "x" 100))
                                         rosterAB)
     - Num.sum_values (getBillContributions (paidInFullBy "a" (evenBill "x" 100))).
Proof.
  apply (calculateNetPositions_spec (paidInFullBy "a" (evenBill "x" 100)) rosterAB).
  - compute_done.
  - compute_done.
  - compute_done.
Defined.






(** ** More on the settlement resolver *)

Lemma round2_ge_cent (x : Q) : 0.01 < x → 0.01 <= Num.round2 x.
Proof.
  intros Hx. rewrite round2_eq.
  assert (Qfloor 1 <= Qfloor (x * 100 + (1 # 2)))%Z as Hfloor
    by (apply Qfloor_resp_le; lra).
  change (Qfloor 1) with 1%Z in Hfloor. rewrite Zle_Qle in Hfloor. change (inject_Z 1) with 1 in Hfloor.
  unfold Qdiv. change (/ 100) with (1 # 100). lra.
Qed.

Lemma elem_of_settleBetween (memberMap : gmap string string)
    (settlementRecords : option (list SettlementRecord)) (a b : string)
    (aOwesB bOwesA : list SettlementBreakdown) (s : SettlementWithBreakdown) :
  s ∈ settleBetween memberMap settlementRecords a b aOwesB bOwesA →
  0.01 <= s_amount s
  ∧ (breakdown s = aOwesB ∧ from s = default "" (memberMap !! a)
     ∧ to s = default "" (memberMap !! b)
     ∨ breakdown s = bOwesA ∧ from s = default "" (memberMap !! b)
       ∧ to s = default "" (memberMap !! a)).
Proof.
  unfold settleBetween.
  destruct (0.01 <? Qabs _) eqn:Hbig; [|by intros ?%elem_of_nil].
  apply ltb_lt in Hbig.
  destruct (0 <? _) eqn:Hpos; intros ->%list_elem_of_singleton;
    cbn [s_amount breakdown from to mkSettlement].
  - apply ltb_lt in Hpos. split; [|left; done].
    apply round2_ge_cent. revert Hbig. apply Qabs_case; intros; lra.
  - split; [|right; done]. by apply round2_ge_cent.
Qed.

(** X11. Whatever the snapshot, a settlement that the resolver emits has an
    amount of at least 0.01: no zero or negative payment is ever asked
    for. *)
Theorem settlements_are_at_least_a_cent (bills : list Bill)
    (members : list Person) (settlementRecords : option (list SettlementRecord))
    (out : list SettlementWithBreakdown) (s : SettlementWithBreakdown) :
  calculateSettlementsWithBreakdown bills members settlementRecords = Ok out →
  s ∈ out →
  0.01 <= s_amount s.
Proof.
  intros Hrun Hs.
  destruct (buildDebts bills members) as [g|e] eqn:Hg.
  2:{ unfold calculateSettlementsWithBreakdown in Hrun. by rewrite Hg in Hrun. }
  rewrite (calculateSettlements_closed _ _ _ _ Hg) in Hrun. injection Hrun as <-.
  apply elem_of_flat_map in Hs as (pair & _ & Hs).
  unfold pairSettlements in Hs.
  destruct (debtsAt g (person_id pair.1) (person_id pair.2)); [|by apply elem_of_nil in Hs].
  destruct (debtsAt g (person_id pair.2) (person_id pair.1)); [|by apply elem_of_nil in Hs].
  by apply elem_of_settleBetween in Hs as [? _].
Qed.

Lemma settlements_are_at_least_a_cent_witness :
  0.01 <= 0.01.
Proof.
  apply (settlements_are_at_least_a_cent [coveredBy "x" "b" "a" 50.011] rosterAB
           (Some [recordAB "r" 50 Forgiven])
           [ {| from := "A"; to := "B"; s_amount := 0.01;
                breakdown := [mkBreakdown (coveredBy "x" "b" "a" 50.011)
                                          (50.011 / 2) 50.011];
                offsetBreakdown := None; grossOwed := Some 50.01;
                grossOffset := None; forgiven := Some 50 |} ]
           {| from := "A"; to := "B"; s_amount := 0.01;
              breakdown := [mkBreakdown (coveredBy "x" "b" "a" 50.011)
                                        (50.011 / 2) 50.011];
              offsetBreakdown := None; grossOwed := Some 50.01;
              grossOffset := None; forgiven := Some 50 |}).
  - vm_compute. reflexivity.
  - by left.
Defined.

Lemma filter_none {A} (P : A → Prop) `{!∀ x, Decision (P x)} (l : list A) :
  (∀ x, x ∈ l → ¬ P x) → filter P l = [].
Proof.
  induction l as [|x l IH]; intros Hnone; [done|].
  rewrite filter_cons_False by (apply Hnone; by left).
  apply IH. intros y Hy. apply Hnone. by right.
Qed.

(** X12. When no bill is paid or partially paid and there is no settlement
    record, every member of the roster, whatever the roster is, is reported
    with a balance of zero and the resolver returns no settlement. *)
Theorem nothing_paid_nothing_owed (bills : list Bill) (members : list Person) :
  (∀ bill, bill ∈ bills → isPaidOrPartial bill = false) →
  calculateBalances bills members
  = map (λ m, {| personId := person_id m; personName := person_name m;
                 owes := Some 0 |}) members
  ∧ calculateSettlementsWithBreakdown bills members None = Ok []
  ∧ calculateSettlementsWithBreakdown bills members (Some []) = Ok [].
Proof.
  intros Hunpaid.
  assert (filter (λ bill, isPaidOrPartial bill = true) bills = []) as Hfilter.
  { apply filter_none. intros bill Hin. rewrite (Hunpaid bill Hin). discriminate. }
  assert (buildDebts bills members = Ok (initDebts members)) as Hg.
  { unfold buildDebts. by rewrite Hfilter. }
  assert (∀ records, records = None ∨ records = Some [] →
            calculateSettlementsWithBreakdown bills members records = Ok [])
    as Hnone.
  { intros records Hrecords. rewrite (calculateSettlements_closed _ _ _ _ Hg).
    f_equal. apply flat_map_nil. intros pair _. unfold pairSettlements.
    rewrite !initDebts_debtsAt.
    repeat case_bool_decide; try done.
    by destruct Hrecords as [-> | ->]. }
  split_and!; [|by apply Hnone; left|by apply Hnone; right].
  rewrite calculateBalances_closed. apply map_ext. intros m.
  unfold rawBalance. by rewrite Hfilter.
Qed.

Lemma nothing_paid_nothing_owed_witness :
  calculateSettlementsWithBreakdown [evenBill "x" 100; percentageBill]
                                    HOUSEHOLD_MEMBERS None = Ok [].
Proof.
  apply (nothing_paid_nothing_owed [evenBill "x" 100; percentageBill]
           HOUSEHOLD_MEMBERS).
  intros bill [->|[->|[]%elem_of_nil]%elem_of_cons]%elem_of_cons; reflexivity.
Defined.

(** *** When the resolver throws *)

Lemma pushAll_Throw (attributions : list Attribution) (billDebts : Debts)
    (r : Attribution) :
  r ∈ attributions → debtsAt billDebts r.1.1 r.1.2 = None →
  pushAll attributions billDebts = Throw TypeError.
Proof.
  revert billDebts.
  induction attributions as [|[[d c] entry] attributions IH];
    intros billDebts Hin Hnone; [by apply elem_of_nil in Hin|].
  unfold pushAll. cbn [forEachM].
  destruct (debtsAt billDebts d c) as [entries|] eqn:Hat.
  - destruct (pushDebt_Some _ _ _ entry _ Hat) as (g1 & Hg1 & Hat1).
    rewrite Hg1, bind_Ok. apply elem_of_cons in Hin as [->|Hin].
    + cbn [fst snd] in Hnone. congruence.
    + apply (IH g1 Hin). rewrite Hat1. case_bool_decide as Hdc; [|done].
      destruct Hdc as [Hd Hc]. rewrite Hd, Hc in Hnone. congruence.
  - by rewrite (pushDebt_None _ _ _ entry Hat).
Qed.

Lemma resolver_cases (bills : list Bill) (members : list Person)
    (settlementRecords : option (list SettlementRecord)) :
  coverageWithinRoster bills members
  ∨ calculateSettlementsWithBreakdown bills members settlementRecords
    = Throw TypeError.
Proof.
  unfold calculateSettlementsWithBreakdown.
  rewrite buildDebts_pushAll, <- withinRoster_iff.
  set (attributions := flat_map _ _).
  destruct (decide (Forall (λ r : Attribution,
                              is_Some (debtsAt (initDebts members) r.1.1 r.1.2))
                           attributions)) as [Hall|Hnot].
  - left. intros r Hr. rewrite Forall_forall in Hall. specialize (Hall r Hr).
    rewrite initDebts_debtsAt in Hall. case_bool_decide; [done|].
    by destruct Hall.
  - right. apply not_Forall_Exists in Hnot; [|apply _].
    apply Exists_exists in Hnot as (r & Hr & Hnone).
    rewrite (pushAll_Throw attributions _ r Hr); [done|].
    by apply eq_None_not_Some.
Qed.

Lemma resolver_returns_ok (bills : list Bill) (members : list Person)
    (settlementRecords : option (list SettlementRecord)) :
  coverageWithinRoster bills members →
  ∃ out, calculateSettlementsWithBreakdown bills members settlementRecords
         = Ok out.
Proof.
  intros Hcov%withinRoster_iff.
  destruct (buildDebts_closed bills members Hcov) as (g & Hg & _).
  eexists. by apply calculateSettlements_closed.
Qed.

(** X13. The resolver returns a result exactly when every coverage
    allocation above 0.01 of the bills taken into account is between two
    distinct members of the roster; otherwise it throws a [TypeError].
    Payers, share holders and settlement records that are not on the roster
    never make it throw. *)
Theorem resolver_returns_iff (bills : list Bill) (members : list Person)
    (settlementRecords : option (list SettlementRecord)) :
  ((∃ out, calculateSettlementsWithBreakdown bills members settlementRecords
           = Ok out)
   ↔ coverageWithinRoster bills members)
  ∧ (¬ coverageWithinRoster bills members →
     calculateSettlementsWithBreakdown bills members settlementRecords
     = Throw TypeError).
Proof.
  pose proof (resolver_cases bills members settlementRecords) as Hcases.
  split; [split|].
  - intros [out Hrun]. destruct Hcases as [?|Hthrow]; [done|].
    rewrite Hthrow in Hrun. discriminate.
  - apply resolver_returns_ok.
  - intros Hbad. by destruct Hcases.
Qed.

(** *** Settlement records that do not concern the roster *)

Lemma nettedPairs_elem (members : list Person) (pair : Person * Person) :
  pair ∈ nettedPairs members →
  person_id pair.1 ∈ map person_id members
  ∧ person_id pair.2 ∈ map person_id members
  ∧ person_id pair.1 ≠ person_id pair.2.
Proof.
  intros [[Ha Hb]%allPairs_elem Hleb%leb_false_ne]%scanPairs_elem.
  split_and!; [by apply list_elem_of_fmap_2..|done].
Qed.

(** X14. A settlement record whose payer or payee is not on the roster, or
    that goes from a member to that same member, changes nothing of what the
    resolver returns. *)
Theorem foreign_records_are_ignored (bills : list Bill) (members : list Person)
    (settlementRecords : option (list SettlementRecord)) (r : SettlementRecord) :
  fromId r ∉ map person_id members ∨ toId r ∉ map person_id members
  ∨ fromId r = toId r →
  calculateSettlementsWithBreakdown bills members (addRecord settlementRecords r)
  = calculateSettlementsWithBreakdown bills members settlementRecords.
Proof.
  intros Hforeign.
  destruct (buildDebts bills members) as [g|e] eqn:Hg.
  2:{ unfold calculateSettlementsWithBreakdown. by rewrite Hg. }
  rewrite !(calculateSettlements_closed _ _ _ _ Hg). f_equal.
  apply flat_map_ext_elem. intros pair (Ha & Hb & Hne)%nettedPairs_elem.
  unfold pairSettlements, settleBetween.
  rewrite !getForgivenBetween_addRecord.
  rewrite !bool_decide_eq_false_2; [done|..]; intros [Hf Ht];
    rewrite Hf, Ht in Hforeign; destruct Hforeign as [?|[?|?]]; done.
Qed.

Lemma foreign_records_are_ignored_witness :
  calculateSettlementsWithBreakdown nettingScenarioBills rosterAB
    (addRecord None {| rec_id := "r"; fromId := "a"; toId := "guest";
                       rec_amount := 30; rec_type := Forgiven |})
  = calculateSettlementsWithBreakdown nettingScenarioBills rosterAB None.
Proof.
  apply (foreign_records_are_ignored nettingScenarioBills rosterAB None
           {| rec_id := "r"; fromId := "a"; toId := "guest";
              rec_amount := 30; rec_type := Forgiven |}).
  right; left. cbn. intros H. by repeat (apply elem_of_cons in H as [?|H]; [done|]);
    apply elem_of_nil in H.
Defined.

(** ** The unpaid bills of a member and the payment distribution *)

Lemma insertSorted_Permutation {A} (le : A → A → bool) (x : A) (l : list A) :
  insertSorted le x l ≡ₚ x :: l.
Proof.
  induction l as [|y l IH]; [done|].
  cbn [insertSorted]. destruct (le x y); [done|].
  rewrite IH. apply perm_swap.
Qed.

Lemma sortWith_Permutation {A} (le : A → A → bool) (l : list A) :
  sortWith le l ≡ₚ l.
Proof.
  induction l as [|x l IH]; [done|].
  unfold sortWith. cbn [foldr]. fold (sortWith le l).
  by rewrite insertSorted_Permutation, IH.
Qed.

Lemma insertSorted_sorted {A} (le : A → A → bool) (x : A) (l : list A) :
  (∀ a b, le a b = true ∨ le b a = true) →
  (∀ a b c, le a b = true → le b c = true → le a c = true) →
  StronglySorted (λ a b, le a b = true) l →
  StronglySorted (λ a b, le a b = true) (insertSorted le x l).
Proof.
  intros Htotal Htrans. induction 1 as [|y l Hsorted IH Hall].
  - cbn [insertSorted]. by repeat constructor.
  - cbn [insertSorted]. destruct (le x y) eqn:Hxy.
    + constructor; [by constructor|]. constructor; [done|].
      eapply Forall_impl; [exact Hall|]. intros z Hz. by eapply Htrans.
    + constructor; [done|].
      rewrite (insertSorted_Permutation le x l). constructor; [|done].
      destruct (Htotal x y); congruence.
Qed.

Lemma sortWith_sorted {A} (le : A → A → bool) (l : list A) :
  (∀ a b, le a b = true ∨ le b a = true) →
  (∀ a b c, le a b = true → le b c = true → le a c = true) →
  StronglySorted (λ a b, le a b = true) (sortWith le l).
Proof.
  intros Htotal Htrans. induction l as [|x l IH]; [constructor|].
  unfold sortWith. cbn [foldr]. by apply insertSorted_sorted.
Qed.

(** A list that is already in order is left as it is. *)
Lemma sortWith_already_sorted {A} (le : A → A → bool) (l : list A) :
  StronglySorted (λ a b, le a b = true) l → sortWith le l = l.
Proof.
  induction 1 as [|x l Hsorted IH Hall]; [done|].
  unfold sortWith. cbn [foldr]. fold (sortWith le l). rewrite IH.
  destruct l as [|y l]; [done|]. cbn [insertSorted].
  apply Forall_cons in Hall as [-> _]. done.
Qed.

Lemma foldl_push_filter {A B} (P : A → bool) (f : A → B) (l : list A)
    (acc : list B) :
  foldl (λ acc x, if P x then acc ++ [f x] else acc) acc l
  = acc ++ map f (filter (λ x, P x = true) l).
Proof.
  revert acc. induction l as [|x l IH]; intros acc.
  - cbn [foldl]. by rewrite filter_nil, app_nil_r.
  - cbn [foldl]. rewrite IH, filter_cons. destruct (P x) eqn:HP.
    + rewrite decide_True by done. cbn [map]. by rewrite <- app_assoc.
    + by rewrite decide_False by done.
Qed.

Lemma ltb_max0 (x : Q) : (0.01 <? Qmax 0 x) = (0.01 <? x).
Proof.
  destruct (Q.max_spec 0 x) as [[Hlt Hmax]|[Hle Hmax]].
  - by rewrite Hmax.
  - rewrite Hmax. symmetry. change (0.01 <? 0) with false. apply ltb_ge. lra.
Qed.

Lemma getUnpaidBillsForMember_unsorted (localeCompare : string → string → Z)
    (bills : list Bill) (members : list Person) (memberId' : string) :
  getUnpaidBillsForMember localeCompare bills members memberId'
  = sortWith (λ a b, (localeCompare (dueDate (ub_bill a)) (dueDate (ub_bill b))
                      <=? 0)%Z)
      (map (unpaidEntry members memberId')
           (filter (λ bill, isPaid bill = false
                            ∧ (0.01 <? shareOf members memberId' bill
                                       - paidOf memberId' bill) = true)
                   bills)).
Proof.
  unfold getUnpaidBillsForMember. cbn zeta. f_equal.
  rewrite (foldl_ext_in _
             (λ result bill,
                if 0.01 <? shareOf members memberId' bill - paidOf memberId' bill
                then result ++ [unpaidEntry members memberId' bill]
                else result)).
  2:{ intros result bill _. by rewrite ltb_max0. }
  rewrite (foldl_push_filter
             (λ bill, 0.01 <? shareOf members memberId' bill - paidOf memberId' bill)
             (unpaidEntry members memberId')).
  cbn [app]. f_equal. rewrite list_filter_filter.
  apply list_filter_iff. intros bill. tauto.
Qed.

Lemma getUnpaidBillsForMember_positive (localeCompare : string → string → Z)
    (bills : list Bill) (members : list Person) (memberId' : string)
    (entry : UnpaidBill) :
  entry ∈ getUnpaidBillsForMember localeCompare bills members memberId' →
  0.01 < ub_remaining entry.
Proof.
  rewrite getUnpaidBillsForMember_unsorted, sortWith_Permutation.
  intros (bill & -> & [[_ Howed%ltb_lt] _]%list_elem_of_filter)%list_elem_of_fmap.
  cbn [unpaidEntry ub_remaining]. apply Q.max_lt_iff. by right.
Qed.

(** X17. [getUnpaidBillsForMember] lists, once per occurrence and whatever
    the date comparator does, exactly the bills that are not marked paid and
    on which the member's share exceeds what the member paid by more than
    0.01. A bill marked paid is never listed, and the remaining amount of a
    listed bill is the share minus the paid amount. *)
Theorem getUnpaidBillsForMember_spec (localeCompare : string → string → Z)
    (bills : list Bill) (members : list Person) (memberId' : string) :
  let unpaid := getUnpaidBillsForMember localeCompare bills members memberId' in
  unpaid
  ≡ₚ map (unpaidEntry members memberId')
         (filter (λ bill, isPaid bill = false
                          ∧ (0.01 <? shareOf members memberId' bill
                                     - paidOf memberId' bill) = true)
                 bills)
  ∧ ∀ entry, entry ∈ unpaid →
      ub_bill entry ∈ bills
      ∧ isPaid (ub_bill entry) = false
      ∧ 0.01 < ub_remaining entry
      ∧ ub_remaining entry == ub_share entry - ub_paid entry.
Proof.
  cbn zeta. rewrite getUnpaidBillsForMember_unsorted.
  split; [apply sortWith_Permutation|].
  intros entry Hin. rewrite sortWith_Permutation in Hin.
  apply list_elem_of_fmap in Hin as (bill & -> & Hbill).
  apply list_elem_of_filter in Hbill as [[Hunpaid Howed%ltb_lt] Hbill].
  cbn [unpaidEntry ub_bill ub_remaining ub_share ub_paid].
  split_and!; [done..| |].
  - apply Q.max_lt_iff. by right.
  - apply Q.max_r. lra.
Qed.

Lemma StronglySorted_map {A B} (R : B → B → Prop) (f : A → B) (l : list A) :
  StronglySorted (λ x y, R (f x) (f y)) l → StronglySorted R (map f l).
Proof.
  induction 1 as [|x l Hsorted IH Hall]; [constructor|].
  cbn [map]. constructor; [done|]. by apply Forall_fmap.
Qed.

Lemma StronglySorted_filter_list {A} (R : A → A → Prop) (P : A → Prop)
    `{!∀ x, Decision (P x)} (l : list A) :
  StronglySorted R l → StronglySorted R (filter P l).
Proof.
  induction 1 as [|x l Hsorted IH Hall]; [constructor|].
  rewrite filter_cons. case_decide; [|done].
  constructor; [done|]. rewrite Forall_forall in Hall |- *.
  intros y [_ Hy]%list_elem_of_filter. by apply Hall.
Qed.

Lemma StronglySorted_weaken {A} (R R' : A → A → Prop) (l : list A) :
  (∀ a b, R a b → R' a b) → StronglySorted R l → StronglySorted R' l.
Proof.
  intros Himpl. induction 1 as [|x l Hsorted IH Hall]; [constructor|].
  constructor; [done|]. eapply Forall_impl; [exact Hall|]. apply Himpl.
Qed.

(** X18. When the date comparator is a total preorder, the unpaid bills of a
    member come out in the order of their due dates; and when the bills are
    given in that order already, they are listed in the order in which they
    were given. *)
Theorem getUnpaidBillsForMember_sorted (localeCompare : string → string → Z)
    (bills : list Bill) (members : list Person) (memberId' : string) :
  consistentComparator localeCompare →
  let unpaid := getUnpaidBillsForMember localeCompare bills members memberId' in
  StronglySorted (λ a b, (localeCompare (dueDate a) (dueDate b) <= 0)%Z)
                 (map ub_bill unpaid)
  ∧ (StronglySorted (λ a b, (localeCompare (dueDate a) (dueDate b) <= 0)%Z)
                    bills →
     map ub_bill unpaid
     = filter (λ bill, isPaid bill = false
                       ∧ (0.01 <? shareOf members memberId' bill
                                  - paidOf memberId' bill) = true)
              bills).
Proof.
  intros [Htotal Htrans]. cbn zeta. rewrite getUnpaidBillsForMember_unsorted.
  set (le := λ a b : UnpaidBill, _).
  set (owing := filter _ bills).
  split.
  - apply StronglySorted_map.
    apply (StronglySorted_weaken (λ a b, le a b = true)).
    { intros a b Hab. by apply Z.leb_le in Hab. }
    apply sortWith_sorted.
    + intros a b. unfold le. rewrite !Z.leb_le. apply Htotal.
    + intros a b c. unfold le. rewrite !Z.leb_le. apply Htrans.
  - intros Hsorted. rewrite sortWith_already_sorted.
    + rewrite map_map. cbn [unpaidEntry ub_bill]. apply map_id.
    + apply StronglySorted_map. cbn [unpaidEntry ub_bill].
      apply StronglySorted_filter_list.
      eapply StronglySorted_weaken; [|exact Hsorted].
      intros a b Hab. unfold le. by apply Z.leb_le.
Qed.

Lemma getUnpaidBillsForMember_sorted_witness :
  StronglySorted (λ a b, (compareLength (dueDate a) (dueDate b) <= 0)%Z)
    (map ub_bill
         (getUnpaidBillsForMember compareLength unpaidScenarioBills rosterAB "a")).
Proof.
  apply (getUnpaidBillsForMember_sorted compareLength unpaidScenarioBills
           rosterAB "a").
  unfold consistentComparator, compareLength. split; intros; lia.
Defined.

(** *** The payment distribution *)

Lemma round2_mono (x y : Q) : x <= y → Num.round2 x <= Num.round2 y.
Proof.
  intros Hxy. rewrite !round2_eq.
  assert (Qfloor (x * 100 + (1 # 2)) <= Qfloor (y * 100 + (1 # 2)))%Z as Hfloor
    by (apply Qfloor_resp_le; lra).
  rewrite Zle_Qle in Hfloor.
  unfold Qdiv. change (/ 100) with (1 # 100). lra.
Qed.

Lemma round2_within (x : Q) :
  x - 0.005 <= Num.round2 x ∧ Num.round2 x <= x + 0.005.
Proof.
  pose proof (round2_close x) as Hclose.
  apply Qabs_Qle_condition in Hclose as [Hlo Hhi].
  change (- (5 # 1000)) with (-5 # 1000) in Hlo. split; lra.
Qed.

Lemma distribute_stop (left : Q) (unpaidBills : list UnpaidBill) :
  left <= 0.01 → distribute left unpaidBills = [].
Proof.
  intros Hleft%ltb_ge. destruct unpaidBills; [done|].
  cbn [distribute]. by rewrite Hleft.
Qed.

Lemma distribute_cons (left : Q) (entry : UnpaidBill)
    (unpaidBills : list UnpaidBill) :
  0.01 < left →
  distribute left (entry :: unpaidBills)
  = {| pl_billId := bill_id (ub_bill entry);
       pl_billName := bill_name (ub_bill entry);
       pl_share := ub_remaining entry;
       paying := Num.round2 (Qmin left (ub_remaining entry)) |}
    :: distribute (left - Qmin left (ub_remaining entry)) unpaidBills.
Proof. intros Hleft%ltb_lt. cbn [distribute]. by rewrite Hleft. Qed.

Lemma distribute_prefix (left : Q) (unpaidBills : list UnpaidBill) :
  map pl_billId (distribute left unpaidBills)
  `prefix_of` map (λ entry, bill_id (ub_bill entry)) unpaidBills.
Proof.
  revert left. induction unpaidBills as [|entry rest IH]; intros left; [done|].
  cbn [distribute]. destruct (0.01 <? left).
  - cbn [map pl_billId]. apply prefix_cons, IH.
  - apply prefix_nil.
Qed.

Lemma distribute_at_most_share (left : Q) (unpaidBills : list UnpaidBill)
    (line : PaymentLine) :
  line ∈ distribute left unpaidBills →
  paying line <= Num.round2 (pl_share line).
Proof.
  revert left. induction unpaidBills as [|entry rest IH]; intros left Hin.
  - by apply elem_of_nil in Hin.
  - cbn [distribute] in Hin. destruct (0.01 <? left); [|by apply elem_of_nil in Hin].
    apply elem_of_cons in Hin as [->|Hin]; [|by eapply IH].
    cbn [paying pl_share]. apply round2_mono, Q.le_min_r.
Qed.

Lemma distribute_full_but_last (left : Q) (unpaidBills : list UnpaidBill)
    (i : nat) (line : PaymentLine) :
  distribute left unpaidBills !! i = Some line →
  (S i < length (distribute left unpaidBills))%nat →
  paying line = Num.round2 (pl_share line).
Proof.
  revert left i. induction unpaidBills as [|entry rest IH]; intros left i Hline Hlast;
    [done|].
  cbn [distribute] in Hline, Hlast.
  destruct (0.01 <? left); [|done].
  destruct i as [|i].
  - injection Hline as <-. cbn [paying pl_share]. apply round2_proper.
    cbn [length] in Hlast.
    destruct (Q.min_spec left (ub_remaining entry)) as [[Hlt Hmin]|[Hle Hmin]];
      [|done].
    rewrite distribute_stop in Hlast by lra. cbn [length] in Hlast. lia.
  - cbn [lookup list_lookup] in Hline. cbn [length] in Hlast.
    eapply IH; [exact Hline|lia].
Qed.

(** X19. The payment distribution is empty for an amount that is not
    positive or that exceeds the total remaining by more than 0.01.
    Otherwise its lines follow the unpaid bills in their order, without
    skipping one; no line pays more than the remaining amount of its bill,
    rounded to cents; and every line but the last pays exactly that rounded
    remaining amount. *)
Theorem paymentDistribution_lines (amount' totalRemaining : Q)
    (unpaidBills : list UnpaidBill) :
  let distribution := paymentDistribution amount' totalRemaining unpaidBills in
  (amount' <= 0 ∨ totalRemaining + 0.01 < amount' → distribution = [])
  ∧ map pl_billId distribution
    `prefix_of` map (λ entry, bill_id (ub_bill entry)) unpaidBills
  ∧ (∀ line, line ∈ distribution → paying line <= Num.round2 (pl_share line))
  ∧ (∀ i line, distribution !! i = Some line →
               (S i < length distribution)%nat →
               paying line = Num.round2 (pl_share line)).
Proof.
  cbn zeta. unfold paymentDistribution. split_and!.
  - intros [Hneg%ltb_ge| Hbig%ltb_lt].
    + by rewrite Hneg.
    + rewrite Hbig. by rewrite andb_false_r.
  - destruct (_ && _); [apply distribute_prefix|apply prefix_nil].
  - intros line. destruct (_ && _); [apply distribute_at_most_share|].
    by intros ?%elem_of_nil.
  - intros i line. destruct (_ && _); [apply distribute_full_but_last|done].
Qed.

Lemma sum_list_nonneg {A} (f : A → Q) (l : list A) :
  (∀ x, x ∈ l → 0 <= f x) → 0 <= Num.sum_list (map f l).
Proof.
  induction l as [|x l IH]; intros Hpos.
  - cbn [map]. rewrite sum_list_nil. lra.
  - cbn [map]. rewrite sum_list_cons.
    pose proof (Hpos x ltac:(left)). pose proof (IH ltac:(intros y Hy; apply Hpos; by right)).
    lra.
Qed.

Lemma distribute_total (left : Q) (unpaidBills : list UnpaidBill) :
  0 <= left → (∀ entry, entry ∈ unpaidBills → 0 <= ub_remaining entry) →
  let paid := Num.sum_list (map paying (distribute left unpaidBills)) in
  let due := Qmin left (Num.sum_list (map ub_remaining unpaidBills)) in
  let lines := inject_Z (Z.of_nat (length (distribute left unpaidBills))) in
  due - 0.01 - 0.005 * lines <= paid ∧ paid <= due + 0.005 * lines.
Proof.
  revert left. induction unpaidBills as [|entry rest IH]; intros left Hleft Hpos;
    cbn zeta.
  - cbn [distribute map length]. rewrite sum_list_nil.
    change (inject_Z (Z.of_nat 0)) with 0.
    destruct (Q.min_spec left 0) as [[? ->]|[? ->]]; split; lra.
  - pose proof (sum_list_nonneg ub_remaining (entry :: rest) Hpos) as Hdue.
    destruct (Qlt_le_dec 0.01 left) as [Hbig|Hsmall].
    2:{ rewrite distribute_stop by done. cbn [map length]. rewrite sum_list_nil.
        change (inject_Z (Z.of_nat 0)) with 0.
        destruct (Q.min_spec left (Num.sum_list (map ub_remaining (entry :: rest))))
          as [[? ->]|[? ->]]; split; lra. }
    rewrite distribute_cons by done. cbn [map length paying].
    rewrite !sum_list_cons in *.
    set (rem := ub_remaining entry) in *.
    assert (0 <= rem) as Hrem by (apply Hpos; by left).
    pose proof (sum_list_nonneg ub_remaining rest
                  ltac:(intros y Hy; apply Hpos; by right)) as Hrest.
    destruct (IH (left - Qmin left rem)) as [Hlo Hhi].
    { pose proof (Q.le_min_l left rem). lra. }
    { intros y Hy. apply Hpos. by right. }
    destruct (round2_within (Qmin left rem)) as [Hrlo Hrhi].
    replace (Z.of_nat (S (length (distribute (left - Qmin left rem) rest))))
      with (Z.of_nat (length (distribute (left - Qmin left rem) rest)) + 1)%Z
      by lia.
    rewrite inject_Z_plus. change (inject_Z 1) with 1.
    revert Hlo Hhi Hrlo Hrhi.
    generalize (inject_Z (Z.of_nat (length (distribute (left - Qmin left rem) rest)))).
    generalize (Num.sum_list (map paying (distribute (left - Qmin left rem) rest))).
    generalize (Num.round2 (Qmin left rem)).
    revert Hrest. generalize (Num.sum_list (map ub_remaining rest)).
    clearbody rem. clear. intros total Hrest r paid n.
    destruct (Q.min_spec left rem) as [[? ->]|[? ->]];
      destruct (Q.min_spec left (rem + total)) as [[? ->]|[? ->]].
    + destruct (Q.min_spec (left - left) total) as [[? ->]|[? ->]];
        intros; split; lra.
    + lra.
    + destruct (Q.min_spec (left - rem) total) as [[? ->]|[? ->]];
        intros; split; lra.
    + destruct (Q.min_spec (left - rem) total) as [[? ->]|[? ->]];
        intros; split; lra.
Qed.

(** X20. For a valid amount and unpaid bills whose remaining amounts are not
    negative, the lines of the distribution add up to the amount, or to the
    sum of the remaining amounts if that is less, up to one cent that may be
    left undistributed and half a cent of rounding per line. *)
Theorem paymentDistribution_total (amount' totalRemaining : Q)
    (unpaidBills : list UnpaidBill) :
  0 < amount' → amount' <= totalRemaining + 0.01 →
  (∀ entry, entry ∈ unpaidBills → 0 <= ub_remaining entry) →
  let distribution := paymentDistribution amount' totalRemaining unpaidBills in
  let paid := Num.sum_list (map paying distribution) in
  let due := Qmin amount' (Num.sum_list (map ub_remaining unpaidBills)) in
  let lines := inject_Z (Z.of_nat (length distribution)) in
  due - 0.01 - 0.005 * lines <= paid ∧ paid <= due + 0.005 * lines.
Proof.
  intros Hpos Hvalid Hrem. unfold paymentDistribution.
  apply ltb_lt in Hpos as Hpos'. apply ltb_ge in Hvalid as Hvalid'.
  rewrite Hpos', Hvalid'. cbn [negb andb].
  apply distribute_total; [lra|done].
Qed.

Lemma paymentDistribution_total_witness :
  let unpaidBills :=
    getUnpaidBillsForMember compareLength unpaidScenarioBills rosterAB "a" in
  let distribution := paymentDistribution 45 60 unpaidBills in
  let paid := Num.sum_list (map paying distribution) in
  let due := Qmin 45 (Num.sum_list (map ub_remaining unpaidBills)) in
  let lines := inject_Z (Z.of_nat (length distribution)) in
  due - 0.01 - 0.005 * lines <= paid ∧ paid <= due + 0.005 * lines.
Proof.
  intros unpaidBills.
  apply (paymentDistribution_total 45 60 unpaidBills).
  - reflexivity.
  - vm_compute. discriminate.
  - intros entry Hin.
    apply (getUnpaidBillsForMember_positive compareLength) in Hin. lra.
Defined.




(** ** The monthly summary *)

Lemma max0_proper (x y : Q) : x == y → Qmax 0 x == Qmax 0 y.
Proof.
  intros Hxy.
  destruct (Q.max_spec 0 x) as [[? ->]|[? ->]];
    destruct (Q.max_spec 0 y) as [[? ->]|[? ->]]; lra.
Qed.

Lemma addMonthBill_fold (members : list Person) (member' : Person)
    (bills : list Bill) (totalShare0 amountPaid0 : Q)
    (billBreakdown0 : list MonthlyLine) :
  let counted :=
    filter (λ bill, (0.01 <? shareOf members (person_id member') bill) = true)
           bills in
  ∃ totalShare' amountPaid',
    foldl (λ st bill, addMonthBill members member' bill st)
          (totalShare0, amountPaid0, billBreakdown0) bills
    = (totalShare', amountPaid',
       billBreakdown0 ++ map (monthLine members (person_id member')) counted)
    ∧ totalShare'
      == totalShare0
         + Num.sum_list (map (shareOf members (person_id member')) counted)
    ∧ amountPaid'
      == amountPaid0 + Num.sum_list (map (paidOf (person_id member')) counted).
Proof.
  revert totalShare0 amountPaid0 billBreakdown0.
  induction bills as [|bill bills IH];
    intros totalShare0 amountPaid0 billBreakdown0; cbn zeta.
  - exists totalShare0, amountPaid0. rewrite filter_nil. cbn [foldl map].
    rewrite app_nil_r, sum_list_nil. split_and!; [done|lra..].
  - cbn [foldl]. rewrite filter_cons. unfold addMonthBill at 2.
    fold (shareOf members (person_id member') bill).
    fold (paidOf (person_id member') bill).
    destruct (0.01 <? shareOf members (person_id member') bill) eqn:Hshare.
    + rewrite decide_True by done.
      destruct (IH (totalShare0 + shareOf members (person_id member') bill)
                   (amountPaid0 + paidOf (person_id member') bill)
                   (billBreakdown0 ++ [monthLine members (person_id member') bill]))
        as (totalShare' & amountPaid' & Hfold & Hshares & Hpaid).
      exists totalShare', amountPaid'. unfold monthLine at 1 in Hfold.
      rewrite Hfold. cbn [map]. rewrite <- app_assoc, !sum_list_cons.
      split_and!; [done|lra..].
    + rewrite decide_False by done. apply IH.
Qed.

Lemma calculateMonthlyMemberBills_closed (localeCompare : string → string → Z)
    (dueYearMonth : string → option (Z * Z)) (bills : list Bill)
    (members : list Person) (month year : Z) :
  calculateMonthlyMemberBills localeCompare dueYearMonth bills members month year
  = map (monthlySummary localeCompare dueYearMonth bills members month year)
        members.
Proof.
  unfold calculateMonthlyMemberBills. cbn zeta. apply map_ext. intros m.
  destruct (addMonthBill_fold members m
              (filter (λ bill, dueIn dueYearMonth month year bill = true) bills)
              0 0 [])
    as (totalShare' & amountPaid' & Hfold & Hshares & Hpaid).
  unfold dueIn in Hfold. rewrite Hfold. unfold monthlySummary, billsCounted.
  cbn zeta. cbn [app]. f_equal.
  - apply round2_proper. rewrite Hshares. unfold dueIn. lra.
  - apply round2_proper. rewrite Hpaid. unfold dueIn. lra.
  - apply round2_proper, max0_proper. rewrite Hshares, Hpaid. unfold dueIn. lra.
Qed.

(** X21. The monthly summary has one entry per member, in the order of the
    roster. The entry of a member reports, rounded to cents, the sum of the
    member's shares and the sum of what the member paid over exactly the
    bills due in that month in which the member's share exceeds 0.01, and as
    remaining amount the difference of these sums, or zero when more was
    paid; its breakdown has one line for each of these bills. What the
    member paid on a bill of which they hold no such share is not
    counted. *)
Theorem calculateMonthlyMemberBills_spec (localeCompare : string → string → Z)
    (dueYearMonth : string → option (Z * Z)) (bills : list Bill)
    (members : list Person) (month year : Z) (i : nat) (member' : Person) :
  members !! i = Some member' →
  let summary :=
    calculateMonthlyMemberBills localeCompare dueYearMonth bills members
                                month year in
  let counted :=
    billsCounted dueYearMonth members (person_id member') month year bills in
  let shares := Num.sum_list (map (shareOf members (person_id member')) counted) in
  let paid := Num.sum_list (map (paidOf (person_id member')) counted) in
  length summary = length members
  ∧ ∃ entry,
      summary !! i = Some entry
      ∧ memberId entry = person_id member'
      ∧ memberName entry = person_name member'
      ∧ totalShare entry = Num.round2 shares
      ∧ amountPaid entry = Num.round2 paid
      ∧ remaining entry = Num.round2 (Qmax 0 (shares - paid))
      ∧ billBreakdown entry
        ≡ₚ map (monthLine members (person_id member')) counted.
Proof.
  intros Hmember. cbn zeta. rewrite calculateMonthlyMemberBills_closed.
  split; [by rewrite length_map|].
  eexists. split.
  - change (map ?f ?l) with (f <$> l) at 1. by rewrite list_lookup_fmap, Hmember.
  - unfold monthlySummary.
    cbn [memberId memberName totalShare amountPaid remaining billBreakdown].
    split_and!; [done..|]. apply sortWith_Permutation.
Qed.

Lemma calculateMonthlyMemberBills_spec_witness :
  ∃ entry,
    calculateMonthlyMemberBills compareLength scenarioYearMonth
                                unpaidScenarioBills rosterAB 2 2024 !! 0%nat
    = Some entry
    ∧ totalShare entry = 80 ∧ amountPaid entry = 0 ∧ remaining entry = 80
    ∧ length (billBreakdown entry) = 2%nat.
Proof.
  destruct (calculateMonthlyMemberBills_spec compareLength scenarioYearMonth
              unpaidScenarioBills rosterAB 2 2024 0 (member "a" "A"))
    as (_ & entry & Hentry & _ & _ & Hshare & Hpaid & Hremaining & Hlines);
    [reflexivity|].
  exists entry. split_and!; [done|by rewrite Hshare|by rewrite Hpaid|
                             by rewrite Hremaining|].
  by rewrite Hlines.
Defined.

(** X22. In every entry of the monthly summary the remaining amount is not
    negative and agrees, up to a cent and a half of rounding, with the
    reported total share minus the reported amount paid, or with zero when
    that difference is negative. Every line of its breakdown is for a share
    of at least one cent and has a remaining amount that is not negative;
    and when the date comparator is a total
    preorder the lines are in the order of their due dates. *)
Theorem monthly_entries_consistent (localeCompare : string → string → Z)
    (dueYearMonth : string → option (Z * Z)) (bills : list Bill)
    (members : list Person) (month year : Z) :
  Forall (λ entry,
            0 <= remaining entry
            ∧ Qabs (remaining entry
                    - Qmax 0 (totalShare entry - amountPaid entry)) <= 0.015
            ∧ Forall (λ line, 0.01 <= ml_share line
                              ∧ 0 <= ml_remaining line)
                     (billBreakdown entry)
            ∧ (consistentComparator localeCompare →
               StronglySorted (λ a b, (localeCompare a b <= 0)%Z)
                              (map ml_dueDate (billBreakdown entry))))
         (calculateMonthlyMemberBills localeCompare dueYearMonth bills members
                                      month year).
Proof.
  rewrite calculateMonthlyMemberBills_closed. apply Forall_forall.
  intros entry (m & -> & _)%list_elem_of_fmap. unfold monthlySummary.
  cbn [memberId memberName totalShare amountPaid remaining billBreakdown].
  set (counted := billsCounted _ _ _ _ _ _).
  set (shares := Num.sum_list _). set (paid := Num.sum_list _).
  clearbody shares paid. split_and!.
  - change 0 with (Num.round2 0) at 1. apply round2_mono, Q.le_max_l.
  - destruct (round2_within shares) as [? ?].
    destruct (round2_within paid) as [? ?].
    destruct (round2_within (Qmax 0 (shares - paid))) as [? ?].
    revert H H0 H1 H2 H3 H4.
    generalize (Num.round2 (Qmax 0 (shares - paid))).
    generalize (Num.round2 shares). generalize (Num.round2 paid).
    intros p s r ? ? ? ? ? ?.
    apply Qabs_Qle_condition. change (- 0.015) with (-15 # 1000).
    destruct (Q.max_spec 0 (shares - paid)) as [[? Hm1]|[? Hm1]];
      destruct (Q.max_spec 0 (s - p)) as [[? Hm2]|[? Hm2]];
      rewrite Hm1 in *; rewrite Hm2; split; lra.
  - apply Forall_forall. intros line Hline.
    rewrite sortWith_Permutation in Hline.
    apply list_elem_of_fmap in Hline as (bill & -> & Hbill).
    apply list_elem_of_filter in Hbill as [Hshare%ltb_lt _].
    cbn [monthLine ml_share ml_remaining]. split.
    + by apply round2_ge_cent.
    + change 0 with (Num.round2 0) at 1. apply round2_mono, Q.le_max_l.
  - intros [Htotal Htrans]. apply StronglySorted_map.
    set (le := λ a b : MonthlyLine, (_ <=? _)%Z).
    apply (StronglySorted_weaken (λ a b, le a b = true)).
    { intros a b Hab. by apply Z.leb_le in Hab. }
    apply sortWith_sorted.
    + intros a b. unfold le. rewrite !Z.leb_le. apply Htotal.
    + intros a b c. unfold le. rewrite !Z.leb_le. apply Htrans.
Qed.
